(** * Spine Toolbox: the workflow graph engine of [spinetoolbox/executioner.py]

    A shallow embedding of [DirectedGraphHandler] (the project's list of
    directed graphs and its edit operations) and of [ExecutionInstance]
    (the sequential execution driver and its resource lists), together
    with the part of networkx that the handler calls. *)

From stdpp Require Import base decidable option list relations gmap strings.
From Stdlib Require Import ZArith Lia Ascii.

Open Scope Z_scope.
Open Scope string_scope.
Open Scope nat_scope.
Open Scope list_scope.

(** Membership in a list that is written out. *)
Ltac in_list :=
  repeat first [apply list_elem_of_here | apply list_elem_of_further].

Ltac not_in_list H :=
  repeat (apply elem_of_cons in H as [H|H]; [discriminate H|]);
  by apply elem_of_nil in H.

(** ** The networkx [DiGraph] operations used by the handler *)

Module Nx.

(** A node is any hashable Python value; the handler uses project item
    names (str) and, in [calc_exec_order], the integer 0. *)
Inductive node : Type :=
  | NStr (s : string)
  | NInt (z : Z).

#[global] Instance node_eq_dec : EqDecision node.
Proof. solve_decision. Defined.

Definition edge : Type := node * node.

(** [g_nodes] is the node dictionary in insertion order; [g_edges] lists
    the edges so that, for each node, the edges leaving it (entering it)
    appear in the insertion order of its successor (predecessor)
    dictionary. *)
Record DiGraph : Type := mkDiGraph {
  g_nodes : list node;
  g_edges : list edge
}.

#[global] Instance DiGraph_eq_dec : EqDecision DiGraph.
Proof. solve_decision. Defined.

Definition empty_graph : DiGraph := mkDiGraph [] [].

Definition has_node (g : DiGraph) (n : node) : bool :=
  bool_decide (n ∈ g_nodes g).

Definition has_edge (g : DiGraph) (u v : node) : bool :=
  bool_decide ((u, v) ∈ g_edges g).

Definition add_node (g : DiGraph) (n : node) : DiGraph :=
  if has_node g n then g else mkDiGraph (g_nodes g ++ [n]) (g_edges g).

Definition add_edge (g : DiGraph) (u v : node) : DiGraph :=
  let g' := add_node (add_node g u) v in
  if has_edge g' u v then g'
  else mkDiGraph (g_nodes g') (g_edges g' ++ [(u, v)]).

Definition add_edges_from (g : DiGraph) (es : list edge) : DiGraph :=
  foldl (fun acc e => add_edge acc e.1 e.2) g es.

(** [remove_edge] and [remove_node] raise [NetworkXError] when the edge
    or node is absent: [None]. *)
Definition remove_edge (g : DiGraph) (u v : node) : option DiGraph :=
  if has_edge g u v
  then Some (mkDiGraph (g_nodes g)
               (filter (fun e => e ≠ (u, v)) (g_edges g)))
  else None.

Definition touches (n : node) (e : edge) : Prop := e.1 = n ∨ e.2 = n.

#[global] Instance touches_dec n e : Decision (touches n e).
Proof. unfold touches. apply _. Defined.

Definition drop_node (g : DiGraph) (n : node) : DiGraph :=
  mkDiGraph (filter (fun m => m ≠ n) (g_nodes g))
            (filter (fun e => ¬ touches n e) (g_edges g)).

Definition remove_node (g : DiGraph) (n : node) : option DiGraph :=
  if has_node g n then Some (drop_node g n) else None.

(** The [_from] variants skip what is absent. *)
Definition remove_edges_from (g : DiGraph) (es : list edge) : DiGraph :=
  mkDiGraph (g_nodes g) (filter (fun e => e ∉ es) (g_edges g)).

Definition remove_nodes_from (g : DiGraph) (ns : list node) : DiGraph :=
  foldl drop_node g ns.

Definition successors (g : DiGraph) (u : node) : list node :=
  (filter (fun e => e.1 = u) (g_edges g)).*2.

Definition predecessors (g : DiGraph) (v : node) : list node :=
  (filter (fun e => e.2 = v) (g_edges g)).*1.

Definition out_degree (g : DiGraph) (n : node) : nat :=
  length (successors g n).

Definition in_degree (g : DiGraph) (n : node) : nat :=
  length (predecessors g n).

(** A self-loop is counted once as an in-edge and once as an out-edge. *)
Definition degree (g : DiGraph) (n : node) : nat :=
  in_degree g n + out_degree g n.

Definition is_isolate (g : DiGraph) (n : node) : bool :=
  bool_decide (degree g n = 0).

(** [G.edges(nbunch)]: the edges leaving the nodes of [nbunch] that are
    in the graph, node by node. *)
Definition edges_of (g : DiGraph) (nbunch : list node) : list edge :=
  n ← filter (fun n => n ∈ g_nodes g) nbunch;
  (fun v => (n, v)) <$> successors g n.

(** [G.edges()]. *)
Definition edges (g : DiGraph) : list edge := edges_of g (g_nodes g).

(** [nx.union] raises when the node sets meet. *)
Definition union (g h : DiGraph) : option DiGraph :=
  if bool_decide (Forall (fun n => n ∉ g_nodes h) (g_nodes g))
  then Some (mkDiGraph (g_nodes g ++ g_nodes h) (edges g ++ edges h))
  else None.

Definition reverse (g : DiGraph) : DiGraph :=
  mkDiGraph (g_nodes g) ((fun e => (e.2, e.1)) <$> g_edges g).

(** *** Directed reachability *)

Definition edge_rel (g : DiGraph) (u v : node) : Prop := (u, v) ∈ g_edges g.

(** A set of nodes closed under the edges of [g]. *)
Definition closed (g : DiGraph) (R : list node) : Prop :=
  ∀ x y, x ∈ R → edge_rel g x y → y ∈ R.

(** Connection when the direction of the edges is ignored. *)
Definition weakly_connected (g : DiGraph) (a b : node) : Prop :=
  rtsc (edge_rel g) a b.

(** What every [DiGraph] value satisfies: the nodes and the edges are
    dictionary keys, and an edge joins nodes of the graph. *)
Definition wf (g : DiGraph) : Prop :=
  NoDup (g_nodes g) ∧ NoDup (g_edges g) ∧
  Forall (fun e => e.1 ∈ g_nodes g ∧ e.2 ∈ g_nodes g) (g_edges g).

#[global] Instance wf_dec g : Decision (wf g).
Proof. unfold wf. apply _. Defined.

(** Breadth-first layers: [seen] is everything found so far, [frontier]
    the last layer.  One unit of fuel is spent per layer. *)
Fixpoint layers (g : DiGraph) (fuel : nat) (seen frontier : list node)
  : list node :=
  match fuel with
  | O => seen
  | S fuel' =>
      let new :=
        remove_dups (list_difference (frontier ≫= successors g) seen) in
      match new with
      | [] => seen
      | _ => layers g fuel' (seen ++ new) new
      end
  end.

(** The nodes reached from [s] along one edge or more; [s] itself is
    among them exactly when it lies on a cycle. *)
Definition reach (g : DiGraph) (s : node) : list node :=
  let first := remove_dups (successors g s) in
  layers g (S (length (g_edges g))) first first.

(** [nx.descendants] and [nx.ancestors] exclude the node itself and
    raise when it is not in the graph.  They return sets, which Python
    walks in an order of its own; the lists here hold the same nodes in
    breadth-first order, and the facts proved below depend on the
    members only. *)
Definition descendants (g : DiGraph) (s : node) : option (list node) :=
  if has_node g s then Some (filter (fun n => n ≠ s) (reach g s)) else None.

Definition ancestors (g : DiGraph) (s : node) : option (list node) :=
  descendants (reverse g) s.

(** [nx.has_path] raises [NodeNotFound] when an endpoint is missing; a
    node has the empty path to itself. *)
Definition has_path (g : DiGraph) (u v : node) : option bool :=
  if has_node g u && has_node g v
  then Some (bool_decide (u = v) || bool_decide (v ∈ reach g u))
  else None.

(** A directed graph is acyclic when no node reaches itself. *)
Definition is_directed_acyclic_graph (g : DiGraph) : bool :=
  forallb (fun n => negb (bool_decide (n ∈ reach g n))) (g_nodes g).

(** [nx.bfs_edges]: the tree edges of a breadth-first search from
    [source], children taken in successor order. *)
Fixpoint visit_children (parent : node) (children visited : list node)
  : list edge * list node :=
  match children with
  | [] => ([], visited)
  | c :: cs =>
      if bool_decide (c ∈ visited) then visit_children parent cs visited
      else
        let '(es, visited') := visit_children parent cs (visited ++ [c]) in
        ((parent, c) :: es, visited')
  end.

Fixpoint bfs_loop (g : DiGraph) (fuel : nat) (queue visited : list node)
  : list edge :=
  match fuel, queue with
  | S fuel', parent :: queue' =>
      let '(es, visited') :=
        visit_children parent (successors g parent) visited in
      es ++ bfs_loop g fuel' (queue' ++ es.*2) visited'
  | _, _ => []
  end.

Definition bfs_edges (g : DiGraph) (source : node) : list edge :=
  bfs_loop g (S (length (g_edges g))) [source] [source].

(** The edge targets that a search has not visited yet. *)
Definition unvisited (g : DiGraph) (visited : list node) : list node :=
  remove_dups (list_difference (g_edges g).*2 visited).

End Nx.

(** ** [DirectedGraphHandler] *)

Module DirectedGraphHandler.
Import Nx.

(** [self._dags]: the handler's list of graph objects.  A graph object is
    identified by its position in the list; editing a graph in place is
    an update at its position.  An operation that raises leaves the list
    as it was and is [None]. *)
Abbreviation Dags := (list DiGraph).

Definition add_dag (dags : Dags) (dag : DiGraph) : Dags := dags ++ [dag].

Definition remove_dag (dags : Dags) (i : nat) : Dags := delete i dags.

Definition add_dag_node (dags : Dags) (node_name : node) : Dags :=
  dags ++ [add_node empty_graph node_name].

(** The first graph holding the node (edge), with its position. *)
Definition dag_with_node (dags : Dags) (node_name : node)
  : option (nat * DiGraph) :=
  list_find (fun dag => has_node dag node_name = true) dags.

Definition dag_with_edge (dags : Dags) (src_node dst_node : node)
  : option (nat * DiGraph) :=
  list_find (fun dag => has_edge dag src_node dst_node = true) dags.

Definition add_graph_edge (dags : Dags) (src_node dst_node : node)
  : option Dags :=
  let src_graph := dag_with_node dags src_node in
  let dst_graph := dag_with_node dags dst_node in
  if decide (src_node = dst_node) then
    '(i, g) ← src_graph;
    Some (<[i := add_edge g src_node dst_node]> dags)
  else if decide (fst <$> src_graph = fst <$> dst_graph) then
    '(i, g) ← src_graph;
    Some (<[i := add_edge g src_node dst_node]> dags)
  else
    '(i, g) ← src_graph;
    '(j, h) ← dst_graph;
    union_dag ← union g h;
    let dags1 := add_dag dags (add_edge union_dag src_node dst_node) in
    let dags2 := remove_dag dags1 i in
    Some (remove_dag dags2 (if decide (j < i) then j else pred j)).

Definition node_is_isolated (dags : Dags) (n : node) (allow_self_loop : bool)
  : option bool :=
  '(i, g) ← dag_with_node dags n;
  Some (if negb allow_self_loop then is_isolate g n
        else if negb (has_edge g n n) then is_isolate g n
        else bool_decide ((Z.of_nat (degree g n) - 2)%Z = 0%Z)).

(** The probes of [nodes_connected]: some ancestor or descendant of [a]
    has a directed path to [b] or from [b]. *)
Definition probe (dag : DiGraph) (b x : node) : option bool :=
  p ← has_path dag x b;
  if (p : bool) then Some true else has_path dag b x.

Fixpoint probe_any (dag : DiGraph) (b : node) (xs : list node)
  : option bool :=
  match xs with
  | [] => Some false
  | x :: xs' =>
      r ← probe dag b x;
      if (r : bool) then Some true else probe_any dag b xs'
  end.

Definition nodes_connected (dag : DiGraph) (a b : node) : option bool :=
  src_anc ← ancestors dag a;
  src_des ← descendants dag a;
  r ← probe_any dag b src_anc;
  if (r : bool) then Some true else probe_any dag b src_des.

(** The graph that [remove_graph_edge] builds around an end point: the
    edges leaving its descendants, its ancestors and itself.  The nodes
    and the edges are those of the code; their order follows the lists
    of [descendants] and [ancestors]. *)
Definition closure_graph (dag : DiGraph) (n : node) : option DiGraph :=
  des ← descendants dag n;
  anc ← ancestors dag n;
  Some (add_edges_from
          (add_edges_from
             (add_edges_from empty_graph (edges_of dag des))
             (edges_of dag anc))
          (edges_of dag [n])).

Definition remove_graph_edge (dags : Dags) (src_node dst_node : node)
  : option Dags :=
  '(i, dag0) ← dag_with_edge dags src_node dst_node;
  dag ← remove_edge dag0 src_node dst_node;
  let dags1 := <[i := dag]> dags in
  if decide (src_node = dst_node) then Some dags1 else
  src_isolated ← node_is_isolated dags1 src_node false;
  if (src_isolated : bool) then
    dag' ← remove_node dag src_node;
    Some (add_dag (<[i := dag']> dags1) (add_node empty_graph src_node))
  else
  dst_isolated ← node_is_isolated dags1 dst_node false;
  if (dst_isolated : bool) then
    dag' ← remove_node dag dst_node;
    Some (add_dag (<[i := dag']> dags1) (add_node empty_graph dst_node))
  else
  connected ← nodes_connected dag src_node dst_node;
  if (connected : bool) then Some dags1 else
  descendant_graph ← closure_graph dag src_node;
  ancestor_graph ← closure_graph dag dst_node;
  Some (add_dag (add_dag (remove_dag dags1 i) descendant_graph)
          ancestor_graph).

(** The sweep of [remove_node_from_graph] over the nodes left in [g]:
    every isolated node gets a graph of its own, with its self-loop. *)
Fixpoint sweep (g : DiGraph) (todo : list node) (dags : Dags)
  (nodes_to_remove : list node) : option (Dags * list node) :=
  match todo with
  | [] => Some (dags, nodes_to_remove)
  | n :: todo' =>
      isolated ← node_is_isolated dags n true;
      if (isolated : bool) then
        let h := add_node empty_graph n in
        let h' := if has_edge g n n then add_edge h n n else h in
        sweep g todo' (add_dag dags h') (nodes_to_remove ++ [n])
      else sweep g todo' dags nodes_to_remove
  end.

Definition remove_node_from_graph (dags : Dags) (node_name : node)
  : option Dags :=
  '(i, g0) ← dag_with_node dags node_name;
  let edges_to_remove := filter (touches node_name) (edges g0) in
  let g1 := remove_edges_from g0 edges_to_remove in
  g ← remove_node g1 node_name;
  let dags1 := <[i := g]> dags in
  '(dags2, nodes_to_remove) ← sweep g (g_nodes g) dags1 [];
  let g' := remove_nodes_from g nodes_to_remove in
  let dags3 := <[i := g']> dags2 in
  if bool_decide (g_nodes g' = []) then Some (remove_dag dags3 i)
  else Some dags3.

Definition source_nodes (g : DiGraph) : list node :=
  filter (fun n => in_degree g n = 0) (g_nodes g).

Definition invisible_src_node : node := NInt 0.

(** [calc_exec_order] edits its argument in the several-sources case, so
    the model returns the graph as the call leaves it, next to the
    order.  [None] stands for a raise. *)
Definition calc_exec_order (g : DiGraph) : option (list node * DiGraph) :=
  if negb (is_directed_acyclic_graph g) then Some ([], g) else
  let sources := source_nodes g in
  match sources with
  | [] => Some ([], g)
  | [source] =>
      let edges_to_execute := bfs_edges g source in
      Some ([source] ++ edges_to_execute.*2, g)
  | _ =>
      let g1 := add_node g invisible_src_node in
      let g2 := foldl (fun acc src => add_edge acc invisible_src_node src)
                  g1 sources in
      let edges_to_execute := bfs_edges g2 invisible_src_node in
      g3 ← foldl (fun acc src =>
                    acc ≫= fun h => remove_edge h invisible_src_node src)
              (Some g2) sources;
      g4 ← remove_node g3 invisible_src_node;
      Some (edges_to_execute.*2, g4)
  end.

(** The four edit operations of the handler, and a run of them. *)
Inductive op : Type :=
  | AddNode (name : string)
  | AddEdge (src dst : string)
  | RemoveEdge (src dst : string)
  | RemoveNode (name : string).

Definition apply_op (dags : Dags) (o : op) : option Dags :=
  match o with
  | AddNode n => Some (add_dag_node dags (NStr n))
  | AddEdge s d => add_graph_edge dags (NStr s) (NStr d)
  | RemoveEdge s d => remove_graph_edge dags (NStr s) (NStr d)
  | RemoveNode n => remove_node_from_graph dags (NStr n)
  end.

Fixpoint run (dags : Dags) (ops : list op) : option Dags :=
  match ops with
  | [] => Some dags
  | o :: ops' => dags' ← apply_op dags o; run dags' ops'
  end.

(** The names added and not removed by a run, and whether every
    [AddNode] of the run adds a name that is not there at the time. *)
Fixpoint surviving (ops : list op) (alive : list string) : list string :=
  match ops with
  | [] => alive
  | AddNode n :: ops' => surviving ops' (alive ++ [n])
  | RemoveNode n :: ops' => surviving ops' (filter (fun m => m ≠ n) alive)
  | _ :: ops' => surviving ops' alive
  end.

Fixpoint fresh_adds (ops : list op) (alive : list string) : bool :=
  match ops with
  | [] => true
  | AddNode n :: ops' =>
      negb (bool_decide (n ∈ alive)) && fresh_adds ops' (alive ++ [n])
  | RemoveNode n :: ops' => fresh_adds ops' (filter (fun m => m ≠ n) alive)
  | _ :: ops' => fresh_adds ops' alive
  end.

(** The graphs of the list that hold a node. *)
Definition owners (dags : Dags) (n : node) : list DiGraph :=
  filter (fun g => has_node g n = true) dags.

(** Isolation when the two ends of a self-loop are left out of the
    degree, and the one-node graph that keeps the self-loop of [n]. *)
Definition isolated_but_for_self_loop (g : DiGraph) (n : node) : bool :=
  bool_decide
    ((Z.of_nat (degree g n) - (if has_edge g n n then 2 else 0))%Z = 0%Z).

Definition singleton_of (g : DiGraph) (n : node) : DiGraph :=
  if has_edge g n n then mkDiGraph [n] [(n, n)] else mkDiGraph [n] [].

(** The end point that the isolation step of [remove_graph_edge] splits
    off: the source when it is left without any edge, otherwise the
    destination when it is, otherwise none. *)
Definition taken_end_point (dag : DiGraph) (src dst : node) : option node :=
  if is_isolate dag src then Some src
  else if is_isolate dag dst then Some dst
  else None.

(** Edge removal splitting off every isolated end point: whichever end
    of the removed edge is left isolated, a lone self-loop not counted,
    ends in a one-node graph that keeps the self-loop. *)
Definition splits_isolated_end_points (dags : Dags) (src dst : node)
  : Prop :=
  ∀ i dag0 dag n,
    src ≠ dst →
    dag_with_edge dags src dst = Some (i, dag0) →
    remove_edge dag0 src dst = Some dag →
    n = src ∨ n = dst →
    isolated_but_for_self_loop dag n = true →
    ∃ dags', remove_graph_edge dags src dst = Some dags' ∧
             singleton_of dag n ∈ dags'.

(** The edges on a directed cycle: those inside a strongly connected
    component of more than one node, and the self-loops. *)
Definition cycle_edges (g : DiGraph) : list edge :=
  filter (fun e => e.1 ∈ reach g e.2) (g_edges g).

(** An order names an edge when it lists both its ends. *)
Definition names_edge (order : list node) (e : edge) : Prop :=
  e.1 ∈ order ∧ e.2 ∈ order.

(** An order computation that reports the cycles: its result names
    every edge on a cycle. *)
Definition reports_cycle_edges (g : DiGraph) : Prop :=
  ∃ order g', calc_exec_order g = Some (order, g') ∧
              ∀ e, e ∈ cycle_edges g → names_edge order e.

(** The nodes of all the graphs of the list, graph by graph, and the
    edges that some graph of the list holds. *)
Definition all_nodes (dags : Dags) : list node := dags ≫= g_nodes.

Definition held_edge (dags : Dags) (u v : node) : Prop :=
  ∃ g, g ∈ dags ∧ edge_rel g u v.

(** A list of graphs that partitions its nodes: no node twice, in one
    graph or in two, every graph a [DiGraph] value, none empty. *)
Definition store_ok (dags : Dags) : Prop :=
  NoDup (all_nodes dags) ∧ Forall wf dags ∧
  Forall (fun g => g_nodes g ≠ []) dags.

#[global] Instance store_ok_dec dags : Decision (store_ok dags).
Proof. unfold store_ok. apply _. Defined.

(** Every name that is alive is held by exactly one graph, and no graph
    is empty. *)
Definition partition_invariant (dags : Dags) (alive : list string) : Prop :=
  (∀ n, n ∈ alive → length (owners dags (NStr n)) = 1) ∧
  (∀ g, g ∈ dags → g_nodes g ≠ []).

End DirectedGraphHandler.

(** ** [ExecutionInstance] *)

Module ExecutionInstance.

(** What a call does outside the instance: the Qt signals it connects,
    disconnects and emits, the calls into the project item, and the
    messages to the user. *)
Inductive event : Type :=
  | SignalConnected
  | SignalDisconnected
  | ItemExecute (item : option string)
  | ItemStopExecution (item : option string)
  | Msg (text : string)
  | GraphExecutionFinished (code : Z).

Record ExecutionInstance : Type := mkInstance {
  execution_list : list string;
  running_item : option string;
  dc_refs : list string;
  dc_files : list string;
  ds_refs : gmap string (list string);
  di_data : gmap string string;
  tool_output_files : list string
}.

Definition init (execution_list : list string) : ExecutionInstance :=
  mkInstance execution_list None [] [] ∅ ∅ [].

Definition set_running (inst : ExecutionInstance) (item : string)
  (rest : list string) : ExecutionInstance :=
  mkInstance rest (Some item) (dc_refs inst) (dc_files inst)
    (ds_refs inst) (di_data inst) (tool_output_files inst).

Definition execute_project_item (inst : ExecutionInstance) : list event :=
  [SignalConnected; ItemExecute (running_item inst)].

(** [list.pop(0)] raises [IndexError] on the empty list, which
    [start_execution] lets through: [None]. *)
Definition start_execution (inst : ExecutionInstance)
  : option (ExecutionInstance * list event) :=
  match execution_list inst with
  | [] => None
  | item :: rest =>
      let inst' := set_running inst item rest in
      Some (inst', execute_project_item inst')
  end.

(** The slot of the completion signal.  The signal carries a C [int];
    the codes in use are 0, -1 and -2. *)
Definition item_execution_finished (inst : ExecutionInstance)
  (item_finish_state : Z) : ExecutionInstance * list event :=
  if decide (item_finish_state = (-1)%Z) then
    (inst, [SignalDisconnected; GraphExecutionFinished (-1)])
  else if decide (item_finish_state = (-2)%Z) then
    (inst, [SignalDisconnected; GraphExecutionFinished (-2)])
  else
    match execution_list inst with
    | [] => (inst, [SignalDisconnected; GraphExecutionFinished 0])
    | item :: rest =>
        let inst' := set_running inst item rest in
        (inst', SignalDisconnected :: execute_project_item inst')
    end.

(** Python truth of [self.running_item]: [None] and the empty string are
    false. *)
Definition truthy (item : option string) : bool :=
  match item with
  | None => false
  | Some name => negb (bool_decide (name = ""))
  end.

Definition stop (inst : ExecutionInstance) : ExecutionInstance * list event :=
  if negb (truthy (running_item inst)) then
    (inst, [Msg "No running item"; GraphExecutionFinished (-2)])
  else (inst, [ItemStopExecution (running_item inst)]).

(** The run states of the specification, read off the events of a
    call: the code carried by [graph_execution_finished_signal] ends the
    run (0 completed, -1 failed, -2 stopped by the user), and an item
    that is started keeps it running. *)
Inductive ExecutionState : Type :=
  | NOT_STARTED | RUNNING | COMPLETED | FAILED | USER_STOPPED.

Definition finished_state (code : Z) : ExecutionState :=
  if decide (code = (-1)%Z) then FAILED
  else if decide (code = (-2)%Z) then USER_STOPPED
  else COMPLETED.

Fixpoint state_after (before : ExecutionState) (events : list event)
  : ExecutionState :=
  match events with
  | [] => before
  | GraphExecutionFinished code :: events' =>
      state_after (finished_state code) events'
  | ItemExecute _ :: events' => state_after RUNNING events'
  | _ :: events' => state_after before events'
  end.

(** The items whose [execute] a call invokes. *)
Definition started (events : list event) : list (option string) :=
  omap (fun e => match e with ItemExecute item => Some item | _ => None end)
    events.

(** Whether [item_execution_finished] is connected to the completion
    signal after the events of a call: [connect] in
    [execute_project_item], [disconnect] on entry of the slot. *)
Definition connected_after (before : bool) (events : list event) : bool :=
  foldl (fun c e => match e with
                    | SignalConnected => true
                    | SignalDisconnected => false
                    | _ => c
                    end) before events.

(** The completion signals that the items emit one after the other: each
    reaches [item_execution_finished] when the slot is connected, and
    nothing otherwise. *)
Fixpoint signals_run (inst : ExecutionInstance) (connected : bool)
  (signals : list Z) : ExecutionInstance * list event :=
  match signals with
  | [] => (inst, [])
  | signal :: signals' =>
      if connected then
        let step := item_execution_finished inst signal in
        let rest := signals_run step.1 (connected_after connected step.2)
                      signals' in
        (rest.1, step.2 ++ rest.2)
      else signals_run inst false signals'
  end.

(** The codes that [graph_execution_finished_signal] carries in the
    events of a call. *)
Definition finish_codes (events : list event) : list Z :=
  omap (fun e => match e with
                 | GraphExecutionFinished code => Some code
                 | _ => None
                 end) events.

(** [stop] as a no-op on an instance without a running item: the run
    state after the call is the one before it. *)
Definition stop_keeps_state (inst : ExecutionInstance) : Prop :=
  truthy (running_item inst) = false →
  ∀ before, state_after before (stop inst).2 = before.

Definition add_ds_ref (inst : ExecutionInstance) (dialect ref : string)
  : ExecutionInstance :=
  let refs :=
    match ds_refs inst !! dialect with
    | Some l => l ++ [ref]
    | None => [ref]
    end in
  mkInstance (execution_list inst) (running_item inst) (dc_refs inst)
    (dc_files inst) (<[dialect := refs]> (ds_refs inst)) (di_data inst)
    (tool_output_files inst).

Definition add_di_data (inst : ExecutionInstance) (di_name data : string)
  : ExecutionInstance :=
  mkInstance (execution_list inst) (running_item inst) (dc_refs inst)
    (dc_files inst) (ds_refs inst) (<[di_name := data]> (di_data inst))
    (tool_output_files inst).

Definition append_dc_refs (inst : ExecutionInstance) (refs : list string)
  : ExecutionInstance :=
  mkInstance (execution_list inst) (running_item inst) (dc_refs inst ++ refs)
    (dc_files inst) (ds_refs inst) (di_data inst) (tool_output_files inst).

Definition append_dc_files (inst : ExecutionInstance) (files : list string)
  : ExecutionInstance :=
  mkInstance (execution_list inst) (running_item inst) (dc_refs inst)
    (dc_files inst ++ files) (ds_refs inst) (di_data inst)
    (tool_output_files inst).

Definition append_tool_output_file (inst : ExecutionInstance)
  (filepath : string) : ExecutionInstance :=
  mkInstance (execution_list inst) (running_item inst) (dc_refs inst)
    (dc_files inst) (ds_refs inst) (di_data inst)
    (tool_output_files inst ++ [filepath]).

(** The dialects whose references [find_file] walks. *)
Definition known_dialect (dialect : string) : Prop :=
  dialect ∈ ["sqlite"; "mysql"; "mssql"; "postgresql"; "oracle"].

Section Lookup.

(** The two standard-library calls of the lookups depend on the
    platform: [split_tail p] is [os.path.split(p)[1]], and
    [fnmatch name pat] is [fnmatch.fnmatch(name, pat)], so that
    [fnmatch.filter(names, pat)] keeps the names it accepts. *)
Variable split_tail : string -> string.
Variable fnmatch : string -> string -> bool.

Definition fnmatch_filter (names : list string) (pat : string)
  : list string :=
  filter (fun name => fnmatch name pat = true) names.

(** One [for] loop of [find_file]: the first path of [paths] whose file
    name is [filename]. *)
Fixpoint first_named (paths : list string) (filename : string)
  : option string :=
  match paths with
  | [] => None
  | p :: paths' =>
      if decide (split_tail p = filename) then Some p
      else first_named paths' filename
  end.

(** A loop over [self.ds_refs[dialect]]; a missing key is the
    [KeyError] that [find_file] passes over. *)
Definition first_in_dialect (inst : ExecutionInstance)
  (dialect filename : string) : option string :=
  match ds_refs inst !! dialect with
  | Some refs => first_named refs filename
  | None => None
  end.

Definition find_file (inst : ExecutionInstance) (filename : string)
  : option string :=
  match first_in_dialect inst "sqlite" filename with
  | Some sqlite_ref => Some sqlite_ref
  | None =>
  match first_in_dialect inst "mysql" filename with
  | Some mysql_url => Some mysql_url
  | None =>
  match first_in_dialect inst "mssql" filename with
  | Some mssql_url => Some mssql_url
  | None =>
  match first_in_dialect inst "postgresql" filename with
  | Some postgresql_url => Some postgresql_url
  | None =>
  match first_in_dialect inst "oracle" filename with
  | Some oracle_url => Some oracle_url
  | None =>
  match first_named (dc_refs inst) filename with
  | Some dc_ref => Some dc_ref
  | None =>
  match first_named (dc_files inst) filename with
  | Some dc_file => Some dc_file
  | None => first_named (tool_output_files inst) filename
  end end end end end end end.

Definition has_char (c : ascii) (s : string) : bool :=
  bool_decide (c ∈ String.list_ascii_of_string s).

Definition has_wildcard (pattern : string) : bool :=
  has_char "*"%char pattern || has_char "?"%char pattern.

Definition find_optional_files (inst : ExecutionInstance) (pattern : string)
  : list string :=
  if has_wildcard pattern then
    let ds_matches :=
      match ds_refs inst !! "sqlite" with
      | Some refs => fnmatch_filter refs pattern
      | None => []
      end in
    let dc_ref_matches := fnmatch_filter (dc_refs inst) pattern in
    let dc_file_matches := fnmatch_filter (dc_files inst) pattern in
    let tool_matches := fnmatch_filter (tool_output_files inst) pattern in
    ds_matches ++ dc_ref_matches ++ dc_file_matches ++ tool_matches
  else
    match find_file inst pattern with
    | Some found => [found]
    | None => []
    end.

(** The lists that [find_file] walks, in its order, and every resource
    of the instance, the references of all dialects included. *)
Definition refs_of (inst : ExecutionInstance) (dialect : string)
  : list string :=
  default [] (ds_refs inst !! dialect).

Definition searched (inst : ExecutionInstance) : list string :=
  refs_of inst "sqlite" ++ refs_of inst "mysql" ++ refs_of inst "mssql" ++
  refs_of inst "postgresql" ++ refs_of inst "oracle" ++
  dc_refs inst ++ dc_files inst ++ tool_output_files inst.

Definition all_resources (inst : ExecutionInstance) : list string :=
  (map_to_list (ds_refs inst) ≫= snd) ++
  dc_refs inst ++ dc_files inst ++ tool_output_files inst.

(** A wildcard lookup over every kind of resource: each resource that
    matches the pattern is among the results. *)
Definition finds_every_match (inst : ExecutionInstance) (pattern : string)
  : Prop :=
  has_wildcard pattern = true →
  ∀ r, r ∈ all_resources inst → fnmatch r pattern = true →
       r ∈ find_optional_files inst pattern.

End Lookup.

(** The POSIX instances: the tail after the last slash, and shell
    patterns made of literal characters, [*] and [?].  The character
    classes of [fnmatch] are left out, so that [posix_fnmatch] is
    [fnmatch.fnmatch] on the patterns without a bracket only. *)
Fixpoint posix_tail_chars (p : list ascii) : list ascii :=
  match p with
  | [] => []
  | c :: p' =>
      if bool_decide ("/"%char ∈ p) then posix_tail_chars p' else p
  end.

Definition posix_split_tail (p : string) : string :=
  String.string_of_list_ascii (posix_tail_chars (String.list_ascii_of_string p)).

Fixpoint glob_chars (pat name : list ascii) {struct pat} : bool :=
  match pat with
  | [] => match name with [] => true | _ => false end
  | c :: pat' =>
      if decide (c = "*"%char) then
        (fix star (name : list ascii) : bool :=
           glob_chars pat' name ||
           match name with
           | [] => false
           | _ :: name' => star name'
           end) name
      else
        match name with
        | [] => false
        | d :: name' =>
            (bool_decide (c = "?"%char) || bool_decide (c = d))
            && glob_chars pat' name'
        end
  end.

Definition posix_fnmatch (name pat : string) : bool :=
  glob_chars (String.list_ascii_of_string pat) (String.list_ascii_of_string name).

End ExecutionInstance.

(** ** Reachability: [Nx.reach] computes the transitive closure *)

Module NxFacts.
Import Nx.

Lemma elem_of_successors g u v : v ∈ successors g u ↔ edge_rel g u v.
Proof.
  unfold successors, edge_rel. rewrite list_elem_of_fmap. split.
  - intros [[a b] [-> [Ha Hin]%list_elem_of_filter]]. simpl in *. by subst.
  - intros H. exists (u, v). split; [done|].
    apply list_elem_of_filter. by split.
Qed.

Lemma elem_of_predecessors g u v : u ∈ predecessors g v ↔ edge_rel g u v.
Proof.
  unfold predecessors, edge_rel. rewrite list_elem_of_fmap. split.
  - intros [[a b] [-> [Ha Hin]%list_elem_of_filter]]. simpl in *. by subst.
  - intros H. exists (u, v). split; [done|].
    apply list_elem_of_filter. by split.
Qed.

Lemma successor_is_target g u v : v ∈ successors g u → v ∈ (g_edges g).*2.
Proof.
  intros H%elem_of_successors. apply list_elem_of_fmap. by exists (u, v).
Qed.

Section Layers.
Variable g : DiGraph.

Lemma closed_tc R x y : closed g R → x ∈ R → tc (edge_rel g) x y → y ∈ R.
Proof. intros HR Hx Hxy. induction Hxy; eauto. Qed.

Lemma elem_of_new_layer seen frontier y :
  y ∈ remove_dups (list_difference (frontier ≫= successors g) seen)
  ↔ (∃ x, x ∈ frontier ∧ edge_rel g x y) ∧ y ∉ seen.
Proof.
  rewrite elem_of_remove_dups, list_elem_of_difference, list_elem_of_bind.
  setoid_rewrite elem_of_successors.
  split; intros [[x [? ?]] ?]; eauto.
Qed.

Lemma layers_extends fuel seen frontier x :
  x ∈ seen → x ∈ layers g fuel seen frontier.
Proof.
  revert seen frontier.
  induction fuel as [|fuel IH]; intros seen frontier Hx; simpl.
  - done.
  - destruct (remove_dups _) as [|n new] eqn:Hnew; [done|].
    apply IH. apply elem_of_app. by left.
Qed.

(** Everything [layers] returns is reachable from [s] when the seen
    nodes are. *)
Lemma layers_sound s fuel seen frontier :
  (∀ x, x ∈ seen → tc (edge_rel g) s x) →
  (∀ x, x ∈ frontier → x ∈ seen) →
  ∀ x, x ∈ layers g fuel seen frontier → tc (edge_rel g) s x.
Proof.
  revert seen frontier.
  induction fuel as [|fuel IH]; intros seen frontier Hseen Hfr x; simpl;
    [by auto|].
  destruct (remove_dups _) as [|n new] eqn:Hnew; [by auto|].
  apply IH.
  - intros y [Hy|Hy]%elem_of_app; [by auto|].
    rewrite <- Hnew in Hy.
    apply elem_of_new_layer in Hy as [[z [Hz Hzy]] _].
    eapply tc_r; eauto.
  - intros y Hy. apply elem_of_app. by right.
Qed.

(** With enough fuel the result is closed under the edges: the fuel
    left and the nodes seen together exceed the number of edges, and
    every node seen is the target of an edge. *)
Lemma layers_closed fuel seen frontier :
  (∀ x, x ∈ frontier → x ∈ seen) →
  (∀ x y, x ∈ seen → x ∉ frontier → edge_rel g x y → y ∈ seen) →
  NoDup seen →
  (∀ x, x ∈ seen → x ∈ (g_edges g).*2) →
  length (g_edges g) < fuel + length seen →
  closed g (layers g fuel seen frontier).
Proof.
  revert seen frontier.
  induction fuel as [|fuel IH]; intros seen frontier Hfr Hold Hnd Htgt Hfuel.
  - exfalso. apply (NoDup_submseteq _ _ Hnd) in Htgt.
    apply submseteq_length in Htgt. rewrite length_fmap in Htgt.
    simpl in Hfuel. unfold edge in *. lia.
  - simpl.
    destruct (remove_dups _) as [|n new] eqn:Hnew.
    + intros x y Hx Hxy.
      destruct (decide (x ∈ frontier)) as [Hin|Hout]; [|by eauto].
      destruct (decide (y ∈ seen)) as [|Hy]; [done|].
      assert (y ∈ remove_dups
                (list_difference (frontier ≫= successors g) seen)) as H.
      { apply elem_of_new_layer. eauto. }
      rewrite Hnew in H. by apply elem_of_nil in H.
    + apply IH.
      * intros x Hx. apply elem_of_app. by right.
      * intros x y [Hx|Hx]%elem_of_app Hnot Hxy; [|done].
        apply elem_of_app.
        destruct (decide (y ∈ seen)) as [|Hy]; [by left|].
        destruct (decide (x ∈ frontier)) as [Hin|Hout]; [|left; by eauto].
        right. rewrite <- Hnew. apply elem_of_new_layer. eauto.
      * apply NoDup_app. split_and!; [done| |].
        -- intros x Hx Hx'. rewrite <- Hnew in Hx'.
           by apply elem_of_new_layer in Hx' as [_ ?].
        -- rewrite <- Hnew. apply NoDup_remove_dups.
      * intros x [Hx|Hx]%elem_of_app; [by auto|].
        rewrite <- Hnew in Hx.
        apply elem_of_new_layer in Hx as [[z [_ Hzx]] _].
        apply list_elem_of_fmap. by exists (z, x).
      * rewrite length_app. simpl. simpl in Hfuel. lia.
Qed.

Lemma reach_closed s : closed g (reach g s).
Proof.
  unfold reach. apply layers_closed.
  - done.
  - by intros x y Hx Hnot.
  - apply NoDup_remove_dups.
  - intros x Hx. apply (proj1 (elem_of_remove_dups _ _)) in Hx.
    exact (successor_is_target g s x Hx).
  - simpl. lia.
Qed.

(** [reach g s] is exactly the set of nodes that [s] reaches along one
    edge or more. *)
Lemma elem_of_reach s x : x ∈ reach g s ↔ tc (edge_rel g) s x.
Proof.
  split.
  - apply layers_sound; [|done].
    intros y Hy. apply (proj1 (elem_of_remove_dups _ _)) in Hy.
    apply tc_once. by apply elem_of_successors.
  - intros H. destruct H as [s x H|s y x H Hyx].
    + apply layers_extends, elem_of_remove_dups. by apply elem_of_successors.
    + apply (closed_tc _ y); [apply reach_closed| |done].
      apply layers_extends, elem_of_remove_dups. by apply elem_of_successors.
Qed.

End Layers.

(** *** The fuel of [bfs_edges] is enough *)

Lemma visit_children_spec parent children visited es visited' :
  visit_children parent children visited = (es, visited') →
  visited' = visited ++ es.*2 ∧ NoDup es.*2 ∧
  ∀ c, c ∈ es.*2 → c ∈ children ∧ c ∉ visited.
Proof.
  revert visited es visited'.
  induction children as [|c cs IH]; intros visited es visited'; simpl.
  - intros [= <- <-]. rewrite app_nil_r. split_and!; [done|constructor|].
    intros c Hc. by apply elem_of_nil in Hc.
  - case_bool_decide as Hc.
    + intros H. apply IH in H as (-> & Hnd & Hin). split_and!; [done..|].
      intros x Hx. destruct (Hin x Hx). split; [|done].
      by apply list_elem_of_further.
    + destruct (visit_children parent cs (visited ++ [c])) as [es0 v0] eqn:H0.
      intros [= <- <-]. apply IH in H0 as (-> & Hnd & Hin). simpl.
      split_and!.
      * by rewrite <- app_assoc.
      * apply NoDup_cons. split; [|done].
        intros Hx. destruct (Hin c Hx) as [_ Hn]. apply Hn.
        apply elem_of_app. right. apply list_elem_of_here.
      * intros x [->|Hx]%elem_of_cons.
        -- split; [apply list_elem_of_here|done].
        -- destruct (Hin x Hx) as [H1 H2]. split.
           ++ by apply list_elem_of_further.
           ++ intros Hv. apply H2. apply elem_of_app. by left.
Qed.

Lemma elem_of_unvisited g visited x :
  x ∈ unvisited g visited ↔ x ∈ (g_edges g).*2 ∧ x ∉ visited.
Proof.
  unfold unvisited. by rewrite elem_of_remove_dups, list_elem_of_difference.
Qed.

Lemma unvisited_shrinks g visited new :
  NoDup new →
  (∀ x, x ∈ new → x ∈ (g_edges g).*2 ∧ x ∉ visited) →
  length new + length (unvisited g (visited ++ new))
  = length (unvisited g visited).
Proof.
  intros Hnd Hnew. rewrite <- length_app. apply Permutation_length.
  apply NoDup_Permutation.
  - apply NoDup_app. split_and!; [done| |apply NoDup_remove_dups].
    intros x Hx [_ Hn]%elem_of_unvisited. apply Hn, elem_of_app. by right.
  - apply NoDup_remove_dups.
  - intros x. rewrite elem_of_app, !elem_of_unvisited, elem_of_app. split.
    + intros [Hx|[Ht Hn]]; [by apply Hnew|]. split; [done|]. tauto.
    + intros [Ht Hn]. destruct (decide (x ∈ new)); [by left|].
      right. split; [done|]. tauto.
Qed.

(** Once the fuel covers the queue and the targets still to visit, more
    fuel gives the same edges. *)
Lemma bfs_loop_fuel g fuel1 : ∀ fuel2 queue visited,
  length queue + length (unvisited g visited) ≤ fuel1 →
  length queue + length (unvisited g visited) ≤ fuel2 →
  bfs_loop g fuel1 queue visited = bfs_loop g fuel2 queue visited.
Proof.
  induction fuel1 as [|fuel1 IH]; intros fuel2 queue visited H1 H2.
  - destruct queue; simpl in H1; [|lia]. by destruct fuel2.
  - destruct queue as [|parent queue]; [by destruct fuel2|].
    destruct fuel2 as [|fuel2]; simpl in H2; [lia|]. simpl in H1. simpl.
    destruct (visit_children parent (successors g parent) visited)
      as [es visited'] eqn:Hv.
    apply visit_children_spec in Hv as (-> & Hnd & Hin).
    assert (length es.*2 + length (unvisited g (visited ++ es.*2))
            = length (unvisited g visited)) as Hm.
    { apply unvisited_shrinks; [done|]. intros x Hx.
      destruct (Hin x Hx) as [Hc Hn]. split; [|done].
      by eapply successor_is_target. }
    f_equal. apply IH; rewrite length_app; lia.
Qed.

Lemma bfs_edges_fuel g source k :
  bfs_loop g (S (length (g_edges g)) + k) [source] [source]
  = bfs_edges g source.
Proof.
  unfold bfs_edges.
  assert (length (unvisited g [source]) ≤ length (g_edges g).*2) as H.
  { apply submseteq_length.
    apply NoDup_submseteq; [apply NoDup_remove_dups|].
    by intros x [Hx _]%elem_of_unvisited. }
  rewrite length_fmap in H. unfold edge in *.
  apply bfs_loop_fuel; simpl; lia.
Qed.

Lemma edge_rel_reverse g u v : edge_rel (reverse g) u v ↔ edge_rel g v u.
Proof.
  unfold edge_rel, reverse. simpl. rewrite list_elem_of_fmap. split.
  - intros [[a b] [[= -> ->] H]]. done.
  - intros H. by exists (v, u).
Qed.

Lemma tc_reverse g u v :
  tc (edge_rel (reverse g)) u v ↔ tc (edge_rel g) v u.
Proof.
  split.
  - induction 1 as [x y H|x y z H _ IH].
    + apply tc_once. by apply edge_rel_reverse.
    + eapply tc_r; [done|]. by apply edge_rel_reverse.
  - induction 1 as [x y H|x y z H _ IH].
    + apply tc_once. by apply edge_rel_reverse.
    + eapply tc_r; [done|]. by apply edge_rel_reverse.
Qed.

Lemma elem_of_descendants g s l x :
  descendants g s = Some l → x ∈ l ↔ tc (edge_rel g) s x ∧ x ≠ s.
Proof.
  unfold descendants. destruct (has_node g s); [|done]. intros [= <-].
  rewrite list_elem_of_filter, elem_of_reach. tauto.
Qed.

Lemma elem_of_ancestors g s l x :
  ancestors g s = Some l → x ∈ l ↔ tc (edge_rel g) x s ∧ x ≠ s.
Proof.
  unfold ancestors. intros H. rewrite (elem_of_descendants _ _ _ _ H).
  by rewrite tc_reverse.
Qed.

Lemma has_path_true g u v :
  has_path g u v = Some true → rtc (edge_rel g) u v.
Proof.
  unfold has_path. destruct (_ && _); [|done]. intros [= H].
  apply orb_true_iff in H as [H|H].
  - apply bool_decide_eq_true in H as ->. done.
  - apply bool_decide_eq_true, elem_of_reach in H. by apply tc_rtc.
Qed.

Lemma forallb_false_iff {A} (f : A → bool) (l : list A) :
  forallb f l = false ↔ ∃ x, x ∈ l ∧ f x = false.
Proof.
  induction l as [|a l IH]; simpl.
  - split; [done|]. intros [x [Hx _]]. by apply elem_of_nil in Hx.
  - rewrite andb_false_iff, IH. split.
    + intros [H|[x [Hx H]]]; [exists a|exists x]; split; try done;
        apply elem_of_cons; auto.
    + intros [x [[->|Hx]%elem_of_cons H]]; eauto.
Qed.

(** A graph with a node on a directed cycle is not acyclic, and
    conversely. *)
Lemma is_directed_acyclic_graph_false g :
  is_directed_acyclic_graph g = false
  ↔ ∃ n, n ∈ g_nodes g ∧ tc (edge_rel g) n n.
Proof.
  unfold is_directed_acyclic_graph. rewrite forallb_false_iff.
  split; intros [n [Hn H]]; exists n; split; try done.
  - apply negb_false_iff, bool_decide_eq_true in H. by apply elem_of_reach.
  - apply negb_false_iff, bool_decide_eq_true. by apply elem_of_reach.
Qed.

End NxFacts.

(** ** The graph list under the edit operations *)

Module GraphStoreFacts.
Import Nx NxFacts DirectedGraphHandler.

Lemma probe_true dag b x :
  probe dag b x = Some true →
  rtc (edge_rel dag) x b ∨ rtc (edge_rel dag) b x.
Proof.
  unfold probe. destruct (has_path dag x b) as [[|]|] eqn:H; simpl; [| |done].
  - intros _. left. by apply has_path_true.
  - intros H'. right. by apply has_path_true.
Qed.

Lemma probe_any_true dag b xs :
  probe_any dag b xs = Some true →
  ∃ x, x ∈ xs ∧ (rtc (edge_rel dag) x b ∨ rtc (edge_rel dag) b x).
Proof.
  induction xs as [|x xs IH]; simpl; [done|].
  destruct (probe dag b x) as [[|]|] eqn:H; simpl; [| |done].
  - intros _. exists x. split; [apply elem_of_cons; auto|].
    by apply probe_true.
  - intros [y [Hy Hp]]%IH. exists y. split; [apply elem_of_cons; auto|done].
Qed.

Lemma rtc_weak g x y : rtc (edge_rel g) x y → weakly_connected g x y.
Proof. apply rtc_rtsc_rl. Qed.

Lemma weakly_connected_sym g x y :
  weakly_connected g x y → weakly_connected g y x.
Proof. unfold weakly_connected. by intros ?. Qed.

Lemma weakly_connected_trans g x y z :
  weakly_connected g x y → weakly_connected g y z → weakly_connected g x z.
Proof. unfold weakly_connected. intros ? ?. by etrans. Qed.

(** [nodes_connected] never answers yes for two nodes that are not
    connected: a yes comes with an undirected path from [a] to [b]. *)
Lemma nodes_connected_sound dag a b :
  nodes_connected dag a b = Some true → weakly_connected dag a b.
Proof.
  unfold nodes_connected.
  destruct (ancestors dag a) as [anc|] eqn:Hanc; simpl; [|done].
  destruct (descendants dag a) as [des|] eqn:Hdes; simpl; [|done].
  assert (∀ x, x ∈ anc ∨ x ∈ des → weakly_connected dag a x) as Hax.
  { intros x [Hx|Hx].
    - apply (elem_of_ancestors _ _ _ _ Hanc) in Hx as [Hx _].
      by apply weakly_connected_sym, rtc_weak, tc_rtc.
    - apply (elem_of_descendants _ _ _ _ Hdes) in Hx as [Hx _].
      by apply rtc_weak, tc_rtc. }
  assert (∀ xs, (∀ x, x ∈ xs → weakly_connected dag a x) →
                probe_any dag b xs = Some true →
                weakly_connected dag a b) as Hany.
  { intros xs Hxs [x [Hx [Hp|Hp]]]%probe_any_true;
      (eapply weakly_connected_trans; [by apply Hxs|]).
    - by apply rtc_weak.
    - by apply weakly_connected_sym, rtc_weak. }
  destruct (probe_any dag b anc) as [[|]|] eqn:Hpa; simpl; [| |done].
  - intros _. apply (Hany anc); auto.
  - intros H. apply (Hany des); auto.
Qed.

(** C1 (the code departs from it).  Partition invariant: after a run of
    add_node, add_edge, remove_edge and remove_node with fresh names
    added, every surviving node is in exactly one graph and no graph is
    empty.  Two runs break it with their last step, a
    [remove_graph_edge] that takes its split branch on a list where the
    invariant holds: after the first the node "w" is in no graph, after
    the second the node "y" is in two. *)
Theorem partition_invariant_broken :
  let lost :=
    [AddNode "s"; AddNode "t"; AddNode "d"; AddNode "w"; AddNode "e";
     AddEdge "s" "t"; AddEdge "s" "d"; AddEdge "w" "d"; AddEdge "t" "e"] in
  let twice :=
    [AddNode "s"; AddNode "t"; AddNode "x"; AddNode "w"; AddNode "y";
     AddEdge "s" "t"; AddEdge "x" "s"; AddEdge "x" "y"; AddEdge "w" "t";
     AddEdge "w" "y"] in
  let last := RemoveEdge "s" "t" in
  (fresh_adds (lost ++ [last]) [] = true ∧
   "w" ∈ surviving (lost ++ [last]) [] ∧
   ∃ dags0 dags,
     run [] lost = Some dags0 ∧
     partition_invariant dags0 (surviving lost []) ∧
     apply_op dags0 last = Some dags ∧
     length (owners dags (NStr "w")) = 0 ∧
     ¬ partition_invariant dags (surviving (lost ++ [last]) [])) ∧
  (fresh_adds (twice ++ [last]) [] = true ∧
   "y" ∈ surviving (twice ++ [last]) [] ∧
   ∃ dags0 dags,
     run [] twice = Some dags0 ∧
     partition_invariant dags0 (surviving twice []) ∧
     apply_op dags0 last = Some dags ∧
     length (owners dags (NStr "y")) = 2 ∧
     ¬ partition_invariant dags (surviving (twice ++ [last]) [])).
Proof.
  split.
  - split; [reflexivity|]. split; [vm_compute; in_list|].
    eexists. eexists. split; [vm_compute; reflexivity|].
    split; [|split; [vm_compute; reflexivity|split; [reflexivity|]]].
    + split.
      * intros n Hn. vm_compute in Hn.
        repeat (apply elem_of_cons in Hn as [->|Hn]; [reflexivity|]).
        by apply elem_of_nil in Hn.
      * intros g Hg.
        repeat (apply elem_of_cons in Hg as [->|Hg]; [done|]).
        by apply elem_of_nil in Hg.
    + intros [H _]. specialize (H "w"). vm_compute in H.
      assert ("w" ∈ ["s"; "t"; "d"; "w"; "e"]) as Hin by in_list.
      by specialize (H Hin).
  - split; [reflexivity|]. split; [vm_compute; in_list|].
    eexists. eexists. split; [vm_compute; reflexivity|].
    split; [|split; [vm_compute; reflexivity|split; [reflexivity|]]].
    + split.
      * intros n Hn. vm_compute in Hn.
        repeat (apply elem_of_cons in Hn as [->|Hn]; [reflexivity|]).
        by apply elem_of_nil in Hn.
      * intros g Hg.
        repeat (apply elem_of_cons in Hg as [->|Hg]; [done|]).
        by apply elem_of_nil in Hg.
    + intros [H _]. specialize (H "y"). vm_compute in H.
      assert ("y" ∈ ["s"; "t"; "x"; "w"; "y"]) as Hin by in_list.
      by specialize (H Hin).
Qed.

(** C2 (the code departs from it).  [nodes_connected] is to answer
    whether two distinct nodes are connected when the direction of the
    edges is ignored.  In the graph a -> x <- y -> b the nodes a and b
    are so connected, and the answer is no. *)
Theorem nodes_connected_misses_undirected_path :
  let a := NStr "a" in let b := NStr "b" in
  let x := NStr "x" in let y := NStr "y" in
  let g := mkDiGraph [a; x; y; b] [(a, x); (y, x); (y, b)] in
  a ≠ b ∧ wf g ∧ weakly_connected g a b ∧ nodes_connected g a b = Some false.
Proof.
  intros a b x y g. split; [done|]. split; [|split].
  - apply (bool_decide_unpack _). by vm_compute.
  - assert (∀ u v, (u, v) ∈ g_edges g → edge_rel g u v) as E by done.
    apply (weakly_connected_trans _ _ x); [|apply (weakly_connected_trans _ _ y)].
    + apply rtsc_lr, E. simpl. in_list.
    + apply rtsc_rl, E. simpl. in_list.
    + apply rtsc_lr, E. simpl. in_list.
  - reflexivity.
Qed.

(** *** Edge removal and isolated end points *)

Lemma filter_all {A} (P : A → Prop) `{!∀ x, Decision (P x)} (l : list A) :
  (∀ x, x ∈ l → P x) → filter P l = l.
Proof.
  induction l as [|a l IH]; intros Hall; [done|].
  rewrite filter_cons_True by (apply Hall, elem_of_cons; auto).
  f_equal. apply IH. intros x Hx. apply Hall, elem_of_cons. auto.
Qed.

Lemma remove_edge_nodes g u v g' :
  remove_edge g u v = Some g' → g_nodes g' = g_nodes g.
Proof. unfold remove_edge. destruct (has_edge g u v); by intros [= <-]. Qed.

(** Editing the graph that holds a node, keeping the node in it, leaves
    it the first graph that holds the node. *)
Lemma dag_with_node_insert dags n i g0 g :
  dag_with_node dags n = Some (i, g0) →
  has_node g n = true →
  dag_with_node (<[i := g]> dags) n = Some (i, g).
Proof.
  unfold dag_with_node. intros H Hg.
  apply list_find_Some in H as (Hi & _ & Hbefore).
  apply list_find_insert_Some. right. left.
  split_and!; [done|done| |done|done].
  by eapply lookup_lt_Some.
Qed.

Lemma node_is_isolated_insert dags n i g0 g :
  dag_with_node dags n = Some (i, g0) →
  has_node g n = true →
  node_is_isolated (<[i := g]> dags) n false = Some (is_isolate g n).
Proof.
  intros H Hg. unfold node_is_isolated.
  by rewrite (dag_with_node_insert _ _ _ _ _ H Hg).
Qed.

Lemma self_loop_degree g n : has_edge g n n = true → 2 ≤ degree g n.
Proof.
  unfold has_edge, degree, in_degree, out_degree. intros H.
  apply bool_decide_eq_true in H.
  assert (n ∈ predecessors g n) as Hp by by apply elem_of_predecessors.
  assert (n ∈ successors g n) as Hs by by apply elem_of_successors.
  destruct (predecessors g n); [by apply elem_of_nil in Hp|].
  destruct (successors g n); [by apply elem_of_nil in Hs|].
  simpl. lia.
Qed.

(** The branches of [remove_graph_edge] on an edge that is not a
    self-loop, in the graph that holds both its ends: the isolation test
    is the plain one, degree 0 with a self-loop counted as a connection,
    first on the source and then on the destination; when neither is
    isolated the connectivity test decides between keeping the graph and
    replacing it by the two closures. *)
Lemma remove_graph_edge_cases dags src dst i dag0 dag :
  src ≠ dst →
  dag_with_edge dags src dst = Some (i, dag0) →
  dag_with_node dags src = Some (i, dag0) →
  dag_with_node dags dst = Some (i, dag0) →
  remove_edge dag0 src dst = Some dag →
  remove_graph_edge dags src dst
  = (if bool_decide (degree dag src = 0) then
       Some (<[i := drop_node dag src]> dags ++ [mkDiGraph [src] []])
     else if bool_decide (degree dag dst = 0) then
       Some (<[i := drop_node dag dst]> dags ++ [mkDiGraph [dst] []])
     else
       connected ← nodes_connected dag src dst;
       if (connected : bool) then Some (<[i := dag]> dags)
       else
         descendant_graph ← closure_graph dag src;
         ancestor_graph ← closure_graph dag dst;
         Some (delete i (<[i := dag]> dags)
               ++ [descendant_graph] ++ [ancestor_graph]))
  ∧ ∀ n, has_edge dag n n && bool_decide (degree dag n = 0) = false.
Proof.
  intros Hne Hedge Hsrc Hdst Hrm.
  assert (∀ n, dag_with_node dags n = Some (i, dag0) → has_node dag n = true)
    as Hin.
  { intros n H. unfold dag_with_node in H.
    apply list_find_Some in H as (_ & H & _).
    unfold has_node in *. by rewrite (remove_edge_nodes _ _ _ _ Hrm). }
  pose proof (node_is_isolated_insert _ _ _ _ _ Hsrc (Hin _ Hsrc)) as Is.
  pose proof (node_is_isolated_insert _ _ _ _ _ Hdst (Hin _ Hdst)) as Id.
  split.
  - unfold remove_graph_edge. rewrite Hedge. simpl.
    rewrite Hrm. simpl. rewrite decide_False by done.
    rewrite Is. simpl. unfold is_isolate at 1.
    destruct (bool_decide (degree dag src = 0)).
    { unfold remove_node. rewrite (Hin _ Hsrc). simpl.
      unfold add_dag. by rewrite list_insert_insert_eq. }
    rewrite Id. simpl. unfold is_isolate.
    destruct (bool_decide (degree dag dst = 0)).
    { unfold remove_node. rewrite (Hin _ Hdst). simpl.
      unfold add_dag. by rewrite list_insert_insert_eq. }
    destruct (nodes_connected dag src dst) as [[|]|]; simpl; [done| |done].
    destruct (closure_graph dag src); simpl; [|done].
    destruct (closure_graph dag dst); simpl; [|done].
    unfold add_dag, remove_dag. by rewrite <- app_assoc.
  - intros n. destruct (has_edge dag n n) eqn:Hn; [|done].
    apply self_loop_degree in Hn. simpl. apply bool_decide_eq_false. lia.
Qed.

(** *** End points left with nothing but a self-loop *)

Lemma remove_edge_edges g u v g' :
  remove_edge g u v = Some g' →
  g_edges g' = filter (fun e => e ≠ (u, v)) (g_edges g).
Proof. unfold remove_edge. destruct (has_edge g u v); by intros [= <-]. Qed.

Lemma remove_edge_wf g u v g' : wf g → remove_edge g u v = Some g' → wf g'.
Proof.
  intros (Hn & He & Hends) H. unfold wf.
  rewrite (remove_edge_nodes _ _ _ _ H), (remove_edge_edges _ _ _ _ H).
  split_and!; [done|by apply NoDup_filter|].
  apply Forall_forall. intros e [_ Hin]%list_elem_of_filter.
  by apply (proj1 (Forall_forall _ _) Hends).
Qed.

Lemma wf_edge_nodes g u v :
  wf g → edge_rel g u v → u ∈ g_nodes g ∧ v ∈ g_nodes g.
Proof.
  intros (_ & _ & Hends) H.
  by apply (proj1 (Forall_forall _ _) Hends) in H.
Qed.

Lemma degree_zero_edges g n :
  degree g n = 0 → ∀ u v, edge_rel g u v → u ≠ n ∧ v ≠ n.
Proof.
  unfold degree, in_degree, out_degree. intros Hd u v Huv.
  assert (predecessors g n = []) as Hp by (apply nil_length_inv; lia).
  assert (successors g n = []) as Hs by (apply nil_length_inv; lia).
  split; intros ->.
  - apply elem_of_successors in Huv. rewrite Hs in Huv.
    by apply elem_of_nil in Huv.
  - apply elem_of_predecessors in Huv. rewrite Hp in Huv.
    by apply elem_of_nil in Huv.
Qed.

Lemma singleton_length {A} (l : list A) (a x : A) :
  length l = 1 → a ∈ l → x ∈ l → x = a.
Proof.
  destruct l as [|y [|z l]]; simpl; try lia. intros _ Ha Hx.
  apply list_elem_of_singleton in Ha, Hx. congruence.
Qed.

Lemma lone_loop_degrees g n :
  isolated_but_for_self_loop g n = true → has_edge g n n = true →
  in_degree g n = 1 ∧ out_degree g n = 1.
Proof.
  unfold isolated_but_for_self_loop. intros H Hl. rewrite Hl in H.
  apply bool_decide_eq_true in H.
  apply bool_decide_eq_true in Hl.
  assert (n ∈ predecessors g n) as Hp by by apply elem_of_predecessors.
  assert (n ∈ successors g n) as Hs by by apply elem_of_successors.
  unfold degree, in_degree, out_degree in *.
  destruct (predecessors g n); [by apply elem_of_nil in Hp|].
  destruct (successors g n); [by apply elem_of_nil in Hs|].
  simpl in *. lia.
Qed.

(** Every edge at such an end point is its self-loop. *)
Lemma lone_loop_edges g n :
  isolated_but_for_self_loop g n = true →
  ∀ u v, edge_rel g u v → u = n ∨ v = n → u = n ∧ v = n.
Proof.
  intros H u v Huv Hor.
  destruct (has_edge g n n) eqn:Hl.
  - destruct (lone_loop_degrees g n H Hl) as [Hin Hout].
    apply bool_decide_eq_true in Hl.
    destruct Hor as [->| ->]; split; try done.
    + apply (singleton_length (successors g n)); [done| |];
        by apply elem_of_successors.
    + apply (singleton_length (predecessors g n)); [done| |];
        by apply elem_of_predecessors.
  - unfold isolated_but_for_self_loop in H. rewrite Hl in H.
    apply bool_decide_eq_true in H.
    assert (degree g n = 0) as Hd by lia.
    destruct (degree_zero_edges g n Hd u v Huv). by destruct Hor.
Qed.

Lemma lone_loop_successors g n :
  isolated_but_for_self_loop g n = true → has_edge g n n = true →
  successors g n = [n].
Proof.
  intros H Hl. destruct (lone_loop_degrees g n H Hl) as [_ Hout].
  apply bool_decide_eq_true, elem_of_successors in Hl.
  unfold out_degree in Hout.
  destruct (successors g n) as [|x [|y l]]; simpl in Hout; try lia.
  apply list_elem_of_singleton in Hl. by subst.
Qed.

Lemma lone_loop_tc_from g n x :
  isolated_but_for_self_loop g n = true → tc (edge_rel g) n x → x = n.
Proof.
  intros H Ht. remember n as a eqn:Ha in Ht.
  induction Ht as [a x Hax|a y x Hay _ IH]; subst a.
  - by destruct (lone_loop_edges g n H n x Hax); [left|].
  - destruct (lone_loop_edges g n H n y Hay) as [_ ->]; [by left|].
    by apply IH.
Qed.

Lemma lone_loop_tc_to g n x :
  isolated_but_for_self_loop g n = true → tc (edge_rel g) x n → x = n.
Proof.
  intros H Ht. remember n as b eqn:Hb in Ht.
  induction Ht as [x b Hxb|x y b Hxy _ IH]; subst b.
  - by destruct (lone_loop_edges g n H x n Hxb); [right|].
  - specialize (IH eq_refl). subst y.
    by destruct (lone_loop_edges g n H x n Hxy); [right|].
Qed.

Lemma has_node_reverse g n : has_node (reverse g) n = has_node g n.
Proof. done. Qed.

Lemma lone_loop_descendants g n :
  has_node g n = true → isolated_but_for_self_loop g n = true →
  descendants g n = Some [].
Proof.
  intros Hn H. destruct (descendants g n) as [l|] eqn:Hd.
  - f_equal. apply elem_of_nil_inv. intros x Hx.
    apply (elem_of_descendants _ _ _ _ Hd) in Hx as [Ht Hne].
    by apply Hne, (lone_loop_tc_from g).
  - unfold descendants in Hd. by rewrite Hn in Hd.
Qed.

Lemma lone_loop_ancestors g n :
  has_node g n = true → isolated_but_for_self_loop g n = true →
  ancestors g n = Some [].
Proof.
  intros Hn H. destruct (ancestors g n) as [l|] eqn:Hd.
  - f_equal. apply elem_of_nil_inv. intros x Hx.
    apply (elem_of_ancestors _ _ _ _ Hd) in Hx as [Ht Hne].
    by apply Hne, (lone_loop_tc_to g).
  - unfold ancestors, descendants in Hd.
    by rewrite has_node_reverse, Hn in Hd.
Qed.

(** The closure that [remove_graph_edge] builds around such an end point
    is the end point with its self-loop. *)
Lemma closure_graph_lone_loop g n :
  has_node g n = true → isolated_but_for_self_loop g n = true →
  has_edge g n n = true →
  closure_graph g n = Some (mkDiGraph [n] [(n, n)]).
Proof.
  intros Hn H Hl. unfold closure_graph.
  rewrite (lone_loop_descendants g n Hn H), (lone_loop_ancestors g n Hn H).
  simpl. f_equal. unfold edges_of. simpl.
  apply bool_decide_eq_true in Hn.
  rewrite filter_cons_True, filter_nil by done. simpl.
  rewrite (lone_loop_successors g n H Hl). simpl.
  unfold add_edge, add_node, has_node, has_edge. simpl.
  by rewrite (bool_decide_eq_true_2 (n ∈ [n])) by in_list.
Qed.

Lemma closure_graph_is_Some g n :
  has_node g n = true → is_Some (closure_graph g n).
Proof.
  intros Hn. unfold closure_graph, ancestors, descendants.
  rewrite has_node_reverse, Hn. simpl. by eexists.
Qed.

Lemma has_path_false g u v :
  has_node g u = true → has_node g v = true → u ≠ v →
  ¬ tc (edge_rel g) u v → has_path g u v = Some false.
Proof.
  intros Hu Hv Hne Ht. unfold has_path. rewrite Hu, Hv. simpl. f_equal.
  rewrite bool_decide_eq_false_2 by done. simpl.
  apply bool_decide_eq_false. by rewrite elem_of_reach.
Qed.

Lemma probe_any_false dag b xs :
  (∀ x, x ∈ xs → has_path dag x b = Some false
                 ∧ has_path dag b x = Some false) →
  probe_any dag b xs = Some false.
Proof.
  induction xs as [|x xs IH]; intros H; simpl; [done|].
  destruct (H x) as [H1 H2]; [apply list_elem_of_here|].
  unfold probe. rewrite H1. simpl. rewrite H2. simpl.
  apply IH. intros y Hy. apply H. by apply list_elem_of_further.
Qed.

Lemma tc_nodes g u v :
  wf g → tc (edge_rel g) u v → u ∈ g_nodes g ∧ v ∈ g_nodes g.
Proof.
  intros Hwf. induction 1 as [u v H|u y v H _ [_ IH]].
  - by apply wf_edge_nodes.
  - split; [|done]. by destruct (wf_edge_nodes g u y Hwf H).
Qed.

(** The connectivity test says no when an end point has nothing but a
    self-loop. *)
Lemma nodes_connected_lone_loop dag src dst n :
  wf dag → src ≠ dst →
  has_node dag src = true → has_node dag dst = true →
  n = src ∨ n = dst →
  isolated_but_for_self_loop dag n = true →
  nodes_connected dag src dst = Some false.
Proof.
  intros Hwf Hne Hs Hd Hn H. unfold nodes_connected.
  destruct Hn as [-> | ->].
  - by rewrite (lone_loop_ancestors dag src Hs H),
      (lone_loop_descendants dag src Hs H).
  - destruct (ancestors dag src) as [anc|] eqn:Hanc;
      [|unfold ancestors, descendants in Hanc;
        by rewrite has_node_reverse, Hs in Hanc].
    destruct (descendants dag src) as [des|] eqn:Hdes;
      [|unfold descendants in Hdes; by rewrite Hs in Hdes].
    simpl.
    assert (∀ x, x ∈ g_nodes dag → x ≠ dst →
                 has_path dag x dst = Some false
                 ∧ has_path dag dst x = Some false) as Hprobe.
    { intros x Hx Hxd.
      assert (has_node dag x = true) by by apply bool_decide_eq_true.
      split; apply has_path_false; try done.
      - intros Ht. by apply Hxd, (lone_loop_tc_to dag).
      - intros Ht. by apply Hxd, (lone_loop_tc_from dag). }
    rewrite (probe_any_false dag dst anc); simpl.
    + apply probe_any_false. intros x Hx.
      apply (elem_of_descendants _ _ _ _ Hdes) in Hx as [Ht Hxs].
      apply Hprobe; [by destruct (tc_nodes dag src x Hwf Ht)|].
      intros ->. by apply Hne, (lone_loop_tc_to dag).
    + intros x Hx.
      apply (elem_of_ancestors _ _ _ _ Hanc) in Hx as [Ht Hxs].
      apply Hprobe; [by destruct (tc_nodes dag x src Hwf Ht)|].
      intros ->. by apply Hne, (lone_loop_tc_from dag dst).
Qed.

(** *** End points of a weakly connected graph *)

Lemma edge_rel_remove_edge g u v g' x y :
  remove_edge g u v = Some g' →
  edge_rel g x y → (x, y) = (u, v) ∨ edge_rel g' x y.
Proof.
  intros H Hxy. unfold edge_rel. rewrite (remove_edge_edges _ _ _ _ H).
  destruct (decide ((x, y) = (u, v))) as [|Hne]; [by left|right].
  apply list_elem_of_filter. by split.
Qed.

(** When one end of the removed edge is left without edges and the
    other with a self-loop at most, a weakly connected graph has no
    other node. *)
Lemma pair_nodes dag0 dag src dst a b :
  remove_edge dag0 src dst = Some dag →
  (a = src ∧ b = dst) ∨ (a = dst ∧ b = src) →
  degree dag a = 0 → isolated_but_for_self_loop dag b = true →
  (∀ x, x ∈ g_nodes dag0 → weakly_connected dag0 src x) →
  ∀ x, x ∈ g_nodes dag0 → x = a ∨ x = b.
Proof.
  intros Hrm Hab Ha Hb Hconn x Hx.
  assert (∀ u v, edge_rel dag0 u v → (u = a ∨ u = b) ∨ (v = a ∨ v = b) →
                 (u = a ∨ u = b) ∧ (v = a ∨ v = b)) as Hstep.
  { intros u v Huv Hor.
    destruct (edge_rel_remove_edge _ _ _ _ _ _ Hrm Huv) as [[= -> ->]|Hdag].
    { destruct Hab as [[-> ->]|[-> ->]]; auto. }
    destruct (degree_zero_edges dag a Ha u v Hdag) as [Hua Hva].
    assert (u = b ∨ v = b) as Hb' by tauto.
    destruct (lone_loop_edges dag b Hb u v Hdag Hb') as [-> ->]. auto. }
  assert (src = a ∨ src = b) as Hsrc
    by (destruct Hab as [[-> ->]|[-> ->]]; auto).
  assert (∀ s y, rtc (sc (edge_rel dag0)) s y →
                 s = a ∨ s = b → y = a ∨ y = b) as Hclosed.
  { induction 1 as [|u v w Huv _ IH]; [done|]. intros Hu. apply IH.
    destruct Huv as [Huv|Huv].
    - by destruct (Hstep u v Huv); [left|].
    - by destruct (Hstep v u Huv); [right|]. }
  exact (Hclosed src x (Hconn x Hx) Hsrc).
Qed.

Lemma nodup_all_eq {A} (l : list A) (b : A) :
  NoDup l → (∀ x, x ∈ l → x = b) → l = [] ∨ l = [b].
Proof.
  intros Hnd Hall. destruct l as [|x [|y l]]; [by left| |].
  - right. f_equal. apply Hall, list_elem_of_here.
  - exfalso. apply NoDup_cons in Hnd as [Hx _]. apply Hx.
    rewrite (Hall x), (Hall y); [apply list_elem_of_here| |].
    + apply list_elem_of_further, list_elem_of_here.
    + apply list_elem_of_here.
Qed.

(** Dropping the end point without edges then leaves the other end point
    alone, with its self-loop if it has one. *)
Lemma drop_node_pair dag a b :
  wf dag → a ≠ b → b ∈ g_nodes dag →
  (∀ x, x ∈ g_nodes dag → x = a ∨ x = b) →
  degree dag a = 0 →
  drop_node dag a = singleton_of dag b.
Proof.
  intros (Hn & He & Hends) Hab Hb Hall Ha.
  pose proof (degree_zero_edges dag a Ha) as Hfree.
  assert (∀ e, e ∈ g_edges dag → e = (b, b)) as Hloop.
  { intros [u v] Hin. destruct (Hfree u v Hin) as [Hu Hv].
    apply (proj1 (Forall_forall _ _) Hends) in Hin as [Hu' Hv'].
    simpl in *.
    destruct (Hall u Hu'), (Hall v Hv'); congruence. }
  unfold drop_node.
  rewrite (filter_all _ (g_edges dag)).
  2:{ intros [u v] Hin [H|H]; destruct (Hfree u v Hin); simpl in *;
        congruence. }
  assert (filter (fun m => m ≠ a) (g_nodes dag) = [b]) as ->.
  { destruct (nodup_all_eq (filter (fun m => m ≠ a) (g_nodes dag)) b)
      as [Hnil|Hone]; [by apply NoDup_filter| |..|done].
    - intros x [Hxa Hx]%list_elem_of_filter. by destruct (Hall x Hx).
    - assert (b ∈ filter (fun m => m ≠ a) (g_nodes dag)) as Hin
        by (apply list_elem_of_filter; split; [congruence|done]).
      rewrite Hnil in Hin. by apply elem_of_nil in Hin. }
  unfold singleton_of, has_edge.
  destruct (nodup_all_eq (g_edges dag) (b, b) He Hloop) as [-> | ->].
  - rewrite bool_decide_eq_false_2; [done|]. apply not_elem_of_nil.
  - rewrite bool_decide_eq_true_2; [done|]. apply list_elem_of_here.
Qed.

(** *** The graphs that hold an end point after the removal *)

Lemma owners_app dags1 dags2 n :
  owners (dags1 ++ dags2) n = owners dags1 n ++ owners dags2 n.
Proof. unfold owners. apply filter_app. Qed.

Lemma owners_none (dags : Dags) n :
  (∀ h, h ∈ dags → n ∉ g_nodes h) → owners dags n = [].
Proof.
  intros H. unfold owners. induction dags as [|g dags IH]; [done|].
  rewrite filter_cons_False.
  - apply IH. intros h Hh. apply H. by apply list_elem_of_further.
  - intros Hg. apply bool_decide_eq_true in Hg.
    by apply (H g); [apply list_elem_of_here|].
Qed.

Lemma owners_holder g n : n ∈ g_nodes g → owners [g] n = [g].
Proof.
  intros H. unfold owners.
  rewrite filter_cons_True by by apply bool_decide_eq_true. done.
Qed.

Lemma owners_not_holder g n : n ∉ g_nodes g → owners [g] n = [].
Proof.
  intros H. apply owners_none. by intros h ->%list_elem_of_singleton.
Qed.

(** When one graph only holds a node, the graphs before it and after it
    in the list do not. *)
Lemma owners_sole (dags : Dags) i g n :
  dags !! i = Some g → n ∈ g_nodes g → owners dags n = [g] →
  owners (take i dags) n = [] ∧ owners (drop (S i) dags) n = [].
Proof.
  intros Hi Hn Ho.
  assert (owners (take i dags ++ [g] ++ drop (S i) dags) n = [g]) as H.
  { etrans; [|exact Ho]. f_equal. apply (take_drop_middle dags i g Hi). }
  rewrite !owners_app, (owners_holder g n Hn) in H.
  destruct (owners (take i dags) n) as [|a l]; simpl in H.
  - by injection H as H.
  - injection H as _ H. by destruct l.
Qed.

Lemma dag_with_node_sole (dags : Dags) i g n :
  dags !! i = Some g → n ∈ g_nodes g → owners dags n = [g] →
  dag_with_node dags n = Some (i, g).
Proof.
  intros Hi Hn Ho. destruct (owners_sole dags i g n Hi Hn Ho) as [Htake _].
  apply list_find_Some. split_and!; [done|by apply bool_decide_eq_true|].
  intros j h Hj Hlt Hh.
  assert (h ∈ owners (take i dags) n) as Hin.
  { apply list_elem_of_filter. split; [done|].
    apply (list_elem_of_lookup_2 _ j). by rewrite lookup_take_lt. }
  rewrite Htake in Hin. by apply elem_of_nil in Hin.
Qed.

Lemma owners_replaced (dags : Dags) i g' extra n :
  i < length dags →
  owners (take i dags) n = [] → owners (drop (S i) dags) n = [] →
  owners (<[i := g']> dags ++ extra) n = owners [g'] n ++ owners extra n.
Proof.
  intros Hi Ht Hd. rewrite insert_take_drop by done.
  change (g' :: drop (S i) dags) with ([g'] ++ drop (S i) dags).
  by rewrite !owners_app, Ht, Hd, app_nil_r.
Qed.

Lemma owners_deleted (dags : Dags) i g' extra n :
  owners (take i dags) n = [] → owners (drop (S i) dags) n = [] →
  owners (delete i (<[i := g']> dags) ++ extra) n = owners extra n.
Proof.
  intros Ht Hd. rewrite delete_take_drop.
  rewrite take_insert_ge, drop_insert_lt by lia.
  by rewrite !owners_app, Ht, Hd.
Qed.

(** The nodes of the graph built around an end point are ends of edges
    that leave the end point, its descendants or its ancestors. *)
Lemma add_edge_nodes_from g u v x :
  x ∈ g_nodes (add_edge g u v) → x ∈ g_nodes g ∨ x = u ∨ x = v.
Proof.
  unfold add_edge, add_node, has_node.
  repeat (case_bool_decide || destruct (has_edge _ _ _)); simpl;
    rewrite ?elem_of_app, ?list_elem_of_singleton; tauto.
Qed.

Lemma add_edges_from_nodes es : ∀ g x,
  x ∈ g_nodes (add_edges_from g es) →
  x ∈ g_nodes g ∨ ∃ e, e ∈ es ∧ (x = e.1 ∨ x = e.2).
Proof.
  unfold add_edges_from.
  induction es as [|e es IH]; intros g x Hx; simpl in Hx; [by left|].
  apply IH in Hx as [Hx|(e' & He' & Hx)].
  - apply add_edge_nodes_from in Hx as [Hx|Hx]; [by left|right].
    exists e. split; [apply list_elem_of_here|done].
  - right. exists e'. split; [by apply list_elem_of_further|done].
Qed.

Lemma elem_of_edges_of g l u v :
  (u, v) ∈ edges_of g l → u ∈ l ∧ edge_rel g u v.
Proof.
  unfold edges_of. intros (n & Hin & Hn)%list_elem_of_bind.
  apply list_elem_of_fmap in Hin as (w & [= -> ->] & Hw).
  apply list_elem_of_filter in Hn as [_ Hn].
  split; [done|]. by apply elem_of_successors.
Qed.

Lemma closure_graph_nodes dag n g x :
  closure_graph dag n = Some g → x ∈ g_nodes g →
  ∃ u v, edge_rel dag u v ∧ (x = u ∨ x = v) ∧
         (u = n ∨ tc (edge_rel dag) n u ∨ tc (edge_rel dag) u n).
Proof.
  unfold closure_graph.
  destruct (descendants dag n) as [des|] eqn:Hdes; simpl; [|done].
  destruct (ancestors dag n) as [anc|] eqn:Hanc; simpl; [|done].
  intros [= <-] Hx.
  apply add_edges_from_nodes in Hx as [Hx|([u v] & He & Hx)].
  - apply add_edges_from_nodes in Hx as [Hx|([u v] & He & Hx)].
    + apply add_edges_from_nodes in Hx as [Hx|([u v] & He & Hx)].
      * by apply elem_of_nil in Hx.
      * apply elem_of_edges_of in He as [Hu He]. exists u, v.
        apply (elem_of_descendants _ _ _ _ Hdes) in Hu as [Hu _]. auto.
    + apply elem_of_edges_of in He as [Hu He]. exists u, v.
      apply (elem_of_ancestors _ _ _ _ Hanc) in Hu as [Hu _]. auto.
  - apply elem_of_edges_of in He as [Hu He]. exists u, v.
    apply list_elem_of_singleton in Hu. auto.
Qed.

(** An end point with nothing but a self-loop is not in the graph built
    around the other end point. *)
Lemma lone_loop_outside_closure dag n o g :
  isolated_but_for_self_loop dag n = true → n ≠ o →
  closure_graph dag o = Some g → n ∉ g_nodes g.
Proof.
  intros Hiso Hne Hg Hn.
  destruct (closure_graph_nodes dag o g n Hg Hn) as (u & v & He & Hx & Hu).
  assert (u = n ∨ v = n) as Hor by (destruct Hx; auto).
  destruct (lone_loop_edges dag n Hiso u v He Hor) as [-> ->].
  destruct Hu as [Hu|[Hu|Hu]]; [done| |].
  - by apply (lone_loop_tc_to dag n o Hiso) in Hu.
  - by apply (lone_loop_tc_from dag n o Hiso) in Hu.
Qed.

Lemma singleton_of_nodes g n : g_nodes (singleton_of g n) = [n].
Proof. unfold singleton_of. by destruct (has_edge g n n). Qed.

Lemma drop_node_is_singleton dag m n src dst :
  wf dag → (m = src ∧ n = dst) ∨ (m = dst ∧ n = src) → m ≠ n →
  n ∈ g_nodes dag → degree dag m = 0 →
  drop_node dag m = singleton_of dag n
  ↔ ∀ x, x ∈ g_nodes dag → x = src ∨ x = dst.
Proof.
  intros Hwf Hmn Hne Hn Hm. split.
  - intros Heq x Hx. destruct (decide (x = m)) as [->|Hxm].
    { destruct Hmn as [[-> _]|[-> _]]; auto. }
    assert (x ∈ g_nodes (drop_node dag m)) as Hin
      by (apply list_elem_of_filter; by split).
    rewrite Heq, singleton_of_nodes in Hin.
    apply list_elem_of_singleton in Hin as ->.
    destruct Hmn as [[_ ->]|[_ ->]]; auto.
  - intros Hall. apply drop_node_pair; try done.
    intros x Hx. destruct (Hall x Hx), Hmn as [[-> ->]|[-> ->]]; auto.
Qed.

(** C3 (as amended).  [remove_graph_edge] removes an edge that is not a
    self-loop from the graph that alone holds its two ends.  Its
    isolation step tests for degree 0, a self-loop counted as a
    connection, the source first and the destination only when the
    source has an edge left, and it splits off the one end point it
    finds.  An end point [n] left isolated, a lone self-loop not
    counted, is afterwards held by one graph only, a one-node graph of
    its own that keeps the self-loop if there is one, in every case but
    one: when the step takes the other end point, [n] stays in what is
    left of the graph, which is a one-node graph of [n] exactly when the
    graph holds no third node, as is the case in every weakly connected
    graph. *)
Theorem remove_graph_edge_splits_isolated dags src dst i dag0 dag n :
  src ≠ dst →
  dag_with_edge dags src dst = Some (i, dag0) →
  wf dag0 →
  owners dags src = [dag0] → owners dags dst = [dag0] →
  remove_edge dag0 src dst = Some dag →
  n = src ∨ n = dst →
  isolated_but_for_self_loop dag n = true →
  ∃ dags', remove_graph_edge dags src dst = Some dags' ∧
    match taken_end_point dag src dst with
    | Some m =>
        if decide (m = n) then owners dags' n = [singleton_of dag n]
        else owners dags' n = [drop_node dag m] ∧
             (drop_node dag m = singleton_of dag n
              ↔ ∀ x, x ∈ g_nodes dag → x = src ∨ x = dst)
    | None => owners dags' n = [singleton_of dag n]
    end ∧
    ((∀ x, x ∈ g_nodes dag0 → weakly_connected dag0 src x) →
     owners dags' n = [singleton_of dag n]).
Proof.
  intros Hne Hedge Hwf0 Hos Hod Hrm Hn Hiso.
  pose proof Hedge as (Hi & He0 & _)%list_find_Some.
  apply bool_decide_eq_true in He0.
  destruct (wf_edge_nodes dag0 src dst Hwf0 He0) as [Hs0 Hd0].
  pose proof (dag_with_node_sole dags i dag0 src Hi Hs0 Hos) as Hsrc.
  pose proof (dag_with_node_sole dags i dag0 dst Hi Hd0 Hod) as Hdst.
  destruct (owners_sole dags i dag0 src Hi Hs0 Hos) as [Hts Hds'].
  destruct (owners_sole dags i dag0 dst Hi Hd0 Hod) as [Htd Hdd'].
  destruct (remove_graph_edge_cases dags src dst i dag0 dag
              Hne Hedge Hsrc Hdst Hrm) as [-> Hloops].
  pose proof (remove_edge_wf _ _ _ _ Hwf0 Hrm) as Hwf.
  pose proof (remove_edge_nodes _ _ _ _ Hrm) as Hnodes.
  assert (i < length dags) as Hlt by by eapply lookup_lt_Some.
  assert (src ∈ g_nodes dag ∧ dst ∈ g_nodes dag) as [Hs Hd]
    by by rewrite Hnodes.
  assert (∀ m, degree dag m = 0 → singleton_of dag m = mkDiGraph [m] [])
    as Hbare.
  { intros m Hm. unfold singleton_of. specialize (Hloops m).
    rewrite (bool_decide_eq_true_2 _ Hm), andb_true_r in Hloops.
    by rewrite Hloops. }
  assert (∀ m o, degree dag m = 0 → m ≠ o → o ∈ g_nodes dag →
            owners (take i dags) m = [] → owners (drop (S i) dags) m = [] →
            owners (take i dags) o = [] → owners (drop (S i) dags) o = [] →
            owners (<[i := drop_node dag m]> dags ++ [mkDiGraph [m] []]) m
            = [singleton_of dag m] ∧
            owners (<[i := drop_node dag m]> dags ++ [mkDiGraph [m] []]) o
            = [drop_node dag m]) as Hsplit.
  { intros m o Hm Hmo Ho Htm Hdm Hto Hdo. split.
    - rewrite owners_replaced by done.
      rewrite owners_not_holder, owners_holder, (Hbare m Hm);
        [done|simpl; in_list|].
      simpl. intros [Hx _]%list_elem_of_filter. done.
    - rewrite owners_replaced by done.
      rewrite owners_holder, owners_not_holder; [done| |].
      + simpl. intros Hx%list_elem_of_singleton. congruence.
      + simpl. apply list_elem_of_filter. split; [congruence|done]. }
  unfold taken_end_point, is_isolate.
  case_bool_decide as Hsz.
  { destruct (Hsplit src dst Hsz Hne Hd Hts Hds' Htd Hdd') as [Fs Fd].
    eexists. split; [done|]. destruct Hn as [-> | ->].
    - rewrite decide_True by done. done.
    - rewrite decide_False by done. split; [split; [done|]|].
      + apply drop_node_is_singleton; auto.
      + intros Hconn. rewrite Fd. f_equal.
        apply (drop_node_pair dag src dst); try done.
        rewrite Hnodes. eapply pair_nodes; eauto. }
  case_bool_decide as Hdz.
  { assert (dst ≠ src) as Hne' by congruence.
    destruct (Hsplit dst src Hdz Hne' Hs Htd Hdd' Hts Hds') as [Fd Fs].
    eexists. split; [done|]. destruct Hn as [-> | ->].
    - rewrite decide_False by done. split; [split; [done|]|].
      + apply drop_node_is_singleton; auto.
      + intros Hconn. rewrite Fs. f_equal.
        apply (drop_node_pair dag dst src); try done.
        rewrite Hnodes. eapply pair_nodes; eauto.
    - rewrite decide_True by done. done. }
  assert (has_edge dag n n = true) as Hl.
  { destruct (has_edge dag n n) eqn:Hl; [done|exfalso].
    unfold isolated_but_for_self_loop in Hiso. rewrite Hl in Hiso.
    apply bool_decide_eq_true in Hiso. destruct Hn as [-> | ->]; lia. }
  assert (has_node dag src = true ∧ has_node dag dst = true) as [Hs' Hd']
    by (split; by apply bool_decide_eq_true).
  rewrite (nodes_connected_lone_loop dag src dst n); try done. simpl.
  assert (singleton_of dag n = mkDiGraph [n] [(n, n)]) as ->
    by (unfold singleton_of; by rewrite Hl).
  destruct (closure_graph_is_Some dag src Hs') as [gs Hgs].
  destruct (closure_graph_is_Some dag dst Hd') as [gd Hgd].
  rewrite Hgs, Hgd. simpl. eexists. split; [done|].
  assert (owners (delete i (<[i:=dag]> dags) ++ [gs] ++ [gd]) n
          = [mkDiGraph [n] [(n, n)]]) as Hown; [|done].
  destruct Hn as [-> | ->].
  - rewrite owners_deleted, owners_app by done.
    rewrite (closure_graph_lone_loop dag src) in Hgs by done.
    injection Hgs as <-.
    rewrite owners_holder by (simpl; in_list).
    rewrite owners_not_holder; [done|].
    by apply (lone_loop_outside_closure dag src dst).
  - rewrite owners_deleted, owners_app by done.
    rewrite (closure_graph_lone_loop dag dst) in Hgd by done.
    injection Hgd as <-.
    rewrite owners_not_holder, owners_holder; [done|simpl; in_list|].
    apply (lone_loop_outside_closure dag dst src); [done|congruence|done].
Qed.

Lemma remove_graph_edge_splits_isolated_witness :
  let a := NStr "a" in let b := NStr "b" in let c := NStr "c" in
  let dag0 := mkDiGraph [a; b; c] [(a, b); (a, a); (b, c)] in
  let dag := mkDiGraph [a; b; c] [(a, a); (b, c)] in
  ∃ dags', remove_graph_edge [dag0] a b = Some dags' ∧
    match taken_end_point dag a b with
    | Some m =>
        if decide (m = a) then owners dags' a = [singleton_of dag a]
        else owners dags' a = [drop_node dag m] ∧
             (drop_node dag m = singleton_of dag a
              ↔ ∀ x, x ∈ g_nodes dag → x = a ∨ x = b)
    | None => owners dags' a = [singleton_of dag a]
    end ∧
    ((∀ x, x ∈ g_nodes dag0 → weakly_connected dag0 a x) →
     owners dags' a = [singleton_of dag a]).
Proof.
  intros a b c dag0 dag.
  apply (remove_graph_edge_splits_isolated [dag0] a b 0 dag0 dag a).
  - done.
  - reflexivity.
  - apply (bool_decide_unpack _). by vm_compute.
  - reflexivity.
  - reflexivity.
  - reflexivity.
  - by left.
  - reflexivity.
Defined.

(** C3 (as the claim has it, refuted).  After add and remove operations
    have left "a" with the edge to "b" and a self-loop in a graph that
    also holds "c" and "d", removing a -> b leaves "a" isolated but for
    its self-loop, and "a" stays in the graph of "c" and "d". *)
Lemma remove_graph_edge_keeps_lone_self_loop :
  ∃ dags,
    run [] [AddNode "a"; AddNode "b"; AddNode "c"; AddNode "d"; AddNode "n";
            AddEdge "a" "n"; AddEdge "n" "c"; AddEdge "c" "d";
            AddEdge "a" "b"; AddEdge "a" "a"; RemoveNode "n"] = Some dags ∧
    ¬ splits_isolated_end_points dags (NStr "a") (NStr "b").
Proof.
  eexists. split; [vm_compute; reflexivity|].
  intros H.
  destruct (H 0
              (mkDiGraph [NStr "a"; NStr "c"; NStr "d"; NStr "b"]
                 [(NStr "c", NStr "d"); (NStr "a", NStr "b");
                  (NStr "a", NStr "a")])
              (mkDiGraph [NStr "a"; NStr "c"; NStr "d"; NStr "b"]
                 [(NStr "c", NStr "d"); (NStr "a", NStr "a")])
              (NStr "a")) as [dags' [Hrun Hin]];
    [done|reflexivity|reflexivity|by left|reflexivity|].
  vm_compute in Hrun. injection Hrun as <-.
  vm_compute in Hin. not_in_list Hin.
Qed.

(** *** Adding a node *)

(** C4 (as amended).  [add_dag_node] makes no check: for every name,
    new or already present, it appends a one-node graph holding the name,
    so that the name is held by one graph more than before. *)
Theorem add_dag_node_always_appends dags name :
  add_dag_node dags name = dags ++ [mkDiGraph [name] []] ∧
  length (owners (add_dag_node dags name) name)
  = S (length (owners dags name)).
Proof.
  split; [done|].
  unfold owners, add_dag_node. rewrite filter_app, length_app. simpl.
  rewrite filter_cons_True, filter_nil; [simpl; lia|].
  unfold has_node. apply bool_decide_eq_true. simpl. in_list.
Qed.

(** C4 (as the claim has it, refuted).  Adding the name "a" a second
    time is not a no-op: the list grows to two graphs, both holding
    "a". *)
Lemma add_dag_node_twice :
  let dags := add_dag_node [] (NStr "a") in
  owners dags (NStr "a") ≠ [] ∧
  add_dag_node dags (NStr "a") ≠ dags ∧
  length (owners (add_dag_node dags (NStr "a")) (NStr "a")) = 2.
Proof. by vm_compute. Qed.

(** *** The execution order *)

(** C6 (as amended).  For every graph with a node on a directed cycle,
    a self-loop included, [calc_exec_order] does not raise and returns
    the empty list, its only sign that the graph is not a DAG, and leaves
    the graph as it was; the list names no edge. *)
Theorem calc_exec_order_not_dag g n :
  n ∈ g_nodes g → tc (edge_rel g) n n →
  calc_exec_order g = Some ([], g) ∧ ∀ e, ¬ names_edge [] e.
Proof.
  intros Hn Hc. split.
  - unfold calc_exec_order.
    assert (is_directed_acyclic_graph g = false) as ->; [|done].
    apply is_directed_acyclic_graph_false. eauto.
  - intros e [H _]. by apply elem_of_nil in H.
Qed.

Lemma calc_exec_order_not_dag_witness :
  let a := NStr "A" in
  let g := mkDiGraph [a] [(a, a)] in
  calc_exec_order g = Some ([], g) ∧ ∀ e, ¬ names_edge [] e.
Proof.
  intros a g. apply (calc_exec_order_not_dag g a).
  - simpl. in_list.
  - apply tc_once. unfold edge_rel. simpl. in_list.
Defined.

(** C6 (as the claim has it, refuted).  For the cycle A -> B -> C -> A
    the three edges are on a cycle, and the result of [calc_exec_order]
    is the empty list, which reports none of them. *)
Lemma calc_exec_order_reports_no_edges :
  let a := NStr "A" in let b := NStr "B" in let c := NStr "C" in
  let g := mkDiGraph [a; b; c] [(a, b); (b, c); (c, a)] in
  cycle_edges g = [(a, b); (b, c); (c, a)] ∧
  calc_exec_order g = Some ([], g) ∧
  ¬ reports_cycle_edges g.
Proof.
  intros a b c g. split; [reflexivity|]. split; [reflexivity|].
  intros (order & g' & Hrun & Hall).
  vm_compute in Hrun. injection Hrun as <- <-.
  destruct (Hall (a, b)) as [H _]; [vm_compute; in_list|].
  by apply elem_of_nil in H.
Qed.

Lemma add_node_present g n : n ∈ g_nodes g → add_node g n = g.
Proof.
  intros H. unfold add_node, has_node. by rewrite bool_decide_eq_true_2.
Qed.

Lemma add_edge_fresh g u v :
  u ∈ g_nodes g → v ∈ g_nodes g → (u, v) ∉ g_edges g →
  add_edge g u v = mkDiGraph (g_nodes g) (g_edges g ++ [(u, v)]).
Proof.
  intros Hu Hv He. unfold add_edge.
  rewrite (add_node_present g u Hu), (add_node_present g v Hv).
  unfold has_edge. by rewrite bool_decide_eq_false_2.
Qed.

(** The dummy edges of the several-sources case, added and removed. *)
Lemma add_dummy_edges d srcs : ∀ N E,
  d ∈ N → (∀ s, s ∈ srcs → s ∈ N) → NoDup srcs →
  (∀ s, s ∈ srcs → (d, s) ∉ E) →
  foldl (fun acc src => add_edge acc d src) (mkDiGraph N E) srcs
  = mkDiGraph N (E ++ ((fun s => (d, s)) <$> srcs)).
Proof.
  induction srcs as [|s srcs IH]; intros N E Hd Hin Hnd Hfresh; simpl.
  - by rewrite app_nil_r.
  - apply NoDup_cons in Hnd as [Hs Hnd].
    rewrite add_edge_fresh; simpl;
      [|done|apply Hin; in_list|apply Hfresh; in_list].
    rewrite IH; [by rewrite <- app_assoc| done | | done |].
    + intros x Hx. apply Hin. by apply list_elem_of_further.
    + intros x Hx [H|H]%elem_of_app.
      * by apply (Hfresh x); [apply list_elem_of_further|].
      * apply list_elem_of_singleton in H. congruence.
Qed.

Lemma remove_dummy_edges d srcs : ∀ N E,
  NoDup srcs → (∀ e, e ∈ E → e.1 ≠ d) →
  foldl (fun acc src => acc ≫= fun h => remove_edge h d src)
    (Some (mkDiGraph N (E ++ ((fun s => (d, s)) <$> srcs)))) srcs
  = Some (mkDiGraph N E).
Proof.
  induction srcs as [|s srcs IH]; intros N E Hnd HE; simpl.
  - by rewrite app_nil_r.
  - apply NoDup_cons in Hnd as [Hs Hnd].
    unfold remove_edge at 2, has_edge. simpl.
    rewrite bool_decide_eq_true_2
      by (apply elem_of_app; right; apply list_elem_of_here).
    simpl. rewrite filter_app, filter_cons_False by (simpl; congruence).
    rewrite (filter_all _ E).
    + rewrite filter_all; [by apply IH|].
      intros e [x [-> Hx]]%list_elem_of_fmap. congruence.
    + intros e He ->. by apply (HE _ He).
Qed.

(** C9.  [calc_exec_order] leaves its graph as it found it: in the
    several-sources case the dummy source 0 and its edges are added and
    taken away again, and the nodes and the edges after the call are
    those before it.  The graph is any [DiGraph] value whose nodes do
    not include the integer 0, as is the case of every graph of item
    names. *)
Theorem calc_exec_order_restores_graph g :
  wf g → invisible_src_node ∉ g_nodes g →
  ∃ order, calc_exec_order g = Some (order, g).
Proof.
  intros (Hnodes & Hedges & Hends) Hzero. unfold calc_exec_order.
  destruct (negb (is_directed_acyclic_graph g)); [by eexists|].
  destruct (source_nodes g) as [|s1 [|s2 rest]] eqn:Hsrc; [by eexists..|].
  rewrite <- Hsrc. clear s1 s2 rest Hsrc.
  assert (∀ e, e ∈ g_edges g → e.1 ≠ invisible_src_node
                               ∧ e.2 ≠ invisible_src_node) as Hfree.
  { intros e He. apply (proj1 (Forall_forall _ _) Hends) in He as [H1 H2].
    split; congruence. }
  assert (add_node g invisible_src_node
          = mkDiGraph (g_nodes g ++ [invisible_src_node]) (g_edges g)) as ->.
  { unfold add_node, has_node. by rewrite bool_decide_eq_false_2. }
  rewrite add_dummy_edges.
  - rewrite remove_dummy_edges.
    + simpl. unfold remove_node, has_node. simpl.
      rewrite bool_decide_eq_true_2
        by (apply elem_of_app; right; apply list_elem_of_here).
      eexists. simpl. do 2 f_equal. unfold drop_node. simpl.
      rewrite filter_app, filter_cons_False, filter_nil, app_nil_r
        by (simpl; congruence).
      rewrite !filter_all; [by destruct g| |].
      * intros e He [H|H]; destruct (Hfree _ He); congruence.
      * intros n Hn ->. done.
    + by apply NoDup_filter.
    + intros e He. by destruct (Hfree _ He).
  - apply elem_of_app. right. apply list_elem_of_here.
  - intros s [_ Hs]%list_elem_of_filter. apply elem_of_app. by left.
  - by apply NoDup_filter.
  - intros s _ He. destruct (Hfree _ He). simpl in *. congruence.
Qed.

Lemma calc_exec_order_restores_graph_witness :
  let a := NStr "A" in let b := NStr "B" in let c := NStr "C" in
  let g := mkDiGraph [a; b; c] [(a, c); (b, c)] in
  ∃ order, calc_exec_order g = Some (order, g).
Proof.
  intros a b c g. apply (calc_exec_order_restores_graph g).
  - apply (bool_decide_unpack _). by vm_compute.
  - intros H. not_in_list H.
Defined.

End GraphStoreFacts.

(** ** The execution driver and the resource lookups *)

Module ExecutionFacts.
Import ExecutionInstance.

(** C5.  On every completion signal: CONTINUE (0) starts the next item
    of the list, or ends the run as COMPLETED when the list is
    exhausted; FAILED (-1) ends the run as FAILED and STOPPED (-2) as
    USER_STOPPED, at once, and in both cases no item is started and the
    instance is left as it was. *)
Theorem item_execution_finished_transitions inst before :
  let continue := item_execution_finished inst 0 in
  let failed := item_execution_finished inst (-1) in
  let stopped := item_execution_finished inst (-2) in
  match execution_list inst with
  | item :: rest =>
      started continue.2 = [Some item] ∧
      running_item continue.1 = Some item ∧
      execution_list continue.1 = rest ∧
      state_after before continue.2 = RUNNING
  | [] =>
      started continue.2 = [] ∧ continue.1 = inst ∧
      state_after before continue.2 = COMPLETED
  end ∧
  (started failed.2 = [] ∧ failed.1 = inst ∧
   state_after before failed.2 = FAILED) ∧
  (started stopped.2 = [] ∧ stopped.1 = inst ∧
   state_after before stopped.2 = USER_STOPPED).
Proof.
  unfold item_execution_finished. simpl.
  destruct (execution_list inst) as [|item rest]; simpl; by split_and!.
Qed.

(** [running_item] is set when an item is started and never cleared: a
    completion signal that ends the run leaves it as it was, and [stop]
    then takes its other branch and calls [stop_execution] on the item
    that ran last. *)
Lemma running_item_is_kept inst code :
  code = (-1)%Z ∨ code = (-2)%Z ∨ execution_list inst = [] →
  running_item (item_execution_finished inst code).1 = running_item inst.
Proof.
  unfold item_execution_finished. intros [-> | [-> | H]]; [done..|].
  rewrite H. by repeat case_decide.
Qed.

Lemma stop_with_running_item inst :
  truthy (running_item inst) = true →
  stop inst = (inst, [ItemStopExecution (running_item inst)]).
Proof. intros H. unfold stop. by rewrite H. Qed.

(** C7 (as amended).  [stop] on an instance whose [running_item] is
    unset ([None], as it is until an item is started) or empty reports
    "No running item" and emits the graph-finished signal with the code
    -2 of a stopped run: the instance itself is unchanged, and the run
    is ended as stopped by the user. *)
Theorem stop_without_running_item inst :
  truthy (running_item inst) = false →
  stop inst = (inst, [Msg "No running item"; GraphExecutionFinished (-2)]) ∧
  ∀ before, state_after before (stop inst).2 = USER_STOPPED.
Proof. intros H. unfold stop. by rewrite H. Qed.

Lemma stop_without_running_item_witness :
  let inst := init ["A"; "B"] in
  stop inst = (inst, [Msg "No running item"; GraphExecutionFinished (-2)]) ∧
  ∀ before, state_after before (stop inst).2 = USER_STOPPED.
Proof.
  intros inst. apply (stop_without_running_item inst). reflexivity.
Defined.

(** C7 (as the claim has it, refuted).  Before anything has been
    started, [stop] turns a run that is not started into a run stopped by
    the user. *)
Lemma stop_ends_the_run :
  let inst := init ["A"; "B"] in
  truthy (running_item inst) = false ∧
  state_after NOT_STARTED (stop inst).2 = USER_STOPPED ∧
  ¬ stop_keeps_state inst.
Proof.
  intros inst. split; [done|]. split; [done|].
  intros H. by specialize (H eq_refl NOT_STARTED).
Qed.

(** C10.  [start_execution] takes element 0 of the execution list
    without a guard: it raises exactly when the list is empty, and
    otherwise it removes that element from the list, makes it the
    running item and starts it, leaving the resources as they were; the
    advancement step guards the empty list and signals completion
    instead. *)
Theorem start_execution_needs_an_item inst :
  (start_execution inst = None ↔ execution_list inst = []) ∧
  match execution_list inst with
  | [] =>
      item_execution_finished inst 0
      = (inst, [SignalDisconnected; GraphExecutionFinished 0])
  | item :: rest =>
      ∃ inst',
        start_execution inst
        = Some (inst', [SignalConnected; ItemExecute (Some item)]) ∧
        execution_list inst' = rest ∧
        running_item inst' = Some item ∧
        dc_refs inst' = dc_refs inst ∧ dc_files inst' = dc_files inst ∧
        ds_refs inst' = ds_refs inst ∧ di_data inst' = di_data inst ∧
        tool_output_files inst' = tool_output_files inst
  end.
Proof.
  unfold start_execution, item_execution_finished.
  destruct (execution_list inst) as [|item rest]; simpl.
  - done.
  - split; [done|]. eexists. by split_and!.
Qed.

Section LookupFacts.
Variable split_tail : string → string.
Variable fnmatch : string → string → bool.

Lemma first_named_find paths filename :
  first_named split_tail paths filename
  = snd <$> list_find (fun p => split_tail p = filename) paths.
Proof.
  induction paths as [|p paths IH]; simpl; [done|].
  case_decide; [done|].
  rewrite IH. by destruct (list_find _ paths) as [[? ?]|].
Qed.

Lemma first_named_app l k filename :
  first_named split_tail (l ++ k) filename
  = match first_named split_tail l filename with
    | Some p => Some p
    | None => first_named split_tail k filename
    end.
Proof.
  induction l as [|p l IH]; simpl; [done|]. by case_decide.
Qed.

Lemma first_in_dialect_refs inst dialect filename :
  first_in_dialect split_tail inst dialect filename
  = first_named split_tail (refs_of inst dialect) filename.
Proof.
  unfold first_in_dialect, refs_of.
  by destruct (ds_refs inst !! dialect).
Qed.

Lemma find_file_first inst filename :
  find_file split_tail inst filename
  = first_named split_tail (searched inst) filename.
Proof.
  unfold find_file, searched.
  rewrite !first_named_app, !first_in_dialect_refs.
  repeat (destruct (first_named _ _ _); [done|]). done.
Qed.

(** C8 (as amended).  For a pattern with [*] or [?],
    [find_optional_files] returns the matches among the sqlite
    references, the data-connection references and files and the tool
    output files, in that order, and the references of the other
    dialects are not searched; for any other pattern it returns what
    [find_file] finds, which is the first path, through the five
    dialects and the three lists, whose last segment is the pattern,
    or nothing. *)
Theorem find_optional_files_spec inst pattern :
  if has_wildcard pattern then
    find_optional_files split_tail fnmatch inst pattern
    = fnmatch_filter fnmatch
        (refs_of inst "sqlite" ++ dc_refs inst ++ dc_files inst ++
         tool_output_files inst) pattern
  else
    find_optional_files split_tail fnmatch inst pattern
    = option_list (find_file split_tail inst pattern) ∧
    find_file split_tail inst pattern
    = snd <$> list_find (fun p => split_tail p = pattern) (searched inst).
Proof.
  unfold find_optional_files.
  destruct (has_wildcard pattern).
  - unfold fnmatch_filter, refs_of. rewrite !filter_app.
    by destruct (ds_refs inst !! "sqlite").
  - split.
    + by destruct (find_file _ _ _).
    + by rewrite find_file_first, first_named_find.
Qed.

End LookupFacts.

(** C8 (as the claim has it, refuted).  A mysql reference that matches
    the pattern is not returned. *)
Lemma find_optional_files_skips_mysql :
  let inst := add_ds_ref (init []) "mysql" "mysql://host/db" in
  has_wildcard "*db" = true ∧
  posix_fnmatch "mysql://host/db" "*db" = true ∧
  find_optional_files posix_split_tail posix_fnmatch inst "*db" = [] ∧
  ¬ finds_every_match posix_split_tail posix_fnmatch inst "*db".
Proof.
  intros inst. split_and!; [reflexivity..|].
  intros H. specialize (H eq_refl "mysql://host/db").
  assert ("mysql://host/db" ∈ all_resources inst) as Hin.
  { unfold all_resources. apply elem_of_app. left.
    apply list_elem_of_bind. exists ("mysql", ["mysql://host/db"]).
    split; [simpl; in_list|].
    apply elem_of_map_to_list. reflexivity. }
  specialize (H Hin eq_refl). vm_compute in H. by apply elem_of_nil in H.
Qed.

End ExecutionFacts.

(** ** Runs of the execution driver *)

Module RunFacts.
Import ExecutionInstance.

Lemma started_app ev1 ev2 : started (ev1 ++ ev2) = started ev1 ++ started ev2.
Proof. unfold started. apply omap_app. Qed.

Lemma finish_codes_app ev1 ev2 :
  finish_codes (ev1 ++ ev2) = finish_codes ev1 ++ finish_codes ev2.
Proof. unfold finish_codes. apply omap_app. Qed.

(** Once the slot is disconnected no signal changes anything. *)
Lemma signals_run_disconnected inst signals :
  signals_run inst false signals = (inst, []).
Proof. induction signals as [|s signals IH]; simpl; [done|apply IH]. Qed.

Lemma signals_run_next inst item rest signals :
  execution_list inst = item :: rest →
  signals_run inst true (0%Z :: signals)
  = ((signals_run (set_running inst item rest) true signals).1,
     [SignalDisconnected; SignalConnected; ItemExecute (Some item)]
     ++ (signals_run (set_running inst item rest) true signals).2).
Proof.
  intros Hl. simpl. unfold item_execution_finished. simpl. by rewrite Hl.
Qed.

Lemma signals_run_exhausted inst signals :
  execution_list inst = [] →
  signals_run inst true (0%Z :: signals)
  = (inst, [SignalDisconnected; GraphExecutionFinished 0]).
Proof.
  intros Hl. simpl. unfold item_execution_finished. simpl. rewrite Hl. simpl.
  by rewrite signals_run_disconnected.
Qed.

Lemma signals_run_ended inst code signals :
  code = (-1)%Z ∨ code = (-2)%Z →
  signals_run inst true (code :: signals)
  = (inst, [SignalDisconnected; GraphExecutionFinished code]).
Proof.
  intros [-> | ->]; simpl; by rewrite signals_run_disconnected.
Qed.

Lemma run_to_completion_aux l : ∀ inst more,
  execution_list inst = l →
  let run := signals_run inst true (replicate (S (length l)) 0%Z ++ more) in
  started run.2 = Some <$> l ∧ finish_codes run.2 = [0%Z] ∧
  execution_list run.1 = [].
Proof.
  induction l as [|item rest IH]; intros inst more Hl.
  - simpl replicate. simpl app. rewrite signals_run_exhausted by done.
    by simpl.
  - change (replicate (S (length (item :: rest))) 0%Z ++ more)
      with (0%Z :: (replicate (S (length rest)) 0%Z ++ more)).
    rewrite (signals_run_next inst item rest) by done.
    destruct (IH (set_running inst item rest) more eq_refl)
      as (H1 & H2 & H3).
    cbn zeta in *.
    set (r := signals_run (set_running inst item rest) true _) in *.
    clearbody r. cbn [fst snd].
    by rewrite started_app, finish_codes_app, H1, H2, H3.
Qed.

Lemma run_abandoned_aux k : ∀ inst code more,
  code = (-1)%Z ∨ code = (-2)%Z →
  k ≤ length (execution_list inst) →
  let run := signals_run inst true (replicate k 0%Z ++ code :: more) in
  started run.2 = Some <$> take k (execution_list inst) ∧
  finish_codes run.2 = [code] ∧
  execution_list run.1 = drop k (execution_list inst).
Proof.
  induction k as [|k IH]; intros inst code more Hcode Hk.
  - simpl replicate. simpl app. rewrite signals_run_ended by done.
    rewrite take_0, drop_0. by simpl.
  - destruct (execution_list inst) as [|item rest] eqn:Hl; simpl in Hk;
      [lia|].
    change (replicate (S k) 0%Z ++ code :: more)
      with (0%Z :: (replicate k 0%Z ++ code :: more)).
    rewrite (signals_run_next inst item rest) by done.
    destruct (IH (set_running inst item rest) code more Hcode)
      as (H1 & H2 & H3); [simpl; lia|].
    cbn zeta in *.
    set (r := signals_run (set_running inst item rest) true _) in *.
    clearbody r. cbn [fst snd].
    by rewrite started_app, finish_codes_app, H1, H2, H3.
Qed.

(** X1.  A run that is started and whose items all report CONTINUE
    executes every item of the execution list once, in the order of the
    list, and then emits the graph-finished signal once, with code 0;
    signals that arrive after that change nothing. *)
Theorem driver_runs_every_item inst item rest more :
  execution_list inst = item :: rest →
  ∃ inst1 ev1,
    start_execution inst = Some (inst1, ev1) ∧
    let run := signals_run inst1 (connected_after false ev1)
                 (replicate (S (length rest)) 0%Z ++ more) in
    started (ev1 ++ run.2) = Some <$> (item :: rest) ∧
    finish_codes (ev1 ++ run.2) = [0%Z] ∧
    execution_list run.1 = [].
Proof.
  intros Hl. unfold start_execution. rewrite Hl. do 2 eexists.
  split; [done|]. cbn zeta.
  change (connected_after false _) with true.
  destruct (run_to_completion_aux rest (set_running inst item rest) more
              eq_refl) as (H1 & H2 & H3).
  cbn zeta in *. rewrite started_app, finish_codes_app, H1, H2, H3.
  done.
Qed.

Lemma driver_runs_every_item_witness :
  ∃ inst1 ev1,
    start_execution (init ["A"; "B"; "C"]) = Some (inst1, ev1) ∧
    let run := signals_run inst1 (connected_after false ev1)
                 (replicate 3 0%Z ++ [0%Z; (-1)%Z]) in
    started (ev1 ++ run.2) = Some <$> ["A"; "B"; "C"] ∧
    finish_codes (ev1 ++ run.2) = [0%Z] ∧
    execution_list run.1 = [].
Proof.
  apply (driver_runs_every_item (init ["A"; "B"; "C"]) "A" ["B"; "C"]).
  reflexivity.
Defined.

(** X2.  When the item started after [k] CONTINUE signals reports FAILED
    (-1) or STOPPED (-2), the run has executed the first [k + 1] items
    only, the graph-finished signal is emitted once with that code, and
    the items left in the execution list are never started, whatever
    signals arrive later. *)
Theorem driver_abandons_the_rest inst item rest k code more :
  execution_list inst = item :: rest →
  code = (-1)%Z ∨ code = (-2)%Z →
  k ≤ length rest →
  ∃ inst1 ev1,
    start_execution inst = Some (inst1, ev1) ∧
    let run := signals_run inst1 (connected_after false ev1)
                 (replicate k 0%Z ++ code :: more) in
    started (ev1 ++ run.2) = Some <$> (item :: take k rest) ∧
    finish_codes (ev1 ++ run.2) = [code] ∧
    execution_list run.1 = drop k rest.
Proof.
  intros Hl Hcode Hk. unfold start_execution. rewrite Hl. do 2 eexists.
  split; [done|]. cbn zeta.
  change (connected_after false _) with true.
  destruct (run_abandoned_aux k (set_running inst item rest) code more
              Hcode Hk) as (H1 & H2 & H3).
  cbn zeta in *. rewrite started_app, finish_codes_app, H1, H2, H3.
  done.
Qed.

Lemma driver_abandons_the_rest_witness :
  ∃ inst1 ev1,
    start_execution (init ["A"; "B"; "C"]) = Some (inst1, ev1) ∧
    let run := signals_run inst1 (connected_after false ev1)
                 (replicate 1 0%Z ++ (-1)%Z :: [0%Z; 0%Z]) in
    started (ev1 ++ run.2) = Some <$> ("A" :: take 1 ["B"; "C"]) ∧
    finish_codes (ev1 ++ run.2) = [(-1)%Z] ∧
    execution_list run.1 = drop 1 ["B"; "C"].
Proof.
  apply (driver_abandons_the_rest (init ["A"; "B"; "C"]) "A" ["B"; "C"]).
  - reflexivity.
  - by left.
  - simpl. lia.
Defined.

End RunFacts.

(** ** Publishing resources and finding them *)

Module ResourceFacts.
Import ExecutionInstance ExecutionFacts.

Lemma ds_refs_add_ds_ref inst dialect ref d :
  ds_refs (add_ds_ref inst dialect ref) !! d
  = if decide (dialect = d) then Some (refs_of inst dialect ++ [ref])
    else ds_refs inst !! d.
Proof.
  unfold add_ds_ref, refs_of. simpl. rewrite lookup_insert.
  case_decide; [|done]. by destruct (ds_refs inst !! dialect).
Qed.

Lemma refs_of_add_ds_ref inst dialect ref d :
  refs_of (add_ds_ref inst dialect ref) d
  = if decide (dialect = d) then refs_of inst d ++ [ref] else refs_of inst d.
Proof.
  unfold refs_of at 1. rewrite ds_refs_add_ds_ref.
  by case_decide; subst.
Qed.

Lemma elem_of_searched_add_ds_ref inst dialect ref :
  known_dialect dialect → ref ∈ searched (add_ds_ref inst dialect ref).
Proof.
  unfold known_dialect, searched. intros Hd.
  rewrite !refs_of_add_ds_ref.
  repeat (apply elem_of_cons in Hd as [-> | Hd];
          [rewrite !elem_of_app; simpl;
           rewrite !elem_of_app, !list_elem_of_singleton; tauto|]).
  by apply elem_of_nil in Hd.
Qed.

Lemma elem_of_searched_appended inst before r after :
  r ∈ searched (append_dc_refs inst (before ++ r :: after)) ∧
  r ∈ searched (append_dc_files inst (before ++ r :: after)) ∧
  r ∈ searched (append_tool_output_file inst r).
Proof.
  unfold searched. simpl.
  rewrite !elem_of_app, !elem_of_cons. tauto.
Qed.

Section Lookups.
Variable split_tail : string → string.
Variable fnmatch : string → string → bool.

Lemma first_named_Some paths filename p :
  first_named split_tail paths filename = Some p →
  p ∈ paths ∧ split_tail p = filename.
Proof.
  induction paths as [|q paths IH]; simpl; [done|].
  case_decide.
  - intros [= <-]. split; [apply list_elem_of_here|done].
  - intros [Hin Ht]%IH. split; [by apply list_elem_of_further|done].
Qed.

Lemma first_named_is_Some paths r :
  r ∈ paths →
  ∃ p, first_named split_tail paths (split_tail r) = Some p
       ∧ split_tail p = split_tail r.
Proof.
  induction paths as [|q paths IH]; intros Hin; simpl.
  - by apply elem_of_nil in Hin.
  - case_decide; [by eexists|].
    apply elem_of_cons in Hin as [-> | Hin]; [done|by apply IH].
Qed.

Lemma first_named_fresh paths k r :
  (∀ q, q ∈ paths → split_tail q ≠ split_tail r) →
  first_named split_tail (paths ++ r :: k) (split_tail r) = Some r.
Proof.
  induction paths as [|q paths IH]; intros Hfresh; simpl.
  - by rewrite decide_True.
  - rewrite decide_False by (apply Hfresh, list_elem_of_here).
    apply IH. intros q' Hq'. by apply Hfresh, list_elem_of_further.
Qed.

Lemma first_named_None paths filename :
  (∀ q, q ∈ paths → split_tail q ≠ filename) →
  first_named split_tail paths filename = None.
Proof.
  induction paths as [|q paths IH]; intros Hfresh; simpl; [done|].
  rewrite decide_False by (apply Hfresh, list_elem_of_here).
  apply IH. intros q' Hq'. by apply Hfresh, list_elem_of_further.
Qed.

Lemma find_file_is_Some inst r :
  r ∈ searched inst →
  ∃ p, find_file split_tail inst (split_tail r) = Some p
       ∧ split_tail p = split_tail r.
Proof.
  intros Hin. rewrite find_file_first. by apply first_named_is_Some.
Qed.

(** X3.  A path published through [add_ds_ref] under one of the five
    dialects, [append_dc_refs], [append_dc_files] or
    [append_tool_output_file] is found by its file name: [find_file]
    returns a path with that file name, never [None]. *)
Theorem published_file_is_found inst dialect r before after :
  known_dialect dialect →
  let found inst' :=
    ∃ p, find_file split_tail inst' (split_tail r) = Some p
         ∧ split_tail p = split_tail r in
  found (add_ds_ref inst dialect r) ∧
  found (append_dc_refs inst (before ++ r :: after)) ∧
  found (append_dc_files inst (before ++ r :: after)) ∧
  found (append_tool_output_file inst r).
Proof.
  intros Hd found. unfold found.
  destruct (elem_of_searched_appended inst before r after) as (H1 & H2 & H3).
  split_and!; apply find_file_is_Some; try done.
  by apply elem_of_searched_add_ds_ref.
Qed.

(** X4.  References stored under any other dialect are invisible to
    both lookups: for every file name and every pattern,
    [find_file] and [find_optional_files] answer as before the
    reference was added. *)
Theorem unknown_dialect_is_never_searched inst dialect ref pattern :
  ¬ known_dialect dialect →
  find_file split_tail (add_ds_ref inst dialect ref) pattern
  = find_file split_tail inst pattern ∧
  find_optional_files split_tail fnmatch (add_ds_ref inst dialect ref) pattern
  = find_optional_files split_tail fnmatch inst pattern.
Proof.
  unfold known_dialect. intros Hd.
  assert (∀ d, d ∈ ["sqlite"; "mysql"; "mssql"; "postgresql"; "oracle"] →
               ds_refs (add_ds_ref inst dialect ref) !! d
               = ds_refs inst !! d) as Hsame.
  { intros d Hin. rewrite ds_refs_add_ds_ref.
    case_decide; [by subst|done]. }
  assert (find_file split_tail (add_ds_ref inst dialect ref) pattern
          = find_file split_tail inst pattern) as Hfind.
  { unfold find_file, first_in_dialect.
    rewrite !Hsame by in_list. done. }
  split; [done|]. unfold find_optional_files.
  rewrite Hfind, Hsame by in_list. done.
Qed.

(** X5.  Tool output files are searched last, so publishing one never
    changes an answer already given: a file name that was found is still
    found at the same path, and a wildcard pattern returns its former
    matches followed by the new file if it matches. *)
Theorem tool_output_is_searched_last inst q pattern :
  (∀ p, find_file split_tail inst pattern = Some p →
        find_file split_tail (append_tool_output_file inst q) pattern
        = Some p) ∧
  (has_wildcard pattern = true →
   find_optional_files split_tail fnmatch (append_tool_output_file inst q)
     pattern
   = find_optional_files split_tail fnmatch inst pattern
     ++ (if fnmatch q pattern then [q] else [])).
Proof.
  split.
  - intros p. rewrite !find_file_first.
    replace (searched (append_tool_output_file inst q))
      with (searched inst ++ [q])
      by (unfold searched; simpl; by rewrite <- !app_assoc).
    rewrite first_named_app. by intros ->.
  - intros Hw. unfold find_optional_files. rewrite Hw. simpl.
    unfold fnmatch_filter. rewrite filter_app, <- !app_assoc.
    do 4 f_equal. rewrite filter_cons, filter_nil.
    destruct (fnmatch q pattern); by case_decide.
Qed.

(** X6.  The kind of a resource, not the order of publication, decides
    which of two paths with the same file name is found: a sqlite
    reference whose file name no earlier sqlite reference has is
    returned by [find_file] from the moment it is added, whatever was
    found under that name before. *)
Theorem sqlite_reference_takes_precedence inst ref :
  (∀ q, q ∈ refs_of inst "sqlite" → split_tail q ≠ split_tail ref) →
  find_file split_tail (add_ds_ref inst "sqlite" ref) (split_tail ref)
  = Some ref.
Proof.
  intros Hfresh. rewrite find_file_first. unfold searched.
  rewrite refs_of_add_ds_ref. rewrite decide_True by done.
  rewrite <- !app_assoc. simpl.
  by apply first_named_fresh.
Qed.

End Lookups.

Lemma published_file_is_found_witness :
  let inst := add_ds_ref (init []) "sqlite" "/data/a.sqlite" in
  let found inst' :=
    ∃ p, find_file posix_split_tail inst' "b.sqlite" = Some p
         ∧ posix_split_tail p = "b.sqlite" in
  found (add_ds_ref inst "mysql" "/x/b.sqlite") ∧
  found (append_dc_refs inst ([] ++ "/x/b.sqlite" :: [])) ∧
  found (append_dc_files inst ([] ++ "/x/b.sqlite" :: [])) ∧
  found (append_tool_output_file inst "/x/b.sqlite").
Proof.
  intros inst.
  apply (published_file_is_found posix_split_tail inst "mysql"
           "/x/b.sqlite" [] []).
  unfold known_dialect. in_list.
Defined.

Lemma unknown_dialect_is_never_searched_witness :
  let inst := add_ds_ref (init []) "sqlite" "/data/a.sqlite" in
  find_file posix_split_tail (add_ds_ref inst "sqlite3" "/x/b.db") "b.db"
  = find_file posix_split_tail inst "b.db" ∧
  find_optional_files posix_split_tail posix_fnmatch
    (add_ds_ref inst "sqlite3" "/x/b.db") "b.db"
  = find_optional_files posix_split_tail posix_fnmatch inst "b.db".
Proof.
  intros inst.
  apply (unknown_dialect_is_never_searched posix_split_tail posix_fnmatch
           inst "sqlite3" "/x/b.db" "b.db").
  unfold known_dialect. intros H. not_in_list H.
Defined.

Lemma sqlite_reference_takes_precedence_witness :
  let inst := append_dc_files (init []) ["/files/a.sqlite"] in
  find_file posix_split_tail (add_ds_ref inst "sqlite" "/db/a.sqlite")
    (posix_split_tail "/db/a.sqlite")
  = Some "/db/a.sqlite".
Proof.
  intros inst.
  apply (sqlite_reference_takes_precedence posix_split_tail inst
           "/db/a.sqlite").
  intros q Hq. vm_compute in Hq. by apply elem_of_nil in Hq.
Defined.

End ResourceFacts.

(** ** The edit operations keep the partition *)

Module PartitionFacts.
Import Nx NxFacts DirectedGraphHandler GraphStoreFacts.

(** *** Graphs *)

Lemma elem_of_add_node g n x :
  x ∈ g_nodes (add_node g n) ↔ x ∈ g_nodes g ∨ x = n.
Proof.
  unfold add_node, has_node. case_bool_decide; simpl.
  - split; [by left|]. by intros [?| ->].
  - by rewrite elem_of_app, list_elem_of_singleton.
Qed.

Lemma add_node_edges g n : g_edges (add_node g n) = g_edges g.
Proof. unfold add_node. by destruct (has_node g n). Qed.

Lemma add_node_wf g n : wf g → wf (add_node g n).
Proof.
  intros (Hn & He & Hends). unfold add_node, has_node.
  case_bool_decide as Hin; [done|]. split_and!; simpl; [|done|].
  - apply NoDup_app. split_and!; [done| |apply NoDup_singleton].
    intros x Hx ->%list_elem_of_singleton. done.
  - eapply Forall_impl; [done|]. intros e [H1 H2].
    rewrite !elem_of_app. auto.
Qed.

Lemma elem_of_add_edge_nodes g u v x :
  x ∈ g_nodes (add_edge g u v) ↔ x ∈ g_nodes g ∨ x = u ∨ x = v.
Proof.
  unfold add_edge. destruct (has_edge _ u v); simpl;
    rewrite !elem_of_add_node; tauto.
Qed.

Lemma edge_rel_add_edge g u v x y :
  edge_rel (add_edge g u v) x y ↔ edge_rel g x y ∨ (x = u ∧ y = v).
Proof.
  unfold add_edge, has_edge, edge_rel. rewrite !add_node_edges.
  case_bool_decide as Hin; simpl; rewrite ?add_node_edges.
  - split; [by left|]. intros [?|[-> ->]]; done.
  - rewrite elem_of_app, list_elem_of_singleton. split.
    + intros [?|[= -> ->]]; auto.
    + intros [?|[-> ->]]; auto.
Qed.

Lemma add_edge_wf g u v : wf g → wf (add_edge g u v).
Proof.
  intros Hwf.
  pose proof (add_node_wf _ v (add_node_wf _ u Hwf)) as (Hn & He & Hends).
  unfold add_edge, has_edge. case_bool_decide as Hin; [done|].
  split_and!; simpl; [done| |].
  - apply NoDup_app. split_and!; [done| |apply NoDup_singleton].
    intros e He' ->%list_elem_of_singleton. done.
  - apply Forall_app. split; [done|]. apply Forall_singleton. simpl.
    rewrite !elem_of_add_node. auto.
Qed.

Lemma add_edge_present_nodes g u v :
  u ∈ g_nodes g → v ∈ g_nodes g → g_nodes (add_edge g u v) = g_nodes g.
Proof.
  intros Hu Hv. unfold add_edge.
  rewrite (add_node_present g u Hu), (add_node_present g v Hv).
  by destruct (has_edge g u v).
Qed.

Lemma drop_node_wf g n : wf g → wf (drop_node g n).
Proof.
  intros (Hn & He & Hends). unfold drop_node.
  split_and!; simpl; [by apply NoDup_filter..|].
  apply Forall_forall. intros [x y] [Ht Hin]%list_elem_of_filter.
  apply (proj1 (Forall_forall _ _) Hends) in Hin as [Hx Hy].
  unfold touches in Ht. simpl in *.
  rewrite !list_elem_of_filter. split; split; try done; intros ->; tauto.
Qed.

Lemma edge_rel_drop_node g n x y :
  edge_rel (drop_node g n) x y ↔ edge_rel g x y ∧ x ≠ n ∧ y ≠ n.
Proof.
  unfold edge_rel, drop_node. simpl. rewrite list_elem_of_filter.
  unfold touches. simpl. tauto.
Qed.

Lemma edge_rel_remove_edge_iff g u v g' x y :
  remove_edge g u v = Some g' →
  edge_rel g' x y ↔ edge_rel g x y ∧ (x, y) ≠ (u, v).
Proof.
  intros H. unfold edge_rel. rewrite (remove_edge_edges _ _ _ _ H).
  rewrite list_elem_of_filter. tauto.
Qed.

(** [G.edges()] lists the edges of a [DiGraph] value, each once. *)
Lemma elem_of_edges g e : wf g → e ∈ edges g ↔ e ∈ g_edges g.
Proof.
  intros (Hn & He & Hends). unfold edges, edges_of.
  rewrite list_elem_of_bind. split.
  - intros (n & [v [-> Hv]]%list_elem_of_fmap & _).
    by apply elem_of_successors in Hv.
  - intros Hin. destruct e as [u v]. exists u. split.
    + apply list_elem_of_fmap. exists v. split; [done|].
      by apply elem_of_successors.
    + apply (proj1 (Forall_forall _ _) Hends) in Hin as [Hu _].
      apply list_elem_of_filter. by split.
Qed.

Lemma NoDup_successors g u : NoDup (g_edges g) → NoDup (successors g u).
Proof.
  intros He. unfold successors. apply NoDup_fmap_2_strong.
  - intros [a b] [c d] [Ha _]%list_elem_of_filter [Hc _]%list_elem_of_filter.
    simpl in *. congruence.
  - by apply NoDup_filter.
Qed.

Lemma NoDup_edges g : wf g → NoDup (edges g).
Proof.
  intros (Hn & He & Hends). unfold edges, edges_of. apply NoDup_bind.
  - intros n1 n2 e _ _ [v1 [-> _]]%list_elem_of_fmap
      [v2 [[= -> _] _]]%list_elem_of_fmap. done.
  - intros n _. apply NoDup_fmap_2; [|by apply NoDup_successors].
    by intros v1 v2 [= ->].
  - by apply NoDup_filter.
Qed.

Lemma union_wf g h :
  wf g → wf h → (∀ n, n ∈ g_nodes g → n ∉ g_nodes h) →
  ∃ u, union g h = Some u ∧ wf u ∧
       g_nodes u = g_nodes g ++ g_nodes h ∧
       ∀ x y, edge_rel u x y ↔ edge_rel g x y ∨ edge_rel h x y.
Proof.
  intros Hg Hh Hdis. unfold union.
  rewrite bool_decide_eq_true_2 by by apply Forall_forall.
  eexists. split; [done|]. split_and!; simpl; [|done|].
  - pose proof Hg as (Hgn & _ & Hge). pose proof Hh as (Hhn & _ & Hhe).
    split_and!; simpl.
    + apply NoDup_app. by split_and!.
    + apply NoDup_app. split_and!; [by apply NoDup_edges| |by apply NoDup_edges].
      intros [x y] Hx%elem_of_edges Hy%elem_of_edges; try done.
      apply (proj1 (Forall_forall _ _) Hge) in Hx as [Hx _].
      apply (proj1 (Forall_forall _ _) Hhe) in Hy as [Hy _].
      by apply (Hdis x).
    + apply Forall_app. split; apply Forall_forall; intros e He.
      * apply elem_of_edges in He; [|done].
        apply (proj1 (Forall_forall _ _) Hge) in He as [H1 H2].
        rewrite !elem_of_app. auto.
      * apply elem_of_edges in He; [|done].
        apply (proj1 (Forall_forall _ _) Hhe) in He as [H1 H2].
        rewrite !elem_of_app. auto.
  - intros x y. unfold edge_rel. simpl.
    by rewrite elem_of_app, !elem_of_edges.
Qed.

(** *** Lists of graphs *)

Lemma elem_of_all_nodes dags n :
  n ∈ all_nodes dags ↔ ∃ g, g ∈ dags ∧ n ∈ g_nodes g.
Proof.
  unfold all_nodes. rewrite list_elem_of_bind.
  split; intros (g & H1 & H2); by exists g.
Qed.

Lemma all_nodes_app dags1 dags2 :
  all_nodes (dags1 ++ dags2) = all_nodes dags1 ++ all_nodes dags2.
Proof. apply bind_app. Qed.

Lemma all_nodes_cons g dags : all_nodes (g :: dags) = g_nodes g ++ all_nodes dags.
Proof. apply bind_cons. Qed.

Lemma all_nodes_perm dags1 dags2 :
  dags1 ≡ₚ dags2 → all_nodes dags1 ≡ₚ all_nodes dags2.
Proof. intros H. unfold all_nodes. by rewrite H. Qed.

Lemma store_ok_perm dags1 dags2 :
  dags1 ≡ₚ dags2 → store_ok dags1 → store_ok dags2.
Proof.
  intros H (Hn & Hwf & Hne). unfold store_ok.
  rewrite <- (all_nodes_perm _ _ H), <- !H. done.
Qed.

Lemma held_edge_perm dags1 dags2 u v :
  dags1 ≡ₚ dags2 → held_edge dags1 u v ↔ held_edge dags2 u v.
Proof.
  intros H. unfold held_edge. split; intros (g & Hg & He); exists g.
  - by rewrite <- H.
  - by rewrite H.
Qed.

Lemma held_edge_cons g dags u v :
  held_edge (g :: dags) u v ↔ edge_rel g u v ∨ held_edge dags u v.
Proof.
  unfold held_edge. split.
  - intros (h & [-> | Hh]%elem_of_cons & He); [by left|right; eauto].
  - intros [He | (h & Hh & He)].
    + exists g. split; [apply list_elem_of_here|done].
    + exists h. split; [by apply list_elem_of_further|done].
Qed.

Lemma insert_split (dags : Dags) i g g' :
  dags !! i = Some g → <[i := g']> dags ≡ₚ g' :: delete i dags.
Proof.
  intros Hi. rewrite insert_take_drop by by eapply lookup_lt_Some.
  rewrite delete_take_drop. by rewrite <- Permutation_middle.
Qed.

Lemma delete_insert_same {A} (l : list A) i x :
  delete i (<[i := x]> l) = delete i l.
Proof.
  revert i. induction l as [|a l IH]; intros [|i]; simpl; try done.
  f_equal. apply IH.
Qed.

Lemma delete_app_lt {A} (l k : list A) i :
  i < length l → delete i (l ++ k) = delete i l ++ k.
Proof.
  revert i. induction l as [|a l IH]; intros [|i] Hi; simpl in *;
    try lia; try done.
  f_equal. apply IH. lia.
Qed.

(** In a partition the graph that holds a node is the first and only
    one that does. *)
Lemma store_ok_disjoint dags i g n :
  NoDup (all_nodes dags) → dags !! i = Some g → n ∈ g_nodes g →
  n ∉ all_nodes (delete i dags).
Proof.
  intros Hnd Hi Hn.
  rewrite (all_nodes_perm _ _ (delete_Permutation _ _ _ Hi)),
    all_nodes_cons in Hnd.
  apply NoDup_app in Hnd as (_ & Hdis & _). by apply Hdis.
Qed.

Lemma lookup_delete_other {A} (l : list A) i j x :
  l !! j = Some x → i ≠ j →
  delete i l !! (if decide (j < i) then j else pred j) = Some x.
Proof.
  intros Hj Hne. case_decide.
  - by rewrite list_lookup_delete_lt.
  - rewrite list_lookup_delete_ge by lia.
    replace (S (pred j)) with j by lia. done.
Qed.

Lemma store_ok_lookup dags i g n :
  NoDup (all_nodes dags) → dags !! i = Some g → n ∈ g_nodes g →
  dag_with_node dags n = Some (i, g).
Proof.
  intros Hnd Hi Hn. unfold dag_with_node. apply list_find_Some.
  split_and!; [done|by apply bool_decide_eq_true|].
  intros j h Hj Hlt Hh. apply bool_decide_eq_true in Hh.
  apply (store_ok_disjoint dags i g n Hnd Hi Hn).
  apply elem_of_all_nodes. exists h. split; [|done].
  apply (list_elem_of_lookup_2 _ (if decide (j < i) then j else pred j)).
  apply lookup_delete_other; [done|lia].
Qed.

Lemma dag_with_node_exists dags n :
  n ∈ all_nodes dags →
  ∃ i g, dag_with_node dags n = Some (i, g) ∧ dags !! i = Some g
         ∧ n ∈ g_nodes g.
Proof.
  intros (g & Hg & Hn)%elem_of_all_nodes. unfold dag_with_node.
  destruct (list_find_elem_of (fun dag => has_node dag n = true) dags g)
    as [[i h] Hfind]; [done|by apply bool_decide_eq_true|].
  exists i, h. split; [done|].
  apply list_find_Some in Hfind as (Hi & Hh & _).
  split; [done|]. by apply bool_decide_eq_true in Hh.
Qed.

(** Replacing one graph of a partition by graphs over the same nodes
    gives a partition. *)
Lemma store_ok_replace g rest news :
  store_ok (g :: rest) →
  Forall wf news → Forall (fun h => g_nodes h ≠ []) news →
  NoDup (all_nodes news) →
  (∀ n, n ∈ all_nodes news → n ∈ g_nodes g) →
  store_ok (news ++ rest).
Proof.
  intros (Hnd & Hwf & Hne) Hwf' Hne' Hnd' Hsub.
  rewrite all_nodes_cons in Hnd. apply NoDup_app in Hnd as (_ & Hdis & Hrest).
  apply Forall_cons in Hwf as [_ Hwf]. apply Forall_cons in Hne as [_ Hne].
  unfold store_ok. rewrite all_nodes_app, !Forall_app.
  split_and!; try done.
  apply NoDup_app. split_and!; [done| |done].
  intros n Hn. by apply Hdis, Hsub.
Qed.

(** *** [add_graph_edge] *)

Lemma add_graph_edge_same (dags : Dags) i g src dst :
  store_ok dags → dags !! i = Some g →
  src ∈ g_nodes g → dst ∈ g_nodes g →
  let dags' := <[i := add_edge g src dst]> dags in
  store_ok dags' ∧ all_nodes dags' ≡ₚ all_nodes dags ∧
  (∀ u v, held_edge dags' u v ↔ held_edge dags u v ∨ (u = src ∧ v = dst)) ∧
  ∃ h, h ∈ dags' ∧ src ∈ g_nodes h ∧ dst ∈ g_nodes h.
Proof.
  intros Hok Hi Hs Hd dags'. subst dags'.
  pose proof (insert_split dags i g (add_edge g src dst) Hi) as Hperm.
  pose proof (delete_Permutation _ _ _ Hi) as Hperm0.
  pose proof (store_ok_perm _ _ Hperm0 Hok) as Hok0.
  pose proof (add_edge_present_nodes g src dst Hs Hd) as Hnodes.
  assert (wf g) as Hwf.
  { destruct Hok0 as (_ & Hwf & _). by apply Forall_cons in Hwf as [? _]. }
  split_and!.
  - apply (store_ok_perm (add_edge g src dst :: delete i dags)); [done|].
    destruct Hok0 as (Hnd & Hwf' & Hne).
    unfold store_ok. rewrite all_nodes_cons, Hnodes, !Forall_cons in *.
    split_and!; try tauto.
    + apply add_edge_wf. exact Hwf.
    + rewrite Hnodes. tauto.
  - rewrite (all_nodes_perm _ _ Hperm), (all_nodes_perm _ _ Hperm0).
    by rewrite !all_nodes_cons, Hnodes.
  - intros u v. rewrite (held_edge_perm _ _ u v Hperm),
      (held_edge_perm _ _ u v Hperm0), !held_edge_cons, edge_rel_add_edge.
    tauto.
  - exists (add_edge g src dst). rewrite Hnodes. split; [|done].
    apply list_elem_of_insert. by eapply lookup_lt_Some.
Qed.

Lemma add_graph_edge_merge (dags : Dags) i j g h src dst :
  store_ok dags → dags !! i = Some g → dags !! j = Some h → i ≠ j →
  src ∈ g_nodes g → dst ∈ g_nodes h →
  ∃ u, union g h = Some u ∧
  let dags' := remove_dag (remove_dag (add_dag dags (add_edge u src dst)) i)
                 (if decide (j < i) then j else pred j) in
  store_ok dags' ∧ all_nodes dags' ≡ₚ all_nodes dags ∧
  (∀ x y, held_edge dags' x y ↔ held_edge dags x y ∨ (x = src ∧ y = dst)) ∧
  ∃ k, k ∈ dags' ∧ src ∈ g_nodes k ∧ dst ∈ g_nodes k.
Proof.
  intros Hok Hi Hj Hne Hs Hd.
  set (j' := if decide (j < i) then j else pred j).
  pose proof (lookup_delete_other dags i j h Hj Hne) as Hj'. fold j' in Hj'.
  pose proof (delete_Permutation _ _ _ Hi) as Hp1.
  pose proof (delete_Permutation _ _ _ Hj') as Hp2.
  assert (dags ≡ₚ g :: h :: delete j' (delete i dags)) as Hperm
    by (by rewrite <- Hp2).
  pose proof (store_ok_perm _ _ Hperm Hok) as (Hnd & Hwf & Hnonempty).
  rewrite !all_nodes_cons in Hnd.
  apply Forall_cons in Hwf as [Hwfg Hwf]. apply Forall_cons in Hwf as [Hwfh Hwf].
  apply Forall_cons in Hnonempty as [_ Hnonempty].
  apply Forall_cons in Hnonempty as [_ Hnonempty].
  rewrite app_assoc in Hnd. apply NoDup_app in Hnd as (Hgh & Hdis & Hrest).
  destruct (union_wf g h Hwfg Hwfh) as (u & Hu & Hwfu & Hnu & Heu).
  { apply NoDup_app in Hgh as (_ & H & _). done. }
  exists u. split; [done|]. cbn zeta.
  assert (remove_dag (remove_dag (add_dag dags (add_edge u src dst)) i) j'
          = delete j' (delete i dags) ++ [add_edge u src dst]) as ->.
  { unfold remove_dag, add_dag.
    rewrite delete_app_lt by by eapply lookup_lt_Some.
    by rewrite delete_app_lt by by eapply lookup_lt_Some. }
  assert (g_nodes (add_edge u src dst) = g_nodes g ++ g_nodes h) as Hnodes.
  { rewrite add_edge_present_nodes; [done|..]; rewrite Hnu, elem_of_app; auto. }
  split_and!.
  - unfold store_ok. rewrite all_nodes_app, !Forall_app, !Forall_singleton.
    unfold all_nodes at 2. simpl. rewrite app_nil_r, Hnodes.
    split_and!; try done.
    + apply NoDup_app. split_and!; [done| |done].
      intros n Hn Hn'. by apply (Hdis n Hn').
    + by apply add_edge_wf.
    + intros Heq. apply app_eq_nil in Heq as [Heq _].
      rewrite Heq in Hs. by apply elem_of_nil in Hs.
  - rewrite (all_nodes_perm _ _ Hperm), all_nodes_app, !all_nodes_cons.
    unfold all_nodes at 2. simpl. rewrite app_nil_r, Hnodes.
    etrans; [apply Permutation_app_comm|]. by rewrite <- app_assoc.
  - intros x y.
    rewrite (held_edge_perm _ _ x y Hperm), !held_edge_cons.
    rewrite (held_edge_perm _ (add_edge u src dst :: delete j' (delete i dags)))
      by (by rewrite Permutation_app_comm).
    rewrite held_edge_cons, edge_rel_add_edge, Heu. tauto.
  - exists (add_edge u src dst). rewrite Hnodes, !elem_of_app.
    split_and!; auto. right. apply list_elem_of_here.
Qed.

Lemma add_graph_edge_total dags src dst :
  store_ok dags → src ∈ all_nodes dags → dst ∈ all_nodes dags →
  ∃ dags', add_graph_edge dags src dst = Some dags' ∧
    store_ok dags' ∧ all_nodes dags' ≡ₚ all_nodes dags ∧
    (∀ u v, held_edge dags' u v ↔ held_edge dags u v ∨ (u = src ∧ v = dst)) ∧
    ∃ g, g ∈ dags' ∧ src ∈ g_nodes g ∧ dst ∈ g_nodes g.
Proof.
  intros Hok Hs Hd.
  destruct (dag_with_node_exists dags src Hs) as (i & g & Hfs & Hi & Hsg).
  destruct (dag_with_node_exists dags dst Hd) as (j & h & Hfd & Hj & Hdh).
  unfold add_graph_edge. rewrite Hfs, Hfd. simpl.
  destruct (decide (src = dst)) as [<-|Hne].
  { eexists. split; [done|]. by apply add_graph_edge_same. }
  destruct (decide (Some i = Some j)) as [[= <-]|Hij].
  { assert (h = g) as -> by congruence.
    eexists. split; [done|]. by apply add_graph_edge_same. }
  destruct (add_graph_edge_merge dags i j g h src dst) as (u & -> & H);
    try done; [congruence|].
  simpl. eexists. split; [done|]. exact H.
Qed.

Lemma add_graph_edge_missing dags src dst :
  src ∉ all_nodes dags ∨ dst ∉ all_nodes dags →
  add_graph_edge dags src dst = None.
Proof.
  assert (∀ n, n ∉ all_nodes dags → dag_with_node dags n = None) as Hnone.
  { intros n Hn. unfold dag_with_node. apply list_find_None, Forall_forall.
    intros g Hg Hh. apply bool_decide_eq_true in Hh.
    apply Hn, elem_of_all_nodes. eauto. }
  intros H. unfold add_graph_edge.
  destruct (decide (src = dst)) as [<-|Hne].
  { rewrite Hnone; [done|]. by destruct H. }
  destruct H as [H|H]; rewrite (Hnone _ H).
  - simpl. by destruct (decide _).
  - by destruct (dag_with_node dags src) as [[i g]|].
Qed.

(** *** [remove_graph_edge] *)

Lemma replace_split (dags : Dags) i g g' hs :
  dags !! i = Some g →
  <[i := g']> dags ++ hs ≡ₚ (g' :: hs) ++ delete i dags.
Proof.
  intros Hi. rewrite (insert_split dags i g g' Hi). simpl.
  apply Permutation_skip, Permutation_app_comm.
Qed.

Lemma filter_out_perm {A} `{EqDecision A} (l : list A) (x : A) :
  NoDup l → x ∈ l → filter (fun y => y ≠ x) l ++ [x] ≡ₚ l.
Proof.
  intros Hnd Hx. apply NoDup_Permutation; [|done|].
  - apply NoDup_app. split_and!; [by apply NoDup_filter| |apply NoDup_singleton].
    intros y [Hy _]%list_elem_of_filter ->%list_elem_of_singleton. done.
  - intros y. rewrite elem_of_app, list_elem_of_filter, list_elem_of_singleton.
    split; [intros [[_ ?]| ->]; done|].
    intros Hy. destruct (decide (y = x)); auto.
Qed.

Lemma held_edge_app dags1 dags2 u v :
  held_edge (dags1 ++ dags2) u v ↔ held_edge dags1 u v ∨ held_edge dags2 u v.
Proof.
  unfold held_edge. split.
  - intros (g & [Hg|Hg]%elem_of_app & He); eauto.
  - intros [(g & Hg & He)|(g & Hg & He)]; exists g;
      rewrite elem_of_app; auto.
Qed.

Lemma held_edge_nil u v : ¬ held_edge [] u v.
Proof. intros (g & Hg & _). by apply elem_of_nil in Hg. Qed.

(** Replacing the graph at [i] by a graph [g'] and new graphs [hs]
    that share out its nodes and keep a given set of its edges. *)
Lemma store_ok_replace_at (dags : Dags) i g g' hs :
  store_ok dags → dags !! i = Some g →
  Forall wf (g' :: hs) → Forall (fun h => g_nodes h ≠ []) (g' :: hs) →
  all_nodes (g' :: hs) ≡ₚ g_nodes g →
  store_ok (<[i := g']> dags ++ hs) ∧
  all_nodes (<[i := g']> dags ++ hs) ≡ₚ all_nodes dags ∧
  ∀ u v, held_edge (<[i := g']> dags ++ hs) u v
         ↔ held_edge (g' :: hs) u v ∨ held_edge (delete i dags) u v.
Proof.
  intros Hok Hi Hwf Hne Hnodes.
  pose proof (delete_Permutation _ _ _ Hi) as Hp0.
  pose proof (store_ok_perm _ _ Hp0 Hok) as Hok0.
  pose proof (replace_split dags i g g' hs Hi) as Hp.
  split_and!.
  - apply (store_ok_perm _ _ (symmetry Hp)).
    apply (store_ok_replace g); try done.
    + rewrite Hnodes. destruct Hok0 as (Hnd & _).
      rewrite all_nodes_cons in Hnd. by apply NoDup_app in Hnd as (? & _).
    + intros n. by rewrite Hnodes.
  - rewrite (all_nodes_perm _ _ Hp), (all_nodes_perm _ _ Hp0).
    by rewrite all_nodes_app, all_nodes_cons, Hnodes.
  - intros u v. by rewrite (held_edge_perm _ _ u v Hp), held_edge_app.
Qed.

Lemma degree_zero_drop_node g n x y :
  degree g n = 0 → edge_rel (drop_node g n) x y ↔ edge_rel g x y.
Proof.
  intros Hd. rewrite edge_rel_drop_node. split; [tauto|].
  intros He. by destruct (degree_zero_edges g n Hd x y He).
Qed.

Lemma remove_graph_edge_isolated_ok (dags : Dags) i dag0 dag src dst a :
  store_ok dags → dags !! i = Some dag0 →
  remove_edge dag0 src dst = Some dag →
  src ∈ g_nodes dag0 → dst ∈ g_nodes dag0 → src ≠ dst →
  a = src ∨ a = dst → degree dag a = 0 →
  let dags' := <[i := drop_node dag a]> dags ++ [mkDiGraph [a] []] in
  store_ok dags' ∧ all_nodes dags' ≡ₚ all_nodes dags ∧
  ∀ u v, held_edge dags' u v ↔ held_edge dags u v ∧ (u, v) ≠ (src, dst).
Proof.
  intros Hok Hi Hrm Hs Hd Hne Ha Hdeg dags'. subst dags'.
  pose proof (delete_Permutation _ _ _ Hi) as Hp0.
  assert (wf dag0) as Hwf0.
  { destruct Hok as (_ & Hwf & _).
    apply (proj1 (Forall_forall _ _) Hwf). by eapply list_elem_of_lookup_2. }
  pose proof (remove_edge_wf _ _ _ _ Hwf0 Hrm) as Hwf.
  pose proof (remove_edge_nodes _ _ _ _ Hrm) as Hnodes.
  assert (a ∈ g_nodes dag) as Hain
    by (rewrite Hnodes; by destruct Ha as [-> | ->]).
  destruct (store_ok_replace_at dags i dag0 (drop_node dag a)
              [mkDiGraph [a] []]) as (H1 & H2 & H3); try done.
  - apply Forall_cons. split; [by apply drop_node_wf|].
    apply Forall_singleton. split_and!; simpl;
      [apply NoDup_singleton|constructor|constructor].
  - apply Forall_cons. split; [|by apply Forall_singleton].
    simpl. intros Heq.
    assert (∃ b, b ≠ a ∧ b ∈ g_nodes dag) as (b & Hb & Hbin).
    { destruct Ha as [-> | ->]; [exists dst|exists src];
        rewrite Hnodes; split; congruence. }
    assert (b ∈ filter (fun m => m ≠ a) (g_nodes dag)) as Hin
      by (apply list_elem_of_filter; by split).
    rewrite Heq in Hin. by apply elem_of_nil in Hin.
  - rewrite all_nodes_cons. unfold all_nodes. simpl.
    rewrite <- Hnodes. apply filter_out_perm; [by destruct Hwf|done].
  - split_and!; [done..|]. intros u v. rewrite H3.
    rewrite (held_edge_perm _ _ u v Hp0), !held_edge_cons.
    rewrite degree_zero_drop_node by done.
    rewrite (edge_rel_remove_edge_iff _ _ _ _ u v Hrm).
    assert (¬ edge_rel (mkDiGraph [a] []) u v) as Hno
      by (unfold edge_rel; simpl; apply not_elem_of_nil).
    assert (held_edge (delete i dags) u v → (u, v) ≠ (src, dst)) as Hother.
    { intros (h & Hh & He) [= -> ->].
      destruct Hok as (Hnd & Hwfs & _).
      apply (store_ok_disjoint dags i dag0 src Hnd Hi Hs).
      apply elem_of_all_nodes. exists h. split; [done|].
      assert (wf h) as Hwfh.
      { apply (proj1 (Forall_forall _ _) Hwfs).
        by eapply list_elem_of_delete_inv. }
      by destruct (wf_edge_nodes h src dst Hwfh He). }
    pose proof (held_edge_nil u v). tauto.
Qed.

Lemma remove_edge_in_place_ok (dags : Dags) i dag0 dag src dst :
  store_ok dags → dags !! i = Some dag0 →
  remove_edge dag0 src dst = Some dag → src ∈ g_nodes dag0 →
  let dags' := <[i := dag]> dags in
  store_ok dags' ∧ all_nodes dags' ≡ₚ all_nodes dags ∧
  ∀ u v, held_edge dags' u v ↔ held_edge dags u v ∧ (u, v) ≠ (src, dst).
Proof.
  intros Hok Hi Hrm Hs dags'. subst dags'.
  pose proof (delete_Permutation _ _ _ Hi) as Hp0.
  assert (wf dag0) as Hwf0.
  { destruct Hok as (_ & Hwf & _).
    apply (proj1 (Forall_forall _ _) Hwf). by eapply list_elem_of_lookup_2. }
  pose proof (remove_edge_wf _ _ _ _ Hwf0 Hrm) as Hwf.
  pose proof (remove_edge_nodes _ _ _ _ Hrm) as Hnodes.
  destruct (store_ok_replace_at dags i dag0 dag []) as (H1 & H2 & H3);
    try done.
  - by apply Forall_singleton.
  - apply Forall_singleton. rewrite Hnodes. intros Heq.
    rewrite Heq in Hs. by apply elem_of_nil in Hs.
  - rewrite all_nodes_cons. unfold all_nodes. simpl.
    by rewrite app_nil_r, Hnodes.
  - rewrite app_nil_r in H1, H2, H3. split_and!; [done..|].
    intros u v. rewrite H3.
    rewrite (held_edge_perm _ _ u v Hp0), !held_edge_cons.
    rewrite (edge_rel_remove_edge_iff _ _ _ _ u v Hrm).
    assert (held_edge (delete i dags) u v → (u, v) ≠ (src, dst)) as Hother.
    { intros (h & Hh & He) [= -> ->].
      destruct Hok as (Hnd & Hwfs & _).
      apply (store_ok_disjoint dags i dag0 src Hnd Hi Hs).
      apply elem_of_all_nodes. exists h. split; [done|].
      assert (wf h) as Hwfh.
      { apply (proj1 (Forall_forall _ _) Hwfs).
        by eapply list_elem_of_delete_inv. }
      by destruct (wf_edge_nodes h src dst Hwfh He). }
    pose proof (held_edge_nil u v). tauto.
Qed.

Lemma remove_graph_edge_unsplit dags src dst i dag0 dag :
  store_ok dags →
  dag_with_edge dags src dst = Some (i, dag0) →
  remove_edge dag0 src dst = Some dag →
  src = dst ∨ degree dag src = 0 ∨ degree dag dst = 0
  ∨ nodes_connected dag src dst = Some true →
  ∃ dags', remove_graph_edge dags src dst = Some dags' ∧
    store_ok dags' ∧ all_nodes dags' ≡ₚ all_nodes dags ∧
    ∀ u v, held_edge dags' u v ↔ held_edge dags u v ∧ (u, v) ≠ (src, dst).
Proof.
  intros Hok Hedge Hrm Hcase.
  pose proof Hedge as Hfind. unfold dag_with_edge in Hfind.
  apply list_find_Some in Hfind as (Hi & He & _).
  apply bool_decide_eq_true in He.
  assert (wf dag0) as Hwf0.
  { destruct Hok as (_ & Hwf & _).
    apply (proj1 (Forall_forall _ _) Hwf). by eapply list_elem_of_lookup_2. }
  destruct (wf_edge_nodes dag0 src dst Hwf0 He) as [Hs Hd].
  destruct (decide (src = dst)) as [<-|Hne].
  { unfold remove_graph_edge. rewrite Hedge. simpl. rewrite Hrm. simpl.
    rewrite decide_True by done. eexists. split; [done|].
    by apply (remove_edge_in_place_ok dags i dag0 dag src src). }
  destruct Hok as (Hnd & Hrest). 
  destruct (remove_graph_edge_cases dags src dst i dag0 dag) as [-> _];
    try done; try by apply store_ok_lookup.
  assert (store_ok dags) as Hok by done.
  case_bool_decide as Hds.
  { eexists. split; [done|].
    apply (remove_graph_edge_isolated_ok dags i dag0 dag src dst src);
      auto. }
  case_bool_decide as Hdd.
  { eexists. split; [done|].
    apply (remove_graph_edge_isolated_ok dags i dag0 dag src dst dst);
      auto. }
  destruct Hcase as [?|[?|[?|Hconn]]]; try done.
  rewrite Hconn. simpl. eexists. split; [done|].
  by apply (remove_edge_in_place_ok dags i dag0 dag src dst).
Qed.

(** *** [remove_node_from_graph] *)

Lemma remove_nodes_from_spec ns : ∀ g,
  wf g →
  wf (remove_nodes_from g ns) ∧
  (∀ x, x ∈ g_nodes (remove_nodes_from g ns) ↔ x ∈ g_nodes g ∧ (x ∉ ns)) ∧
  (∀ x y, edge_rel (remove_nodes_from g ns) x y
          ↔ edge_rel g x y ∧ (x ∉ ns) ∧ (y ∉ ns)).
Proof.
  unfold remove_nodes_from.
  induction ns as [|n ns IH]; intros g Hwf; simpl.
  - split_and!; [done|..]; intros; rewrite ?elem_of_nil; tauto.
  - destruct (IH (drop_node g n) (drop_node_wf g n Hwf)) as (H1 & H2 & H3).
    split_and!; [done|..].
    + intros x. rewrite H2, not_elem_of_cons. unfold drop_node. simpl.
      rewrite list_elem_of_filter. tauto.
    + intros x y. rewrite H3, edge_rel_drop_node, !not_elem_of_cons. tauto.
Qed.

Lemma node_is_isolated_allowing_self_loop dags n i g :
  dag_with_node dags n = Some (i, g) →
  node_is_isolated dags n true = Some (isolated_but_for_self_loop g n).
Proof.
  intros H. unfold node_is_isolated, isolated_but_for_self_loop, is_isolate.
  rewrite H. simpl. f_equal.
  destruct (has_edge g n n); simpl; apply bool_decide_ext; lia.
Qed.

Lemma singleton_of_eq g n :
  (if has_edge g n n
   then add_edge (add_node empty_graph n) n n
   else add_node empty_graph n) = singleton_of g n.
Proof.
  unfold singleton_of. destruct (has_edge g n n); [|done].
  change (add_node empty_graph n) with (mkDiGraph [n] []).
  rewrite add_edge_fresh; simpl; [done|in_list|in_list|].
  apply not_elem_of_nil.
Qed.

Lemma singleton_of_spec g n :
  wf (singleton_of g n) ∧ g_nodes (singleton_of g n) = [n] ∧
  ∀ x y, edge_rel (singleton_of g n) x y
         ↔ x = n ∧ y = n ∧ edge_rel g n n.
Proof.
  unfold singleton_of, has_edge, edge_rel. case_bool_decide as Hl; simpl.
  - split_and!; [|done|].
    + split_and!; simpl; [apply NoDup_singleton..|].
      apply Forall_singleton. simpl. split; in_list.
    + intros x y. rewrite list_elem_of_singleton. split.
      * by intros [= -> ->].
      * by intros (-> & -> & _).
  - split_and!; [|done|].
    + split_and!; simpl; [apply NoDup_singleton|constructor|constructor].
    + intros x y. rewrite elem_of_nil. split; [done|].
      by intros (-> & -> & ?).
Qed.

(** The sweep visits the nodes of the edited graph [g], which stays the
    graph that [node_is_isolated] consults, and appends one graph per
    isolated node. *)
Lemma sweep_spec (dags1 : Dags) i g todo : ∀ acc ntr,
  (∀ n extra, n ∈ todo → dag_with_node (dags1 ++ extra) n = Some (i, g)) →
  sweep g todo (dags1 ++ acc) ntr
  = Some (dags1 ++ acc
          ++ (singleton_of g <$>
              filter (fun n => isolated_but_for_self_loop g n = true) todo),
          ntr ++ filter (fun n => isolated_but_for_self_loop g n = true) todo).
Proof.
  induction todo as [|n todo IH]; intros acc ntr Hfind; simpl.
  - by rewrite !app_nil_r.
  - rewrite (node_is_isolated_allowing_self_loop _ n i g)
      by (apply Hfind, list_elem_of_here).
    simpl. rewrite filter_cons.
    assert (∀ m extra, m ∈ todo →
              dag_with_node (dags1 ++ extra) m = Some (i, g)) as Hfind'
      by (intros m extra Hm; by apply Hfind, list_elem_of_further).
    destruct (isolated_but_for_self_loop g n) eqn:Hiso.
    + rewrite decide_True by done. rewrite singleton_of_eq.
      unfold add_dag. rewrite <- app_assoc. rewrite (IH _ _ Hfind').
      simpl. by rewrite <- !app_assoc.
    + rewrite decide_False by done. by apply IH.
Qed.

Lemma all_nodes_singletons g ns : all_nodes (singleton_of g <$> ns) = ns.
Proof.
  induction ns as [|n ns IH]; [done|].
  rewrite fmap_cons, all_nodes_cons, IH.
  by destruct (singleton_of_spec g n) as (_ & -> & _).
Qed.

Lemma held_edge_singletons g ns u v :
  held_edge (singleton_of g <$> ns) u v
  ↔ u ∈ ns ∧ v = u ∧ edge_rel g u u.
Proof.
  unfold held_edge. split.
  - intros (h & (n & -> & Hn)%list_elem_of_fmap & He).
    apply singleton_of_spec in He as (-> & -> & He). done.
  - intros (Hu & -> & He). exists (singleton_of g u). split.
    + apply list_elem_of_fmap. eauto.
    + by apply singleton_of_spec.
Qed.

(** What is left of the graph [g0] that held the removed node, in the
    place of [g0]: a partition of the other nodes with the edges among
    them. *)
Lemma remove_node_finish g0 rest news name :
  store_ok (g0 :: rest) → name ∈ g_nodes g0 →
  Forall wf news → Forall (fun h => g_nodes h ≠ []) news →
  all_nodes news ≡ₚ filter (fun n => n ≠ name) (g_nodes g0) →
  (∀ u v, held_edge news u v ↔ edge_rel g0 u v ∧ u ≠ name ∧ v ≠ name) →
  store_ok (news ++ rest) ∧
  all_nodes (news ++ rest)
  ≡ₚ filter (fun n => n ≠ name) (all_nodes (g0 :: rest)) ∧
  ∀ u v, held_edge (news ++ rest) u v
         ↔ held_edge (g0 :: rest) u v ∧ u ≠ name ∧ v ≠ name.
Proof.
  intros Hok Hname Hwf Hne Hnodes Hedges.
  pose proof Hok as (Hnd & Hwfs & _).
  rewrite all_nodes_cons in Hnd.
  apply NoDup_app in Hnd as (Hg0 & Hdis & Hrest).
  apply Forall_cons in Hwfs as [Hwf0 Hwfrest].
  assert (∀ n, n ∈ all_nodes rest → n ≠ name) as Hfree.
  { intros n Hn ->. by apply (Hdis name). }
  split_and!.
  - apply (store_ok_replace g0); try done.
    + rewrite Hnodes. by apply NoDup_filter.
    + intros n. rewrite Hnodes. by intros [_ ?]%list_elem_of_filter.
  - rewrite all_nodes_app, all_nodes_cons, filter_app, Hnodes.
    by rewrite (filter_all _ (all_nodes rest)).
  - intros u v. rewrite held_edge_app, held_edge_cons, Hedges.
    assert (held_edge rest u v → u ≠ name ∧ v ≠ name) as Hother.
    { intros (h & Hh & He).
      assert (wf h) as Hwfh by by apply (proj1 (Forall_forall _ _) Hwfrest).
      destruct (wf_edge_nodes h u v Hwfh He) as [Hu Hv].
      split; apply Hfree, elem_of_all_nodes; eauto. }
    tauto.
Qed.

Lemma remove_node_from_graph_ok dags name :
  store_ok dags → name ∈ all_nodes dags →
  ∃ dags', remove_node_from_graph dags name = Some dags' ∧
    store_ok dags' ∧
    all_nodes dags' ≡ₚ filter (fun n => n ≠ name) (all_nodes dags) ∧
    ∀ u v, held_edge dags' u v ↔ held_edge dags u v ∧ u ≠ name ∧ v ≠ name.
Proof.
  intros Hok Hin.
  destruct (dag_with_node_exists dags name Hin) as (i & g0 & Hf & Hi & Hn).
  pose proof (delete_Permutation _ _ _ Hi) as Hp0.
  pose proof (store_ok_perm _ _ Hp0 Hok) as Hok0.
  pose proof Hok0 as (Hnd0 & Hwfs0 & _).
  apply Forall_cons in Hwfs0 as [Hwf0 _].
  rewrite all_nodes_cons in Hnd0.
  apply NoDup_app in Hnd0 as (_ & Hdis0 & Hndrest).
  unfold remove_node_from_graph. rewrite Hf. simpl.
  set (g1 := remove_edges_from g0 _).
  assert (wf g1) as Hwf1.
  { destruct Hwf0 as (H1 & H2 & H3). unfold g1, remove_edges_from.
    split_and!; simpl; [done|by apply NoDup_filter|].
    apply Forall_forall. intros e [_ He]%list_elem_of_filter.
    by apply (proj1 (Forall_forall _ _) H3). }
  assert (remove_node g1 name = Some (drop_node g1 name)) as ->.
  { unfold remove_node, has_node. by rewrite bool_decide_eq_true_2. }
  simpl. set (g := drop_node g1 name).
  assert (wf g) as Hwf by by apply drop_node_wf.
  assert (g_nodes g = filter (fun n => n ≠ name) (g_nodes g0)) as Hgn by done.
  assert (∀ x y, edge_rel g x y ↔ edge_rel g0 x y ∧ x ≠ name ∧ y ≠ name)
    as Hge.
  { intros x y. unfold g. rewrite edge_rel_drop_node.
    unfold g1, remove_edges_from, edge_rel. simpl.
    rewrite list_elem_of_filter. split; [tauto|].
    intros (He & Hx & Hy). split_and!; try done.
    intros [Ht _]%list_elem_of_filter. destruct Ht; simpl in *; congruence. }
  clearbody g. clear g1 Hwf1.
  set (dags1 := <[i := g]> dags).
  assert (i < length dags) as Hlen by by eapply lookup_lt_Some.
  assert (∀ n extra, n ∈ g_nodes g →
            dag_with_node (dags1 ++ extra) n = Some (i, g)) as Hfind.
  { intros n extra Hng. unfold dag_with_node. apply list_find_app_l.
    apply store_ok_lookup; [|by apply list_lookup_insert_eq|done].
    unfold dags1.
    rewrite (all_nodes_perm _ _ (insert_split dags i g0 g Hi)), all_nodes_cons.
    apply NoDup_app. split_and!; [by destruct Hwf| |done].
    intros x Hx. apply Hdis0. rewrite Hgn in Hx.
    by apply list_elem_of_filter in Hx as [_ ?]. }
  pose proof (sweep_spec dags1 i g (g_nodes g) [] [] Hfind) as Hsw.
  rewrite app_nil_r in Hsw. simpl in Hsw. rewrite <- Hgn, Hsw. clear Hsw. simpl.
  set (ntr := filter (fun n => isolated_but_for_self_loop g n = true)
                (g_nodes g)).
  destruct (remove_nodes_from_spec ntr g Hwf) as (Hwf' & Hgn' & Hge').
  set (g' := remove_nodes_from g ntr) in *.
  assert (<[i := g']> (dags1 ++ (singleton_of g <$> ntr))
          = <[i := g']> dags ++ (singleton_of g <$> ntr)) as ->.
  { unfold dags1. rewrite insert_app_l by by rewrite length_insert.
    by rewrite list_insert_insert_eq. }
  assert (g_nodes g' ++ ntr ≡ₚ g_nodes g) as Hpn.
  { apply NoDup_Permutation.
    - apply NoDup_app. split_and!; [by destruct Hwf'| |].
      + intros x Hx. by apply Hgn' in Hx as [_ ?].
      + apply NoDup_filter. by destruct Hwf.
    - by destruct Hwf.
    - intros x. rewrite elem_of_app, Hgn'. unfold ntr.
      rewrite list_elem_of_filter. destruct (decide (x ∈ ntr)) as [Hx|Hx].
      + unfold ntr in Hx. apply list_elem_of_filter in Hx. tauto.
      + unfold ntr in Hx. rewrite list_elem_of_filter in Hx. tauto. }
  assert (∀ u v, held_edge (g' :: (singleton_of g <$> ntr)) u v
                 ↔ edge_rel g u v) as Hheld.
  { intros u v. rewrite held_edge_cons, held_edge_singletons, Hge'. split.
    - intros [(? & _)|(_ & -> & ?)]; done.
    - intros He. destruct (decide (u ∈ ntr)) as [Hu|Hu].
      + right. pose proof Hu as Hu'. unfold ntr in Hu'.
        apply list_elem_of_filter in Hu' as [Hiso _].
        destruct (lone_loop_edges g u Hiso u v He) as [_ ->]; auto.
      + destruct (decide (v ∈ ntr)) as [Hv|Hv]; [|by left].
        right. pose proof Hv as Hv'. unfold ntr in Hv'.
        apply list_elem_of_filter in Hv' as [Hiso _].
        destruct (lone_loop_edges g v Hiso u v He) as [-> _]; auto. }
  assert (Forall wf (singleton_of g <$> ntr)
          ∧ Forall (fun h => g_nodes h ≠ []) (singleton_of g <$> ntr))
    as [Hwfhs Hnehs].
  { split; apply Forall_fmap, Forall_forall; intros n _; simpl;
      destruct (singleton_of_spec g n) as (H1 & H2 & _); [done|].
    by rewrite H2. }
  case_bool_decide as Hempty.
  - unfold remove_dag. rewrite delete_app_lt by by rewrite length_insert.
    rewrite delete_insert_same.
    eexists. split; [done|].
    destruct (remove_node_finish g0 (delete i dags) (singleton_of g <$> ntr)
                name) as (H1 & H2 & H3); try done.
    + rewrite all_nodes_singletons, <- Hgn, <- Hpn, Hempty. done.
    + intros u v. rewrite <- Hge, <- Hheld, held_edge_cons.
      assert (¬ edge_rel g' u v) as Hno.
      { intros He. destruct (wf_edge_nodes g' u v Hwf' He) as [Hu _].
        rewrite Hempty in Hu. by apply elem_of_nil in Hu. }
      tauto.
    + pose proof (Permutation_app_comm (delete i dags)
                    (singleton_of g <$> ntr)) as Hp.
      split_and!.
      * by apply (store_ok_perm _ _ (symmetry Hp)).
      * rewrite (all_nodes_perm _ _ Hp), H2.
        by rewrite (all_nodes_perm _ _ Hp0).
      * intros u v. rewrite (held_edge_perm _ _ u v Hp), H3.
        by rewrite (held_edge_perm _ _ u v Hp0).
  - eexists. split; [done|].
    destruct (remove_node_finish g0 (delete i dags)
                (g' :: (singleton_of g <$> ntr)) name) as (H1 & H2 & H3);
      try done.
    + by apply Forall_cons.
    + by apply Forall_cons.
    + by rewrite all_nodes_cons, all_nodes_singletons, <- Hgn.
    + intros u v. by rewrite <- Hge.
    + pose proof (replace_split dags i g0 g' (singleton_of g <$> ntr) Hi)
        as Hp.
      split_and!.
      * by apply (store_ok_perm _ _ (symmetry Hp)).
      * rewrite (all_nodes_perm _ _ Hp), H2.
        by rewrite (all_nodes_perm _ _ Hp0).
      * intros u v. rewrite (held_edge_perm _ _ u v Hp), H3.
        by rewrite (held_edge_perm _ _ u v Hp0).
Qed.

Lemma remove_missing (dags : Dags) src dst name :
  ((∀ g, g ∈ dags → has_edge g src dst = false) →
   remove_graph_edge dags src dst = None) ∧
  (name ∉ all_nodes dags → remove_node_from_graph dags name = None).
Proof.
  split.
  - intros H. unfold remove_graph_edge, dag_with_edge.
    rewrite (proj2 (list_find_None _ _)); [done|].
    apply Forall_forall. intros g Hg. rewrite (H g Hg). done.
  - intros H. unfold remove_node_from_graph, dag_with_node.
    rewrite (proj2 (list_find_None _ _)); [done|].
    apply Forall_forall. intros g Hg Hh. apply bool_decide_eq_true in Hh.
    apply H, elem_of_all_nodes. eauto.
Qed.

(** X7.  On a list that partitions its nodes, [add_graph_edge] between
    two nodes that are there succeeds and keeps the partition: the same
    nodes, each still in exactly one graph, no graph empty; the edges
    held are the former ones and the new edge; and the two end points end
    in the same graph. *)
Theorem add_graph_edge_keeps_partition dags src dst :
  store_ok dags → src ∈ all_nodes dags → dst ∈ all_nodes dags →
  ∃ dags', add_graph_edge dags src dst = Some dags' ∧
    store_ok dags' ∧ all_nodes dags' ≡ₚ all_nodes dags ∧
    (∀ u v, held_edge dags' u v ↔ held_edge dags u v ∨ (u = src ∧ v = dst)) ∧
    ∃ g, g ∈ dags' ∧ src ∈ g_nodes g ∧ dst ∈ g_nodes g.
Proof. apply add_graph_edge_total. Qed.

Lemma add_graph_edge_keeps_partition_witness :
  let a := NStr "a" in let b := NStr "b" in let c := NStr "c" in
  let dags := [mkDiGraph [a; b] [(a, b)]; mkDiGraph [c] []] in
  ∃ dags', add_graph_edge dags c a = Some dags' ∧
    store_ok dags' ∧ all_nodes dags' ≡ₚ all_nodes dags ∧
    (∀ u v, held_edge dags' u v ↔ held_edge dags u v ∨ (u = c ∧ v = a)) ∧
    ∃ g, g ∈ dags' ∧ c ∈ g_nodes g ∧ a ∈ g_nodes g.
Proof.
  intros a b c dags. apply (add_graph_edge_keeps_partition dags c a).
  - apply (bool_decide_unpack _). by vm_compute.
  - vm_compute. in_list.
  - vm_compute. in_list.
Defined.

(** X8.  The edit operations raise, and leave the list alone, when what
    they work on is missing: [add_graph_edge] when an end point is in no
    graph, [remove_graph_edge] when no graph has the edge,
    [remove_node_from_graph] when no graph has the node. *)
Theorem edit_operations_raise_on_missing dags src dst name :
  (src ∉ all_nodes dags ∨ dst ∉ all_nodes dags →
   add_graph_edge dags src dst = None) ∧
  ((∀ g, g ∈ dags → has_edge g src dst = false) →
   remove_graph_edge dags src dst = None) ∧
  (name ∉ all_nodes dags → remove_node_from_graph dags name = None).
Proof.
  split; [apply add_graph_edge_missing|apply remove_missing].
Qed.

(** X9.  On a list that partitions its nodes, [remove_node_from_graph]
    of a node that is there succeeds and keeps the partition: the node
    is in no graph afterwards, every other node is still in exactly one
    graph, no graph is empty, and the edges held are the former ones that
    do not touch the node (a self-loop of a node that the sweep moves
    into a graph of its own is kept). *)
Theorem remove_node_from_graph_keeps_partition dags name :
  store_ok dags → name ∈ all_nodes dags →
  ∃ dags', remove_node_from_graph dags name = Some dags' ∧
    store_ok dags' ∧
    all_nodes dags' ≡ₚ filter (fun n => n ≠ name) (all_nodes dags) ∧
    ∀ u v, held_edge dags' u v ↔ held_edge dags u v ∧ u ≠ name ∧ v ≠ name.
Proof. apply remove_node_from_graph_ok. Qed.

Lemma remove_node_from_graph_keeps_partition_witness :
  let a := NStr "a" in let b := NStr "b" in let c := NStr "c" in
  let dags := [mkDiGraph [a; b; c] [(a, b); (b, c); (c, c)]] in
  ∃ dags', remove_node_from_graph dags b = Some dags' ∧
    store_ok dags' ∧
    all_nodes dags' ≡ₚ filter (fun n => n ≠ b) (all_nodes dags) ∧
    ∀ u v, held_edge dags' u v ↔ held_edge dags u v ∧ u ≠ b ∧ v ≠ b.
Proof.
  intros a b c dags. apply (remove_node_from_graph_keeps_partition dags b).
  - apply (bool_decide_unpack _). by vm_compute.
  - vm_compute. in_list.
Defined.

(** X10.  [remove_graph_edge] keeps the partition on every branch but
    the split: when the edge is a self-loop, when an end point is left
    without any edge, or when [nodes_connected] answers yes, the nodes
    are the same, each still in exactly one graph, no graph is empty, and
    the edges held are the former ones without the removed edge. *)
Theorem remove_graph_edge_keeps_partition dags src dst i dag0 dag :
  store_ok dags →
  dag_with_edge dags src dst = Some (i, dag0) →
  remove_edge dag0 src dst = Some dag →
  src = dst ∨ degree dag src = 0 ∨ degree dag dst = 0
  ∨ nodes_connected dag src dst = Some true →
  ∃ dags', remove_graph_edge dags src dst = Some dags' ∧
    store_ok dags' ∧ all_nodes dags' ≡ₚ all_nodes dags ∧
    ∀ u v, held_edge dags' u v ↔ held_edge dags u v ∧ (u, v) ≠ (src, dst).
Proof. apply remove_graph_edge_unsplit. Qed.

Lemma remove_graph_edge_keeps_partition_witness :
  let a := NStr "a" in let b := NStr "b" in let c := NStr "c" in
  let dag0 := mkDiGraph [a; b; c] [(a, b); (b, c); (a, c)] in
  ∃ dags', remove_graph_edge [dag0] a b = Some dags' ∧
    store_ok dags' ∧ all_nodes dags' ≡ₚ all_nodes [dag0] ∧
    ∀ u v, held_edge dags' u v ↔ held_edge [dag0] u v ∧ (u, v) ≠ (a, b).
Proof.
  intros a b c dag0.
  apply (remove_graph_edge_keeps_partition [dag0] a b 0 dag0
           (mkDiGraph [a; b; c] [(b, c); (a, c)])).
  - apply (bool_decide_unpack _). by vm_compute.
  - reflexivity.
  - reflexivity.
  - right. right. right. reflexivity.
Defined.

End PartitionFacts.

(** ** Connectivity answers, isolation, and edits undone *)

Module EditFacts.
Import Nx NxFacts DirectedGraphHandler GraphStoreFacts PartitionFacts.

Lemma has_path_answer g u v :
  u ∈ g_nodes g → v ∈ g_nodes g →
  ∃ r, has_path g u v = Some r ∧ (r = true ↔ rtc (edge_rel g) u v).
Proof.
  intros Hu Hv. unfold has_path, has_node.
  rewrite !bool_decide_eq_true_2 by done. simpl. eexists. split; [done|].
  rewrite orb_true_iff, !bool_decide_eq_true, elem_of_reach, rtc_tc. done.
Qed.

Lemma probe_answer dag b x :
  x ∈ g_nodes dag → b ∈ g_nodes dag →
  ∃ r, probe dag b x = Some r ∧
       (r = true ↔ rtc (edge_rel dag) x b ∨ rtc (edge_rel dag) b x).
Proof.
  intros Hx Hb. unfold probe.
  destruct (has_path_answer dag x b Hx Hb) as (r1 & -> & H1).
  destruct (has_path_answer dag b x Hb Hx) as (r2 & H2' & H2). simpl.
  destruct r1.
  - exists true. split; [done|]. split; [|done]. intros _. left. by apply H1.
  - exists r2. split; [done|]. rewrite H2. split; [by right|].
    intros [H|H]; [|done]. apply H1 in H. done.
Qed.

Lemma probe_any_answer dag b xs :
  (∀ x, x ∈ xs → x ∈ g_nodes dag) → b ∈ g_nodes dag →
  ∃ r, probe_any dag b xs = Some r ∧
       (r = true ↔ ∃ x, x ∈ xs ∧ (rtc (edge_rel dag) x b
                                   ∨ rtc (edge_rel dag) b x)).
Proof.
  intros Hxs Hb. induction xs as [|x xs IH]; simpl.
  - exists false. split; [done|]. split; [done|].
    intros [x [Hx _]]. by apply elem_of_nil in Hx.
  - destruct (probe_answer dag b x) as (r & -> & Hr);
      [apply Hxs, list_elem_of_here|done|]. simpl.
    destruct IH as (r' & Hr' & IH).
    { intros y Hy. by apply Hxs, list_elem_of_further. }
    destruct r.
    + exists true. split; [done|]. split; [|done]. intros _.
      exists x. split; [apply list_elem_of_here|]. by apply Hr.
    + exists r'. split; [done|]. rewrite IH. split.
      * intros [y [Hy H]]. exists y. split; [|done].
        by apply list_elem_of_further.
      * intros [y [[->|Hy]%elem_of_cons H]]; [|by eauto].
        apply Hr in H. done.
Qed.

(** What [nodes_connected] computes on a graph that holds both nodes. *)
Lemma nodes_connected_answer dag a b :
  wf dag → a ∈ g_nodes dag → b ∈ g_nodes dag →
  ∃ r, nodes_connected dag a b = Some r ∧
       (r = true ↔
        ∃ x, x ≠ a ∧ (tc (edge_rel dag) x a ∨ tc (edge_rel dag) a x) ∧
             (rtc (edge_rel dag) x b ∨ rtc (edge_rel dag) b x)).
Proof.
  intros Hwf Ha Hb. unfold nodes_connected.
  destruct (ancestors dag a) as [anc|] eqn:Hanc.
  2:{ unfold ancestors, descendants in Hanc.
      rewrite has_node_reverse in Hanc. unfold has_node in Hanc.
      by rewrite bool_decide_eq_true_2 in Hanc. }
  destruct (descendants dag a) as [des|] eqn:Hdes.
  2:{ unfold descendants, has_node in Hdes.
      by rewrite bool_decide_eq_true_2 in Hdes. }
  simpl.
  destruct (probe_any_answer dag b anc) as (r1 & -> & H1); [|done|].
  { intros x [Hx _]%(elem_of_ancestors _ _ _ _ Hanc).
    by destruct (tc_nodes dag x a Hwf Hx). }
  destruct (probe_any_answer dag b des) as (r2 & H2' & H2); [|done|].
  { intros x [Hx _]%(elem_of_descendants _ _ _ _ Hdes).
    by destruct (tc_nodes dag a x Hwf Hx). }
  simpl. destruct r1.
  - exists true. split; [done|]. split; [|done]. intros _.
    destruct (proj1 H1 eq_refl) as (x & Hx & Hp).
    apply (elem_of_ancestors _ _ _ _ Hanc) in Hx as [Hx Hne].
    exists x. auto.
  - exists r2. split; [done|]. rewrite H2. split.
    + intros (x & Hx & Hp).
      apply (elem_of_descendants _ _ _ _ Hdes) in Hx as [Hx Hne].
      exists x. auto.
    + intros (x & Hne & [Hx|Hx] & Hp).
      * assert (false = true); [|done]. apply H1. exists x. split; [|done].
        by apply (elem_of_ancestors _ _ _ _ Hanc).
      * exists x. split; [|done].
        by apply (elem_of_descendants _ _ _ _ Hdes).
Qed.

(** X11.  On a graph that holds both nodes [nodes_connected] never
    raises; a yes is never wrong, the two nodes are joined by a path
    when the directions of the edges are ignored; and two different
    nodes with a directed path from one to the other always get a
    yes. *)
Theorem nodes_connected_on_held_nodes dag a b :
  wf dag → a ∈ g_nodes dag → b ∈ g_nodes dag →
  ∃ r, nodes_connected dag a b = Some r ∧
       (r = true → weakly_connected dag a b) ∧
       (a ≠ b → tc (edge_rel dag) a b ∨ tc (edge_rel dag) b a → r = true).
Proof.
  intros Hwf Ha Hb.
  destruct (nodes_connected_answer dag a b Hwf Ha Hb) as (r & Hr & Hiff).
  exists r. split_and!; [done| |].
  - intros ->. by apply nodes_connected_sound.
  - intros Hne H. apply Hiff. exists b. split_and!; [done|tauto|by left].
Qed.

Lemma nodes_connected_on_held_nodes_witness :
  let a := NStr "a" in let b := NStr "b" in let c := NStr "c" in
  let dag := mkDiGraph [a; b; c] [(a, b); (c, b)] in
  ∃ r, nodes_connected dag a c = Some r ∧
       (r = true → weakly_connected dag a c) ∧
       (a ≠ c → tc (edge_rel dag) a c ∨ tc (edge_rel dag) c a → r = true).
Proof.
  intros a b c dag. apply (nodes_connected_on_held_nodes dag a c).
  - apply (bool_decide_unpack _). by vm_compute.
  - in_list.
  - in_list.
Defined.

Lemma NoDup_predecessors g v : NoDup (g_edges g) → NoDup (predecessors g v).
Proof.
  intros He. unfold predecessors. apply NoDup_fmap_2_strong.
  - intros [a b] [c d] [Ha _]%list_elem_of_filter [Hc _]%list_elem_of_filter.
    simpl in *. congruence.
  - by apply NoDup_filter.
Qed.

Lemma no_elem_nil {A} (l : list A) : (∀ x, x ∉ l) → l = [].
Proof.
  destruct l as [|a l]; [done|]. intros H. destruct (H a). apply list_elem_of_here.
Qed.

Lemma degree_zero_iff g n :
  degree g n = 0 ↔ ∀ u v, edge_rel g u v → u ≠ n ∧ v ≠ n.
Proof.
  split; [apply degree_zero_edges|]. intros H.
  unfold degree, in_degree, out_degree.
  rewrite (no_elem_nil (predecessors g n)), (no_elem_nil (successors g n)).
  - done.
  - intros x Hx%elem_of_successors. by destruct (H _ _ Hx).
  - intros x Hx%elem_of_predecessors. by destruct (H _ _ Hx).
Qed.

(** X12.  What [node_is_isolated] answers for a node that some graph
    holds, in terms of the edges of the first such graph: by default yes
    exactly when no edge has the node at either end; with
    [allow_self_loop] yes exactly when the only edge at the node, if any,
    is its self-loop. *)
Theorem node_is_isolated_meaning dags n i g :
  dag_with_node dags n = Some (i, g) → NoDup (g_edges g) →
  (node_is_isolated dags n false = Some true
   ↔ ∀ u v, edge_rel g u v → u ≠ n ∧ v ≠ n) ∧
  (node_is_isolated dags n true = Some true
   ↔ ∀ u v, edge_rel g u v → u = n ∨ v = n → u = n ∧ v = n).
Proof.
  intros Hfind Hnd. split.
  - unfold node_is_isolated. rewrite Hfind. simpl. unfold is_isolate.
    rewrite <- degree_zero_iff. split.
    + intros [= H]. by apply bool_decide_eq_true in H.
    + intros H. f_equal. by apply bool_decide_eq_true.
  - rewrite (node_is_isolated_allowing_self_loop _ _ _ _ Hfind). split.
    + intros [= H]. by apply lone_loop_edges.
    + intros H. f_equal. unfold isolated_but_for_self_loop.
      apply bool_decide_eq_true.
      destruct (has_edge g n n) eqn:Hl.
      * apply bool_decide_eq_true in Hl.
        assert (predecessors g n = [n]) as Hp.
        { destruct (nodup_all_eq (predecessors g n) n) as [H0|H0]; [| | |done].
          - by apply NoDup_predecessors.
          - intros x Hx%elem_of_predecessors. destruct (H x n Hx); auto.
          - apply (proj2 (elem_of_predecessors g n n)) in Hl.
            rewrite H0 in Hl. by apply elem_of_nil in Hl. }
        assert (successors g n = [n]) as Hs.
        { destruct (nodup_all_eq (successors g n) n) as [H0|H0]; [| | |done].
          - by apply NoDup_successors.
          - intros x Hx%elem_of_successors. destruct (H n x Hx); auto.
          - apply (proj2 (elem_of_successors g n n)) in Hl.
            rewrite H0 in Hl. by apply elem_of_nil in Hl. }
        unfold degree, in_degree, out_degree. rewrite Hp, Hs. done.
      * apply bool_decide_eq_false in Hl.
        assert (degree g n = 0) as ->; [|done].
        apply degree_zero_iff. intros u v Huv.
        destruct (decide (u = n ∨ v = n)) as [Hor|Hno]; [|tauto].
        destruct (H u v Huv Hor) as [-> ->]. done.
Qed.

Lemma node_is_isolated_meaning_witness :
  let a := NStr "a" in let b := NStr "b" in
  let g := mkDiGraph [a; b] [(a, a)] in
  (node_is_isolated [g] a false = Some true
   ↔ ∀ u v, edge_rel g u v → u ≠ a ∧ v ≠ a) ∧
  (node_is_isolated [g] a true = Some true
   ↔ ∀ u v, edge_rel g u v → u = a ∨ v = a → u = a ∧ v = a).
Proof.
  intros a b g. apply (node_is_isolated_meaning [g] a 0 g).
  - reflexivity.
  - apply (bool_decide_unpack _). by vm_compute.
Defined.

(** X13.  Adding a self-loop that no graph holds and removing it again
    gives back the list of graphs as it was. *)
Theorem self_loop_added_and_removed dags n :
  n ∈ all_nodes dags → ¬ held_edge dags n n →
  ∃ dags1, add_graph_edge dags n n = Some dags1 ∧ held_edge dags1 n n ∧
           remove_graph_edge dags1 n n = Some dags.
Proof.
  intros Hn Hfree.
  destruct (dag_with_node_exists dags n Hn) as (i & g & Hfind & Hi & Hng).
  assert ((n, n) ∉ g_edges g) as Hge.
  { intros H. apply Hfree. exists g. split; [|done].
    by eapply list_elem_of_lookup_2. }
  unfold add_graph_edge. rewrite Hfind. simpl.
  rewrite decide_True by done. simpl.
  rewrite add_edge_fresh by done.
  set (g' := mkDiGraph (g_nodes g) (g_edges g ++ [(n, n)])).
  assert (i < length dags) as Hlt by by eapply lookup_lt_Some.
  eexists. split; [done|]. split.
  - exists g'. split; [by apply list_elem_of_insert|].
    unfold edge_rel. simpl. apply elem_of_app. right. apply list_elem_of_here.
  - unfold remove_graph_edge.
    assert (dag_with_edge (<[i := g']> dags) n n = Some (i, g')) as ->.
    { apply list_find_Some. split_and!.
      - by apply list_lookup_insert_eq.
      - apply bool_decide_eq_true. simpl. apply elem_of_app. right.
        apply list_elem_of_here.
      - intros j h Hj Hji Hh. apply bool_decide_eq_true in Hh.
        rewrite list_lookup_insert_ne in Hj by lia.
        apply Hfree. exists h. split; [|done].
        by eapply list_elem_of_lookup_2. }
    simpl. unfold remove_edge, has_edge. simpl.
    rewrite bool_decide_eq_true_2
      by (apply elem_of_app; right; apply list_elem_of_here).
    simpl. rewrite decide_True by done.
    rewrite list_insert_insert_eq.
    rewrite filter_app, filter_cons_False, filter_nil, app_nil_r by tauto.
    rewrite filter_all by (intros e He ->; done).
    f_equal. apply list_insert_id. by destruct g.
Qed.

Lemma self_loop_added_and_removed_witness :
  let a := NStr "a" in let b := NStr "b" in
  let dags := [mkDiGraph [a; b] [(a, b)]] in
  ∃ dags1, add_graph_edge dags b b = Some dags1 ∧ held_edge dags1 b b ∧
           remove_graph_edge dags1 b b = Some dags.
Proof.
  intros a b dags. apply (self_loop_added_and_removed dags b).
  - vm_compute. in_list.
  - intros (g & Hg & He). apply list_elem_of_singleton in Hg. subst g.
    unfold edge_rel in He. simpl in He. not_in_list He.
Defined.

Lemma edges_no_edges g : g_edges g = [] → edges g = [].
Proof.
  intros H. unfold edges, edges_of, successors. rewrite H. simpl.
  induction (filter _ _) as [|n l IH]; [done|]. simpl. done.
Qed.

(** X14.  Connecting two items that each sit alone, without a
    self-loop, in a graph merges the two graphs into one; removing the
    connection again splits that graph into the two one-node graphs,
    which end up last in the list, the destination before the source. *)
Theorem lone_items_joined_and_parted dags a b i j :
  store_ok dags → a ≠ b →
  dags !! i = Some (mkDiGraph [a] []) → dags !! j = Some (mkDiGraph [b] []) →
  let rest := delete (if decide (j < i) then j else pred j) (delete i dags) in
  add_graph_edge dags a b = Some (rest ++ [mkDiGraph [a; b] [(a, b)]]) ∧
  remove_graph_edge (rest ++ [mkDiGraph [a; b] [(a, b)]]) a b
  = Some (rest ++ [mkDiGraph [b] []; mkDiGraph [a] []]).
Proof.
  intros Hok Hab Hi Hj rest.
  pose proof Hok as (Hnd & _ & _).
  assert (i ≠ j) as Hij.
  { intros ->. rewrite Hi in Hj. congruence. }
  assert (a ∈ g_nodes (mkDiGraph [a] [])) as Ha by (simpl; in_list).
  assert (b ∈ g_nodes (mkDiGraph [b] [])) as Hb by (simpl; in_list).
  destruct (add_graph_edge_merge dags i j _ _ a b Hok Hi Hj Hij Ha Hb)
    as (u & Hu & Hok1 & _).
  assert (u = mkDiGraph [a; b] []) as ->.
  { unfold union in Hu. simpl in Hu.
    rewrite !edges_no_edges in Hu by done.
    destruct (bool_decide _); by inversion Hu. }
  set (U := mkDiGraph [a; b] [(a, b)]).
  assert (add_edge (mkDiGraph [a; b] []) a b = U) as HU.
  { rewrite add_edge_fresh; simpl; [done|in_list|in_list|].
    apply not_elem_of_nil. }
  assert (remove_dag (remove_dag (add_dag dags U) i)
            (if decide (j < i) then j else pred j) = rest ++ [U]) as Hshape.
  { unfold remove_dag, add_dag, rest.
    pose proof (lookup_delete_other dags i j _ Hj Hij) as Hj'.
    rewrite delete_app_lt by by eapply lookup_lt_Some.
    by rewrite delete_app_lt by by eapply lookup_lt_Some. }
  rewrite HU, Hshape in Hok1.
  split.
  - unfold add_graph_edge.
    rewrite (store_ok_lookup dags i _ a Hnd Hi Ha),
      (store_ok_lookup dags j _ b Hnd Hj Hb).
    rewrite decide_False by done. simpl.
    rewrite decide_False by congruence. simpl.
    rewrite Hu. simpl. by rewrite HU, Hshape.
  - destruct Hok1 as (Hnd1 & Hwf1 & _).
    assert ((rest ++ [U]) !! length rest = Some U) as Hk
      by apply list_lookup_middle, eq_refl.
    assert (a ∈ g_nodes U) as HaU by (simpl; in_list).
    assert (b ∈ g_nodes U) as HbU by (simpl; in_list).
    assert (dag_with_edge (rest ++ [U]) a b = Some (length rest, U)) as Hfe.
    { apply list_find_Some.
      split_and!; [done|apply bool_decide_eq_true; in_list|].
      intros k h Hk' Hlt Hh. apply bool_decide_eq_true in Hh.
      rewrite lookup_app_l in Hk' by done.
      assert (wf h) as Hwfh.
      { apply (proj1 (Forall_forall _ _) Hwf1). apply elem_of_app. left.
        by eapply list_elem_of_lookup_2. }
      destruct (wf_edge_nodes h a b Hwfh Hh) as [Hah _].
      apply (store_ok_disjoint (rest ++ [U]) (length rest) U a Hnd1 Hk HaU).
      rewrite delete_middle, app_nil_r. apply elem_of_all_nodes. exists h.
      split; [|done]. by eapply list_elem_of_lookup_2. }
    assert (remove_edge U a b = Some (mkDiGraph [a; b] [])) as Hre.
    { unfold remove_edge, has_edge. simpl.
      rewrite bool_decide_eq_true_2 by in_list. simpl.
      by rewrite filter_cons_False, filter_nil by tauto. }
    destruct (remove_graph_edge_cases _ _ _ _ _ _ Hab Hfe
                (store_ok_lookup _ _ _ _ Hnd1 Hk HaU)
                (store_ok_lookup _ _ _ _ Hnd1 Hk HbU) Hre) as [-> _].
    rewrite bool_decide_eq_true_2 by done. f_equal.
    rewrite insert_app_r_alt by done. rewrite Nat.sub_diag. simpl.
    rewrite <- app_assoc. simpl. do 3 f_equal. unfold drop_node. simpl.
    rewrite filter_cons_False by tauto.
    by rewrite filter_cons_True by done.
Qed.

Lemma lone_items_joined_and_parted_witness :
  let a := NStr "a" in let b := NStr "b" in let c := NStr "c" in
  let dags := [mkDiGraph [a] []; mkDiGraph [c] []; mkDiGraph [b] []] in
  add_graph_edge dags a b
  = Some ([mkDiGraph [c] []] ++ [mkDiGraph [a; b] [(a, b)]]) ∧
  remove_graph_edge ([mkDiGraph [c] []] ++ [mkDiGraph [a; b] [(a, b)]]) a b
  = Some ([mkDiGraph [c] []] ++ [mkDiGraph [b] []; mkDiGraph [a] []]).
Proof.
  intros a b c dags. apply (lone_items_joined_and_parted dags a b 0 2).
  - apply (bool_decide_unpack _). by vm_compute.
  - done.
  - reflexivity.
  - reflexivity.
Defined.

Lemma owners_unique dags n :
  NoDup (all_nodes dags) → n ∈ all_nodes dags → length (owners dags n) = 1.
Proof.
  unfold owners. induction dags as [|g dags IH]; intros Hnd Hn.
  - by apply elem_of_nil in Hn.
  - rewrite all_nodes_cons in Hnd, Hn.
    apply NoDup_app in Hnd as (_ & Hdis & Hnd).
    destruct (decide (n ∈ g_nodes g)) as [Hg|Hg].
    + rewrite filter_cons_True by by apply bool_decide_eq_true.
      simpl. f_equal. apply length_zero_iff_nil, no_elem_nil.
      intros h [Hh Hin]%list_elem_of_filter. apply bool_decide_eq_true in Hh.
      apply (Hdis n Hg), elem_of_all_nodes. eauto.
    + rewrite filter_cons_False.
      * apply IH; [done|]. apply elem_of_app in Hn as [?|?]; done.
      * intros Hh. by apply bool_decide_eq_true in Hh.
Qed.

Lemma store_ok_add_dag_node dags n :
  store_ok dags → n ∉ all_nodes dags →
  store_ok (add_dag_node dags n) ∧
  all_nodes (add_dag_node dags n) = all_nodes dags ++ [n].
Proof.
  intros (Hnd & Hwf & Hne) Hn. unfold add_dag_node.
  change (add_node empty_graph n) with (mkDiGraph [n] []).
  assert (all_nodes (dags ++ [mkDiGraph [n] []]) = all_nodes dags ++ [n]) as Heq.
  { rewrite all_nodes_app. unfold all_nodes at 2. simpl. done. }
  split; [|done]. unfold store_ok. rewrite Heq, !Forall_app, !Forall_singleton.
  split_and!; try done.
  - apply NoDup_app. split_and!; [done| |apply NoDup_singleton].
    intros x Hx ->%list_elem_of_singleton. done.
  - split_and!; simpl; [apply NoDup_singleton|constructor|constructor].
Qed.

Lemma filter_names (alive : list string) n :
  filter (fun m => m ≠ NStr n) (NStr <$> alive)
  = NStr <$> filter (fun m => m ≠ n) alive.
Proof.
  induction alive as [|m alive IH]; [done|]. rewrite fmap_cons.
  destruct (decide (m = n)) as [->|Hne].
  - rewrite !filter_cons_False by tauto. done.
  - rewrite !filter_cons_True by congruence. by rewrite fmap_cons, IH.
Qed.

Lemma run_partition_aux ops : ∀ dags alive dags',
  store_ok dags → all_nodes dags ≡ₚ NStr <$> alive →
  fresh_adds ops alive = true →
  (∀ s d, RemoveEdge s d ∉ ops) →
  run dags ops = Some dags' →
  store_ok dags' ∧ all_nodes dags' ≡ₚ NStr <$> surviving ops alive.
Proof.
  induction ops as [|o ops IH]; intros dags alive dags' Hok Hperm Hfresh Hno Hrun.
  { simpl in Hrun. injection Hrun as <-. done. }
  assert (∀ s d, RemoveEdge s d ∉ ops) as Hno'.
  { intros s d H. apply (Hno s d). by apply list_elem_of_further. }
  simpl in Hrun. destruct o as [n|s d|s d|n]; simpl in *.
  - apply andb_true_iff in Hfresh as [Hn Hfresh].
    apply negb_true_iff, bool_decide_eq_false in Hn.
    destruct (store_ok_add_dag_node dags (NStr n) Hok) as [Hok1 Heq].
    { rewrite Hperm. intros [m [[= <-] Hm]]%list_elem_of_fmap. done. }
    apply (IH _ _ _ Hok1); try done.
    rewrite Heq, Hperm, fmap_app. done.
  - destruct (add_graph_edge dags (NStr s) (NStr d)) as [dags1|] eqn:Hadd;
      [|done].
    simpl in Hrun.
    destruct (decide (NStr s ∈ all_nodes dags)) as [Hs|Hs].
    2:{ rewrite add_graph_edge_missing in Hadd by by left. done. }
    destruct (decide (NStr d ∈ all_nodes dags)) as [Hd|Hd].
    2:{ rewrite add_graph_edge_missing in Hadd by by right. done. }
    destruct (add_graph_edge_total dags _ _ Hok Hs Hd)
      as (dags1' & Hadd' & Hok1 & Hperm1 & _).
    rewrite Hadd in Hadd'. injection Hadd' as <-.
    apply (IH _ _ _ Hok1); try done. by rewrite Hperm1.
  - destruct (Hno s d). apply list_elem_of_here.
  - destruct (remove_node_from_graph dags (NStr n)) as [dags1|] eqn:Hrem;
      [|done].
    simpl in Hrun.
    destruct (decide (NStr n ∈ all_nodes dags)) as [Hn|Hn].
    2:{ rewrite (proj2 (remove_missing dags (NStr n) (NStr n) (NStr n)))
          in Hrem by done. done. }
    destruct (remove_node_from_graph_ok dags _ Hok Hn)
      as (dags1' & Hrem' & Hok1 & Hperm1 & _).
    rewrite Hrem in Hrem'. injection Hrem' as <-.
    apply (IH _ _ _ Hok1); try done.
    by rewrite Hperm1, Hperm, filter_names.
Qed.

(** X15.  Without [remove_graph_edge] the list of graphs stays a
    partition: after any run of [add_dag_node] of new names,
    [add_graph_edge] and [remove_node_from_graph] that does not raise,
    the nodes held are the names added and not removed, every one of them
    is in exactly one graph, and no graph is empty. *)
Theorem partition_kept_without_edge_removal ops dags alive dags' :
  store_ok dags → all_nodes dags ≡ₚ NStr <$> alive →
  fresh_adds ops alive = true →
  (∀ s d, RemoveEdge s d ∉ ops) →
  run dags ops = Some dags' →
  store_ok dags' ∧ all_nodes dags' ≡ₚ NStr <$> surviving ops alive ∧
  partition_invariant dags' (surviving ops alive).
Proof.
  intros Hok Hperm Hfresh Hno Hrun.
  destruct (run_partition_aux ops dags alive dags' Hok Hperm Hfresh Hno Hrun)
    as [Hok' Hperm'].
  split_and!; [done..|]. destruct Hok' as (Hnd & _ & Hne). split.
  - intros n Hn. apply owners_unique; [done|]. rewrite Hperm'.
    apply list_elem_of_fmap. eauto.
  - intros g Hg. by apply (proj1 (Forall_forall _ _) Hne).
Qed.

Lemma partition_kept_without_edge_removal_witness :
  let ops := [AddNode "a"; AddNode "b"; AddEdge "a" "b"; AddNode "c";
              AddEdge "c" "b"; RemoveNode "b"] in
  let dags' := [mkDiGraph [NStr "c"] []; mkDiGraph [NStr "a"] []] in
  store_ok dags' ∧ all_nodes dags' ≡ₚ NStr <$> surviving ops [] ∧
  partition_invariant dags' (surviving ops []).
Proof.
  intros ops dags'.
  apply (partition_kept_without_edge_removal ops [] [] dags').
  - apply (bool_decide_unpack _). by vm_compute.
  - done.
  - reflexivity.
  - intros s d H. not_in_list H.
  - reflexivity.
Defined.

End EditFacts.

(** ** The execution order of a graph *)

Module OrderFacts.
Import Nx NxFacts DirectedGraphHandler GraphStoreFacts PartitionFacts.
Import EditFacts.

(** *** Breadth-first search *)

Lemma visit_children_more parent children visited es visited' :
  visit_children parent children visited = (es, visited') →
  (∀ e, e ∈ es → e.1 = parent) ∧ (∀ c, c ∈ children → c ∈ visited').
Proof.
  revert visited es visited'.
  induction children as [|c cs IH]; intros visited es visited'; simpl.
  - intros [= <- <-]. split; intros ? H; by apply elem_of_nil in H.
  - case_bool_decide as Hc.
    + intros H. pose proof H as H'.
      apply visit_children_spec in H' as (-> & _).
      apply IH in H as [H1 H2]. split; [done|].
      intros x [->|Hx]%elem_of_cons; [|by apply H2].
      apply elem_of_app. by left.
    + destruct (visit_children parent cs (visited ++ [c])) as [es0 v0] eqn:H0.
      intros [= <- <-]. pose proof H0 as H'.
      apply visit_children_spec in H' as (-> & _).
      apply IH in H0 as [H1 H2]. split.
      * intros e [->|He]%elem_of_cons; [done|by apply H1].
      * intros x [->|Hx]%elem_of_cons; [|by apply H2].
        apply elem_of_app. left. apply elem_of_app. right.
        apply list_elem_of_here.
Qed.

Lemma visit_children_fresh parent children : ∀ visited,
  NoDup children → (∀ c, c ∈ children → c ∉ visited) →
  visit_children parent children visited
  = ((fun c => (parent, c)) <$> children, visited ++ children).
Proof.
  induction children as [|c cs IH]; intros visited Hnd Hfresh; simpl.
  - by rewrite app_nil_r.
  - apply NoDup_cons in Hnd as [Hc Hnd].
    rewrite bool_decide_eq_false_2 by (apply Hfresh, list_elem_of_here).
    rewrite IH; [by rewrite <- app_assoc|done|].
    intros x Hx [H|H]%elem_of_app.
    + by apply (Hfresh x); [apply list_elem_of_further|].
    + apply list_elem_of_singleton in H. congruence.
Qed.

(** The search with enough fuel: the nodes found are new and distinct,
    each is reached from the queue, the nodes visited at the end include
    every successor of a node that was queued or found, and the parent of
    a tree edge is in the queue or was found before. *)
Lemma bfs_loop_spec g fuel : ∀ queue visited,
  length queue + length (unvisited g visited) ≤ fuel →
  NoDup visited → (∀ q, q ∈ queue → q ∈ visited) →
  NoDup (visited ++ (bfs_loop g fuel queue visited).*2) ∧
  (∀ x, x ∈ (bfs_loop g fuel queue visited).*2 →
        ∃ q, q ∈ queue ∧ tc (edge_rel g) q x) ∧
  (∀ x y, x ∈ queue ∨ x ∈ (bfs_loop g fuel queue visited).*2 →
          edge_rel g x y →
          y ∈ visited ++ (bfs_loop g fuel queue visited).*2) ∧
  (∀ k p c, bfs_loop g fuel queue visited !! k = Some (p, c) →
     edge_rel g p c ∧
     (p ∈ queue ∨
      ∃ k', k' < k ∧ (bfs_loop g fuel queue visited).*2 !! k' = Some p)).
Proof.
  assert (∀ visited : list node,
    NoDup visited →
    NoDup (visited ++ (@nil edge).*2) ∧
    (∀ x, x ∈ (@nil edge).*2 → ∃ q, q ∈ @nil node ∧ tc (edge_rel g) q x) ∧
    (∀ x y, x ∈ @nil node ∨ x ∈ (@nil edge).*2 → edge_rel g x y →
            y ∈ visited ++ (@nil edge).*2) ∧
    (∀ k p c, @nil edge !! k = Some (p, c) →
       edge_rel g p c ∧
       (p ∈ @nil node ∨ ∃ k', k' < k ∧ (@nil edge).*2 !! k' = Some p)))
    as Hnil.
  { intros visited Hnd. simpl. rewrite app_nil_r. split_and!; [done|..].
    - intros x H. by apply elem_of_nil in H.
    - intros x y [H|H]; by apply elem_of_nil in H.
    - intros k p c H. by rewrite lookup_nil in H. }
  induction fuel as [|fuel IH]; intros queue visited Hfuel Hnd Hq.
  { destruct queue; simpl in Hfuel; [|lia]. by apply Hnil. }
  destruct queue as [|parent queue]; [by apply Hnil|].
  simpl in Hfuel. simpl.
  destruct (visit_children parent (successors g parent) visited)
    as [es visited'] eqn:Hv.
  pose proof (visit_children_more _ _ _ _ _ Hv) as [Hpar Hall].
  apply visit_children_spec in Hv as (-> & Hndes & Hin).
  assert (length es.*2 + length (unvisited g (visited ++ es.*2))
          = length (unvisited g visited)) as Hm.
  { apply unvisited_shrinks; [done|]. intros x Hx.
    destruct (Hin x Hx) as [Hc Hn]. split; [|done].
    by eapply successor_is_target. }
  destruct (IH (queue ++ es.*2) (visited ++ es.*2)) as (I1 & I2 & I3 & I4).
  { rewrite length_app. lia. }
  { apply NoDup_app. split_and!; [done| |done].
    intros x Hx Hx'. by destruct (Hin x Hx'). }
  { intros q [Hq'|Hq']%elem_of_app; apply elem_of_app; [left|by right].
    by apply Hq, list_elem_of_further. }
  set (E' := bfs_loop g fuel (queue ++ es.*2) (visited ++ es.*2)) in *.
  clearbody E'. rewrite fmap_app. split_and!.
  - by rewrite app_assoc.
  - intros x [Hx|Hx]%elem_of_app.
    + exists parent. split; [apply list_elem_of_here|].
      apply tc_once, elem_of_successors. by destruct (Hin x Hx).
    + destruct (I2 x Hx) as (q & [Hq'|Hq']%elem_of_app & Ht).
      * exists q. split; [by apply list_elem_of_further|done].
      * exists parent. split; [apply list_elem_of_here|].
        eapply tc_l; [|done]. apply elem_of_successors.
        by destruct (Hin q Hq').
  - intros x y Hx Hxy. rewrite app_assoc.
    destruct Hx as [[->|Hx]%elem_of_cons|[Hx|Hx]%elem_of_app].
    + apply elem_of_app. left. by apply Hall, elem_of_successors.
    + apply (I3 x); [|done]. left. apply elem_of_app. by left.
    + apply (I3 x); [|done]. left. apply elem_of_app. by right.
    + apply (I3 x); [|done]. by right.
  - intros k p c Hk. apply lookup_app_Some in Hk as [Hk|[Hlen Hk]].
    + assert ((p, c) ∈ es) as He by by eapply list_elem_of_lookup_2.
      pose proof (Hpar _ He) as Hp. simpl in Hp. subst p. split.
      * apply elem_of_successors. apply (Hin c).
        apply list_elem_of_fmap. by exists (parent, c).
      * left. apply list_elem_of_here.
    + destruct (I4 _ _ _ Hk) as [He Hp]. split; [done|].
      destruct Hp as [[Hp|Hp]%elem_of_app|(k' & Hlt & Hk')].
      * left. by apply list_elem_of_further.
      * right. apply list_elem_of_lookup_1 in Hp as [k' Hk'].
        exists k'. split.
        -- apply lookup_lt_Some in Hk'. rewrite length_fmap in Hk'.
           unfold edge in *. lia.
        -- by apply lookup_app_l_Some.
      * right. unfold edge in *. exists (length es + k'). split; [lia|].
        rewrite lookup_app_r by (rewrite length_fmap; lia).
        rewrite length_fmap.
        by replace (length es + k' - length es) with k' by lia.
Qed.

(** [bfs_edges] finds every node that the source reaches, once. *)
Lemma bfs_edges_spec g s :
  NoDup (s :: (bfs_edges g s).*2) ∧
  (∀ x, x ∈ (bfs_edges g s).*2 ↔ tc (edge_rel g) s x ∧ x ≠ s) ∧
  (∀ k p c, bfs_edges g s !! k = Some (p, c) →
     edge_rel g p c ∧
     (p = s ∨ ∃ k', k' < k ∧ (bfs_edges g s).*2 !! k' = Some p)).
Proof.
  unfold bfs_edges.
  destruct (bfs_loop_spec g (S (length (g_edges g))) [s] [s])
    as (H1 & H2 & H3 & H4).
  { assert (length (unvisited g [s]) ≤ length (g_edges g).*2) as H.
    { apply submseteq_length.
      apply NoDup_submseteq; [apply NoDup_remove_dups|].
      by intros x [Hx _]%elem_of_unvisited. }
    rewrite length_fmap in H. unfold edge in *. simpl. lia. }
  { apply NoDup_singleton. }
  { done. }
  set (E := bfs_loop g (S (length (g_edges g))) [s] [s]) in *. clearbody E.
  simpl in H1. split_and!; [done| |].
  - intros x. split.
    + intros Hx. destruct (H2 x Hx) as (q & ->%list_elem_of_singleton & Ht).
      split; [done|]. intros ->. by apply NoDup_cons in H1 as [? _].
    + intros [Ht Hne].
      assert (closed g (s :: E.*2)) as Hcl.
      { intros a b Ha Hab. apply (H3 a b); [|done].
        apply elem_of_cons in Ha as [->|Ha]; [left; apply list_elem_of_here|].
        by right. }
      pose proof (closed_tc g _ s x Hcl (list_elem_of_here _ _) Ht) as Hx.
      by apply elem_of_cons in Hx as [?|?].
  - intros k p c Hk. destruct (H4 k p c Hk) as [He Hp]. split; [done|].
    destruct Hp as [->%list_elem_of_singleton|Hp]; auto.
Qed.

Lemma bfs_edges_first g s :
  NoDup (successors g s) → s ∉ successors g s →
  ∃ more, bfs_edges g s = ((fun c => (s, c)) <$> successors g s) ++ more.
Proof.
  intros Hnd Hs. unfold bfs_edges. simpl.
  rewrite visit_children_fresh; [by eexists|done|].
  intros c Hc ->%list_elem_of_singleton. done.
Qed.

(** *** Acyclic graphs *)

Lemma acyclic_no_cycle g n :
  wf g → is_directed_acyclic_graph g = true → ¬ tc (edge_rel g) n n.
Proof.
  intros Hwf Hdag Ht.
  assert (is_directed_acyclic_graph g = false); [|congruence].
  apply is_directed_acyclic_graph_false. exists n. split; [|done].
  by destruct (tc_nodes g n n Hwf Ht).
Qed.

Lemma filter_length_le {A} (P Q : A → Prop)
    `{!∀ x, Decision (P x)} `{!∀ x, Decision (Q x)} (l : list A) :
  (∀ x, P x → Q x) → length (filter P l) ≤ length (filter Q l).
Proof.
  intros HPQ. induction l as [|x l IH]; [done|].
  destruct (decide (P x)) as [HP|HP].
  - rewrite !filter_cons_True by auto. simpl. lia.
  - rewrite (filter_cons_False P) by done.
    destruct (decide (Q x)).
    + rewrite filter_cons_True by done. simpl. lia.
    + by rewrite filter_cons_False by done.
Qed.

Lemma filter_length_lt {A} (P Q : A → Prop)
    `{!∀ x, Decision (P x)} `{!∀ x, Decision (Q x)} (l : list A) p :
  (∀ x, P x → Q x) → p ∈ l → Q p → ¬ P p →
  length (filter P l) < length (filter Q l).
Proof.
  intros HPQ Hp HQ HP. induction l as [|x l IH]; [by apply elem_of_nil in Hp|].
  pose proof (filter_length_le P Q l HPQ) as Hle.
  apply elem_of_cons in Hp as [<-|Hp].
  - rewrite (filter_cons_False P), (filter_cons_True Q) by done. simpl. lia.
  - specialize (IH Hp). destruct (decide (P x)) as [HPx|HPx].
    + rewrite !filter_cons_True by auto. simpl. lia.
    + rewrite (filter_cons_False P) by done.
      destruct (decide (Q x)).
      * rewrite filter_cons_True by done. simpl. lia.
      * by rewrite filter_cons_False by done.
Qed.

(** Every node of an acyclic graph is reached from a node without
    incoming edges. *)
Lemma dag_source g :
  wf g → is_directed_acyclic_graph g = true →
  ∀ n, n ∈ g_nodes g → ∃ s, s ∈ source_nodes g ∧ rtc (edge_rel g) s n.
Proof.
  intros Hwf Hdag n.
  remember (length (filter (fun x => n ∈ reach g x) (g_nodes g))) as m eqn:Hm.
  revert n Hm. induction m as [m IH] using lt_wf_ind. intros n Hm Hn.
  destruct (predecessors g n) as [|p ps] eqn:Hpred.
  - exists n. split; [|done]. apply list_elem_of_filter. split; [|done].
    unfold in_degree. by rewrite Hpred.
  - assert (edge_rel g p n) as Hpn.
    { apply elem_of_predecessors. rewrite Hpred. apply list_elem_of_here. }
    destruct (wf_edge_nodes g p n Hwf Hpn) as [Hp _].
    destruct (IH (length (filter (fun x => p ∈ reach g x) (g_nodes g))))
      with (n := p) as (s & Hs & Hsp); [|done|done|].
    + subst m. apply (filter_length_lt _ _ _ p); [|done| |].
      * intros x Hx%elem_of_reach. apply elem_of_reach. by eapply tc_r.
      * apply elem_of_reach. by apply tc_once.
      * intros H%elem_of_reach. by apply (acyclic_no_cycle g p).
    + exists s. split; [done|]. by eapply rtc_r.
Qed.

(** *** [calc_exec_order] on an acyclic graph *)

Lemma dummy_targets (d : node) (srcs : list node) :
  ((fun s => (d, s)) <$> srcs).*2 = srcs.
Proof.
  induction srcs as [|s srcs IH]; [done|]. rewrite !fmap_cons. simpl.
  by rewrite IH.
Qed.

Lemma calc_exec_order_dag g :
  wf g → invisible_src_node ∉ g_nodes g →
  is_directed_acyclic_graph g = true →
  ∃ rest, calc_exec_order g = Some (source_nodes g ++ rest, g) ∧
    source_nodes g ++ rest ≡ₚ g_nodes g ∧
    ∀ k x, (source_nodes g ++ rest) !! k = Some x → x ∉ source_nodes g →
      ∃ k' p, k' < k ∧ (source_nodes g ++ rest) !! k' = Some p ∧
              edge_rel g p x.
Proof.
  intros Hwf Hzero Hdag. pose proof Hwf as (Hnodes & Hedges & Hends).
  pose proof (dag_source g Hwf Hdag) as Hsource.
  unfold calc_exec_order. rewrite Hdag. simpl.
  destruct (source_nodes g) as [|s1 [|s2 more]] eqn:Hsrc.
  - exists []. split_and!; [done| |].
    + destruct (g_nodes g) as [|n ns]; [done|].
      destruct (Hsource n) as (s & Hs & _); [apply list_elem_of_here|].
      by apply elem_of_nil in Hs.
    + intros k x H. simpl in H. by rewrite lookup_nil in H.
  - destruct (bfs_edges_spec g s1) as (Hnd & Hiff & Hpar).
    exists (bfs_edges g s1).*2. split_and!; [done| |].
    + apply NoDup_Permutation; [done|done|]. intros x. split.
      * intros [->|Hx]%elem_of_cons.
        -- assert (s1 ∈ source_nodes g) as H
             by (rewrite Hsrc; apply list_elem_of_here).
           by apply list_elem_of_filter in H as [_ ?].
        -- apply Hiff in Hx as [Hx _]. by destruct (tc_nodes g s1 x Hwf Hx).
      * intros Hx. destruct (Hsource x Hx) as (s & Hs & Hsx).
        apply list_elem_of_singleton in Hs as ->.
        apply rtc_tc in Hsx as [<-|Hsx]; [apply list_elem_of_here|].
        destruct (decide (x = s1)) as [->|Hne]; [apply list_elem_of_here|].
        apply list_elem_of_further, Hiff. done.
    + intros [|k] x Hk Hx; simpl in Hk.
      { injection Hk as <-. destruct Hx. apply list_elem_of_here. }
      apply list_lookup_fmap_Some in Hk as ([p c] & Hc & Hk). simpl in Hc.
      subst x. destruct (Hpar k p c Hk) as [He [->|(k' & Hlt & Hk')]].
      * exists 0, s1. split_and!; [lia|done|done].
      * exists (S k'), p. split_and!; [lia|done|done].
  - rewrite <- Hsrc.
    assert (∀ e, e ∈ g_edges g → e.1 ≠ invisible_src_node
                                 ∧ e.2 ≠ invisible_src_node) as Hfree.
    { intros e He. apply (proj1 (Forall_forall _ _) Hends) in He as [H1 H2].
      split; congruence. }
    assert (add_node g invisible_src_node
            = mkDiGraph (g_nodes g ++ [invisible_src_node]) (g_edges g)) as ->.
    { unfold add_node, has_node. by rewrite bool_decide_eq_false_2. }
    assert (NoDup (source_nodes g)) as Hndsrc by by apply NoDup_filter.
    rewrite add_dummy_edges; [|apply elem_of_app; right; apply list_elem_of_here
      |intros s [_ Hs]%list_elem_of_filter; apply elem_of_app; by left
      |done
      |intros s _ He; destruct (Hfree _ He); simpl in *; congruence].
    rewrite remove_dummy_edges;
      [|done|intros e He; by destruct (Hfree _ He)].
    set (g2 := mkDiGraph (g_nodes g ++ [invisible_src_node])
                 (g_edges g ++ ((fun s => (invisible_src_node, s))
                                  <$> source_nodes g))).
    simpl. unfold remove_node, has_node. simpl.
    rewrite bool_decide_eq_true_2
      by (apply elem_of_app; right; apply list_elem_of_here).
    simpl.
    assert (drop_node (mkDiGraph (g_nodes g ++ [invisible_src_node])
                         (g_edges g)) invisible_src_node = g) as ->.
    { unfold drop_node. simpl.
      rewrite filter_app, filter_cons_False, filter_nil, app_nil_r
        by (simpl; congruence).
      rewrite !filter_all; [by destruct g| |].
      - intros e He [H|H]; destruct (Hfree _ He); congruence.
      - intros n Hn ->. done. }
    assert (∀ x y, edge_rel g2 x y
                   ↔ edge_rel g x y
                     ∨ (x = invisible_src_node ∧ y ∈ source_nodes g)) as He2.
    { intros x y. unfold edge_rel, g2. simpl.
      rewrite elem_of_app, list_elem_of_fmap. split.
      - intros [H|(s & [= -> ->] & Hs)]; auto.
      - intros [H|[-> Hs]]; eauto. }
    assert (successors g2 invisible_src_node = source_nodes g) as Hsucc.
    { unfold successors, g2. simpl. rewrite filter_app.
      rewrite (no_elem_nil (filter _ (g_edges g))).
      - simpl. rewrite filter_all; [apply dummy_targets|].
        by intros e (s & -> & _)%list_elem_of_fmap.
      - intros e [He1 He]%list_elem_of_filter. by destruct (Hfree e He). }
    destruct (bfs_edges_spec g2 invisible_src_node) as (Hnd & Hiff & Hpar).
    destruct (bfs_edges_first g2 invisible_src_node) as (tail & Hfirst).
    { by rewrite Hsucc. }
    { rewrite Hsucc. intros [_ H]%list_elem_of_filter. done. }
    rewrite Hsucc in Hfirst.
    assert ((bfs_edges g2 invisible_src_node).*2 = source_nodes g ++ tail.*2)
      as Horder by (by rewrite Hfirst, fmap_app, dummy_targets).
    exists tail.*2. rewrite <- Horder. split_and!; [done| |].
    + apply NoDup_cons in Hnd as [_ Hnd].
      apply NoDup_Permutation; [done|done|]. intros x. rewrite Hiff. split.
      * intros [Ht Hne].
        assert (∀ a b, tc (edge_rel g2) a b → b ∈ g_nodes g2) as Hin2.
        { intros a b Hab. induction Hab as [a b H|a b c H _ IH]; [|done].
          apply He2 in H as [H|[_ H]]; apply elem_of_app; left.
          - by destruct (wf_edge_nodes g a b Hwf H).
          - by apply list_elem_of_filter in H as [_ ?]. }
        pose proof (Hin2 _ _ Ht) as Hx.
        apply elem_of_app in Hx as [Hx|Hx%list_elem_of_singleton]; done.
      * intros Hx. split; [|by intros ->].
        destruct (Hsource x Hx) as (s & Hs & Hsx). rewrite <- Hsrc in Hs.
        apply (tc_rtc_r _ s); [apply tc_once, He2; right; by split|].
        clear -Hsx He2. induction Hsx as [|a b c H _ IH]; [done|].
        eapply rtc_l; [|done]. apply He2. by left.
    + intros k x Hk Hx.
      apply list_lookup_fmap_Some in Hk as ([p c] & Hc & Hk). simpl in Hc.
      subst x. destruct (Hpar k p c Hk) as [He Hp].
      apply He2 in He as [He|[_ He]]; [|done].
      destruct Hp as [->|(k' & Hlt & Hk')].
      * by destruct (Hfree _ He).
      * exists k', p. done.
Qed.

(** X16.  For an acyclic graph of item names [calc_exec_order] returns
    an order that lists every node of the graph exactly once, and it
    leaves the graph as it was. *)
Theorem exec_order_lists_every_item_once g :
  wf g → invisible_src_node ∉ g_nodes g →
  is_directed_acyclic_graph g = true →
  ∃ order, calc_exec_order g = Some (order, g) ∧ order ≡ₚ g_nodes g.
Proof.
  intros Hwf Hzero Hdag.
  destruct (calc_exec_order_dag g Hwf Hzero Hdag) as (rest & H1 & H2 & _).
  eauto.
Qed.

Lemma exec_order_lists_every_item_once_witness :
  let a := NStr "A" in let b := NStr "B" in let c := NStr "C" in
  let d := NStr "D" in
  let g := mkDiGraph [a; b; c; d] [(a, c); (b, c); (c, d); (a, d)] in
  ∃ order, calc_exec_order g = Some (order, g) ∧ order ≡ₚ g_nodes g.
Proof.
  intros a b c d g. apply (exec_order_lists_every_item_once g).
  - apply (bool_decide_unpack _). by vm_compute.
  - intros H. not_in_list H.
  - reflexivity.
Defined.

(** X17.  In the order that [calc_exec_order] returns for an acyclic
    graph of item names, the nodes without incoming edges come first, in
    the node order of the graph, and every other node comes later than
    one of the nodes it has an edge from. *)
Theorem exec_order_starts_at_the_sources g :
  wf g → invisible_src_node ∉ g_nodes g →
  is_directed_acyclic_graph g = true →
  ∃ rest g', calc_exec_order g = Some (source_nodes g ++ rest, g') ∧
    ∀ k x, (source_nodes g ++ rest) !! k = Some x → x ∉ source_nodes g →
      ∃ k' p, k' < k ∧ (source_nodes g ++ rest) !! k' = Some p ∧
              edge_rel g p x.
Proof.
  intros Hwf Hzero Hdag.
  destruct (calc_exec_order_dag g Hwf Hzero Hdag) as (rest & H1 & _ & H3).
  eauto.
Qed.

Lemma exec_order_starts_at_the_sources_witness :
  let a := NStr "A" in let b := NStr "B" in let c := NStr "C" in
  let d := NStr "D" in
  let g := mkDiGraph [a; b; c; d] [(a, c); (b, c); (c, d); (a, d)] in
  ∃ rest g', calc_exec_order g = Some (source_nodes g ++ rest, g') ∧
    ∀ k x, (source_nodes g ++ rest) !! k = Some x → x ∉ source_nodes g →
      ∃ k' p, k' < k ∧ (source_nodes g ++ rest) !! k' = Some p ∧
              edge_rel g p x.
Proof.
  intros a b c d g. apply (exec_order_starts_at_the_sources g).
  - apply (bool_decide_unpack _). by vm_compute.
  - intros H. not_in_list H.
  - reflexivity.
Defined.

(** X18.  On a graph of item names [calc_exec_order] never raises, and
    the order it returns is empty exactly when the graph has no nodes or
    has a directed cycle. *)
Theorem exec_order_empty_iff_no_nodes_or_cycle g :
  wf g → invisible_src_node ∉ g_nodes g →
  ∃ order, calc_exec_order g = Some (order, g) ∧
    (order = [] ↔ g_nodes g = [] ∨ ∃ n, tc (edge_rel g) n n).
Proof.
  intros Hwf Hzero.
  destruct (is_directed_acyclic_graph g) eqn:Hdag.
  - destruct (calc_exec_order_dag g Hwf Hzero Hdag) as (rest & H1 & H2 & _).
    eexists. split; [done|]. split.
    + intros Hnil. left. rewrite Hnil in H2.
      by apply Permutation_nil in H2.
    + intros [Hnil|[n Hn]].
      * rewrite Hnil in H2. symmetry in H2. by apply Permutation_nil in H2.
      * by destruct (acyclic_no_cycle g n Hwf Hdag).
  - exists []. split.
    + unfold calc_exec_order. by rewrite Hdag.
    + split; [|done]. intros _. right.
      apply is_directed_acyclic_graph_false in Hdag as (n & _ & Hn). eauto.
Qed.

Lemma exec_order_empty_iff_no_nodes_or_cycle_witness :
  let a := NStr "A" in let b := NStr "B" in
  let g := mkDiGraph [a; b] [(a, b); (b, a)] in
  ∃ order, calc_exec_order g = Some (order, g) ∧
    (order = [] ↔ g_nodes g = [] ∨ ∃ n, tc (edge_rel g) n n).
Proof.
  intros a b g. apply (exec_order_empty_iff_no_nodes_or_cycle g).
  - apply (bool_decide_unpack _). by vm_compute.
  - intros H. not_in_list H.
Defined.

End OrderFacts.
